(** * chessbot: the move-selection engine of [ChessAgent]

    A shallow embedding of [src/chess_agent.py] (the static evaluator
    [evaluate], the pruning search [alpha_beta_search], the selector
    [select_move] and the constructor), of the move book of
    [src/move_book.py] and of the match loop of [src/match.py], followed by
    the properties of the specification that concern them and by further
    properties of the code.

    Conventions.
    - Python numbers are exact rationals ([Q]); the two infinities used as
      search bounds are added by [Score].  No NaN ever arises in the agent.
    - The rules engine (the [chess] package) is not part of the repository.
      Its [Board] is a record with the two attributes the agent reads or
      assigns directly ([turn], [move_stack]) and an opaque remainder; every
      method of the package is an operation of the class [ChessLib].
    - [time.time()] is a stream of readings [clock : nat -> Q]; the number of
      readings taken so far is threaded through the code as a tick count.
    - The board is mutated in place by the agent, so every function that
      touches it returns the board it leaves behind.
    - [for move in board.legal_moves] runs over the moves of the position
      at loop entry, in the order of the generator; each iteration pushes
      one move and pops it again.
    - Search depths are natural numbers: the agent starts at 1 and only
      counts down to the test [depth == 0].
    - [board.king] is total; the agent calls it only behind the test that
      the side has exactly one king.
    - Printing and [time.sleep] have no counterpart here. *)

From Stdlib Require Import String Ascii.
From Stdlib Require Import List Bool Arith ZArith QArith Qabs Lia Lqa.
Import ListNotations.

Set Implicit Arguments.

(** ** Values of the rules engine *)

Definition Color := bool.
Definition WHITE : Color := true.
Definition BLACK : Color := false.

Inductive PieceType := PAWN | KNIGHT | BISHOP | ROOK | QUEEN | KING.

Record Piece := mkPiece { piece_type : PieceType; piece_color : Color }.

Definition Square := Z.

(** [chess.square_file], [chess.square_rank] and [chess.square]. *)
Definition square_file (sq : Square) : Z := Z.land sq 7.
Definition square_rank (sq : Square) : Z := Z.shiftr sq 3.
Definition square (file_index rank_index : Z) : Square := (rank_index * 8 + file_index)%Z.

Definition D4 : Square := 27%Z.
Definition E4 : Square := 28%Z.
Definition D5 : Square := 35%Z.
Definition E5 : Square := 36%Z.

Record Move := mkMove {
  from_square : Square;
  to_square : Square;
  promotion : option PieceType
}.

Definition PieceType_eqb (x y : PieceType) : bool :=
  match x, y with
  | PAWN, PAWN | KNIGHT, KNIGHT | BISHOP, BISHOP
  | ROOK, ROOK | QUEEN, QUEEN | KING, KING => true
  | _, _ => false
  end.

Definition Move_eqb (m n : Move) : bool :=
  Z.eqb (from_square m) (from_square n) && Z.eqb (to_square m) (to_square n)
  && match promotion m, promotion n with
     | None, None => true
     | Some x, Some y => PieceType_eqb x y
     | _, _ => false
     end.

(** The board object.  [move_stack] is in Python order: oldest move first. *)
Record Board (Hidden : Type) := mkBoard {
  turn : Color;
  move_stack : list Move;
  hidden : Hidden
}.

(** The methods of [chess.Board] used by the agent.  [parse_san] answers
    [None] where the package raises. *)
Class ChessLib (Hidden : Type) := {
  legal_moves : Board Hidden -> list Move;
  push : Board Hidden -> Move -> Board Hidden;
  pop : Board Hidden -> Board Hidden;
  is_game_over : Board Hidden -> bool;
  is_checkmate : Board Hidden -> bool;
  is_stalemate : Board Hidden -> bool;
  is_insufficient_material : Board Hidden -> bool;
  is_check : Board Hidden -> bool;
  is_capture : Board Hidden -> Move -> bool;
  pieces : Board Hidden -> PieceType -> Color -> list Square;
  piece_at : Board Hidden -> Square -> option Piece;
  piece_map : Board Hidden -> list (Square * Piece);
  attackers : Board Hidden -> Color -> Square -> list Square;
  is_attacked_by : Board Hidden -> Color -> Square -> bool;
  king : Board Hidden -> Color -> Square;
  parse_san : Board Hidden -> string -> option Move
}.

(** ** Numbers *)

Definition Qltb (x y : Q) : bool := negb (Qle_bool y x).

(** The length of a Python sequence, as a number. *)
Definition len {A : Type} (l : list A) : Q := inject_Z (Z.of_nat (length l)).

(** [range(lo, hi)] and [range(hi, -1, -1)]. *)
Definition range (lo hi : Z) : list Z :=
  map (fun i => (lo + Z.of_nat i)%Z) (seq 0 (Z.to_nat (hi - lo))).
Definition range_down (hi : Z) : list Z := rev (range 0%Z (hi + 1)%Z).

(** A search value: a number, [-float('inf')] or [float('inf')]. *)
Inductive Score := NegInf | Fin (x : Q) | PosInf.

Definition score_ltb (a b : Score) : bool :=
  match a, b with
  | NegInf, NegInf => false
  | NegInf, _ => true
  | Fin _, NegInf => false
  | Fin x, Fin y => Qltb x y
  | Fin _, PosInf => true
  | PosInf, _ => false
  end.

(** [a >= b] *)
Definition score_geb (a b : Score) : bool := negb (score_ltb a b).
(** Python's [max(a, b)] and [min(a, b)]. *)
Definition score_max (a b : Score) : Score := if score_ltb a b then b else a.
Definition score_min (a b : Score) : Score := if score_ltb b a then b else a.

(** ** The agent *)

Record ChessAgent := mkAgent {
  color : Color;
  test_opening_moves : list string;
  magnus_moves : list string;
  opening_moves_played : nat;
  magnus_moves_played : nat;
  failed_moves_count : nat
}.

Definition piece_value (piece_type : PieceType) : Q :=
  match piece_type with
  | PAWN => 1 | KNIGHT => 3 | BISHOP => 3 | ROOK => 5 | QUEEN => 9 | KING => 0
  end.

(** [piece_values.items()], in insertion order. *)
Definition piece_values : list (PieceType * Q) :=
  map (fun piece_type => (piece_type, piece_value piece_type))
      [PAWN; KNIGHT; BISHOP; ROOK; QUEEN; KING].

Section Engine.

Context {Hidden : Type} {lib : ChessLib Hidden}.
Variable clock : nat -> Q.

Local Abbreviation Board := (Board Hidden).

(** [board.peek()]: the most recent move.  The agent calls it only behind
    [if board.move_stack]; [None] stands for the failure of that test. *)
Definition peek (b : Board) : option Move :=
  match rev (move_stack b) with
  | last_move :: _ => Some last_move
  | [] => None
  end.

(** [move in board.legal_moves] *)
Definition is_legal (b : Board) (move : Move) : bool :=
  existsb (Move_eqb move) (legal_moves b).


(** *** The evaluator, block by block (lines 144-374) *)

(** Material count (lines 177-180, and again 323-326). *)
Definition material (self : ChessAgent) (b : Board) : Q :=
  fold_left
    (fun score '(piece_type, value) =>
       score + len (pieces b piece_type (color self)) * value
             - len (pieces b piece_type (negb (color self))) * value)
    piece_values 0.

Definition opposing_pawn (b : Board) (sq : Square) (color : Color) : bool :=
  match piece_at b sq with
  | Some piece =>
      PieceType_eqb (piece_type piece) PAWN && negb (Bool.eqb (piece_color piece) color)
  | None => false
  end.

Definition occupied (b : Board) (sq : Square) : bool :=
  match piece_at b sq with Some _ => true | None => false end.

(** Lines 183-201: the loops return [False] at the first opposing pawn. *)
Definition is_passed_pawn (b : Board) (sq : Square) (color : Color) : bool :=
  let rank := square_rank sq in
  let file := square_file sq in
  let files := range (Z.max 0 (file - 1))%Z (Z.min 7 (file + 1) + 1)%Z in
  let clear r := forallb (fun f => negb (opposing_pawn b (square f r) color)) files in
  if Bool.eqb color WHITE then forallb clear (range (rank + 1)%Z 8%Z)
  else forallb clear (range_down (rank - 1)%Z).

(** Lines 203-217. *)
Definition open_road (b : Board) (sq : Square) (color : Color) : bool :=
  let rank := square_rank sq in
  let file := square_file sq in
  let free r := negb (occupied b (square file r)) in
  if Bool.eqb color WHITE then forallb free (range (rank + 1)%Z 8%Z)
  else forallb free (range_down (rank - 1)%Z).

(** Body of the loop of lines 220-226: what one of our pawns adds. *)
Definition our_pawn_bonus (self : ChessAgent) (b : Board) (pawn : Square) : Q :=
  let rank := inject_Z (square_rank pawn) in
  if is_passed_pawn b pawn (color self) then
    let bonus := if Bool.eqb (color self) WHITE then rank * 0.5 else (7 - rank) * 0.5 in
    if open_road b pawn (color self) then bonus + 2.0 else bonus
  else 0.

(** Body of the loop of lines 229-235: what one enemy pawn takes away. *)
Definition enemy_pawn_bonus (self : ChessAgent) (b : Board) (pawn : Square) : Q :=
  let rank := inject_Z (square_rank pawn) in
  if is_passed_pawn b pawn (negb (color self)) then
    let bonus := if Bool.eqb (color self) WHITE then (7 - rank) * 0.5 else rank * 0.5 in
    if open_road b pawn (negb (color self)) then bonus + 2.0 else bonus
  else 0.

(** Passed pawns (lines 219-235). *)
Definition passed_pawns (self : ChessAgent) (b : Board) : Q :=
  let score :=
    fold_left (fun score pawn => score + our_pawn_bonus self b pawn)
              (pieces b PAWN (color self)) 0 in
  fold_left (fun score pawn => score - enemy_pawn_bonus self b pawn)
            (pieces b PAWN (negb (color self))) score.

(** Threats and counter-threats (lines 239-249). *)
Definition counter_threat_bonus (self : ChessAgent) (b : Board) : Q :=
  fold_left
    (fun bonus '(sq, piece) =>
       if Bool.eqb (piece_color piece) (color self) then
         match attackers b (negb (color self)) sq with
         | [] => bonus
         | _ :: _ =>
             let threatened_value := piece_value (piece_type piece) in
             fold_left
               (fun bonus '(enemy_sq, enemy_piece) =>
                  if negb (Bool.eqb (piece_color enemy_piece) (color self))
                     && is_attacked_by b (color self) enemy_sq then
                    let enemy_value := piece_value (piece_type enemy_piece) in
                    if Qltb threatened_value enemy_value
                    then bonus + (enemy_value - threatened_value) * 0.2
                    else bonus
                  else bonus)
               (piece_map b) bonus
         end
       else bonus)
    (piece_map b) 0.

(** Piece safety (lines 258-276); the result is the change of [score]. *)
Definition piece_safety (self : ChessAgent) (b : Board) : Q :=
  let safety_factor := 0.5 in
  let extra_hanging_penalty := 0.5 in
  fold_left
    (fun score c =>
       let sign := if Bool.eqb c (color self) then 1 else -1 in
       fold_left
         (fun score piece_type =>
            fold_left
              (fun score sq =>
                 let attackers_ := attackers b (negb c) sq in
                 let defenders := attackers b c sq in
                 let safety_margin := len defenders - len attackers_ in
                 let score :=
                   if Qltb safety_margin 0 then
                     let penalty :=
                       Qabs safety_margin * piece_value piece_type * safety_factor in
                     score - sign * penalty
                   else score in
                 if (2 <=? length attackers_)%nat && (length defenders =? 0)%nat then
                   let extra_penalty := piece_value piece_type * extra_hanging_penalty in
                   score - sign * extra_penalty
                 else score)
              (pieces b piece_type c) score)
         [PAWN; KNIGHT; BISHOP; ROOK; QUEEN] score)
    [color self; negb (color self)] 0.

(** Capture opportunities (lines 279-286). *)
Definition capture_opportunities (self : ChessAgent) (b : Board) : Q :=
  fold_left
    (fun score '(piece_type, value) =>
       if PieceType_eqb piece_type KING then score
       else
         fold_left
           (fun score sq =>
              let attackers_ := attackers b (color self) sq in
              let defenders := attackers b (negb (color self)) sq in
              if (length defenders <? length attackers_)%nat
              then score + value * 0.3 else score)
           (pieces b piece_type (negb (color self))) score)
    piece_values 0.

(** [b.turn = color] *)
Definition set_turn (b : Board) (c : Color) : Board :=
  {| turn := c; move_stack := move_stack b; hidden := hidden b |}.

(** Lines 289-294: flips the side to move, counts, flips back. *)
Definition mobility (b : Board) (color : Color) : Q * Board :=
  let original_turn := turn b in
  let b := set_turn b color in
  let moves_count := len (legal_moves b) in
  let b := set_turn b original_turn in
  (moves_count, b).

Definition mobility_factor : Q := 0.05.
Definition central_squares : list Square := [D4; D5; E4; E5].
Definition central_control_bonus : Q := 0.2.

(** Central control (lines 302-306, and again 336-340). *)
Definition central_control (self : ChessAgent) (b : Board) : Q :=
  fold_left
    (fun score sq =>
       let score :=
         if is_attacked_by b (color self) sq
         then score + central_control_bonus else score in
       if is_attacked_by b (negb (color self)) sq
       then score - central_control_bonus else score)
    central_squares 0.

(** Coordination (lines 310-316). *)
Definition coordination (self : ChessAgent) (b : Board) : Q :=
  fold_left
    (fun coordination_bonus '(sq, piece) =>
       if Bool.eqb (piece_color piece) (color self) then
         let defenders := attackers b (color self) sq in
         if (1 <? length defenders)%nat
         then coordination_bonus + (len defenders - 1) * 0.2
         else coordination_bonus
       else coordination_bonus)
    (piece_map b) 0.

(** Non-positive captures (lines 320-328); the result is the change of
    [score]. *)
Definition non_positive_capture (self : ChessAgent) (b : Board) : Q :=
  match peek b with
  | Some last_move =>
      if negb (Bool.eqb (turn b) (color self)) && is_capture b last_move then
        let material_diff := material self b in
        if Qltb material_diff 1 then - 1.0 else 0
      else 0
  | None => 0
  end.

(** Forced-mate heuristic (lines 358-373); the result is the change of
    [score].  [board.king] is not [None] under the guard. *)
Definition forced_mate_heuristic (self : ChessAgent) (b : Board) : Q :=
  if (length (pieces b KING (negb (color self))) =? 1)%nat then
    let enemy_king_sq := king b (negb (color self)) in
    let enemy_king_moves :=
      len (filter (fun move => Z.eqb (from_square move) enemy_king_sq)
                  (legal_moves b)) in
    let mate_bonus := (10 - enemy_king_moves) * 50 in
    let score := mate_bonus in
    let enemy_king_file := square_file enemy_king_sq in
    let enemy_king_rank := square_rank enemy_king_sq in
    let on_edge x := Z.eqb x 0%Z || Z.eqb x 7%Z in
    let score :=
      if on_edge enemy_king_file || on_edge enemy_king_rank
      then score + 100 else score in
    if is_check b then
      if Bool.eqb (turn b) (color self) then score + 20 else score - 20
    else score
  else 0.

(** [evaluate] (lines 144-374).  The four calls of [mobility] assign
    [board.turn]; the board is threaded through them. *)
Definition evaluate (self : ChessAgent) (b : Board) (depth : Z) : Q * Board :=
  if is_checkmate b then
    (if negb (Bool.eqb (turn b) (color self))
     then 10000 - inject_Z depth else - 10000 + inject_Z depth, b)
  else if is_stalemate b || is_insufficient_material b then (0, b)
  else
    let score := 0 in
    let score := score + material self b in
    let score := score + passed_pawns self b in
    let score := score + counter_threat_bonus self b in
    let score := score + piece_safety self b in
    let score := score + capture_opportunities self b in
    let '(ours, b) := mobility b (color self) in
    let '(theirs, b) := mobility b (negb (color self)) in
    let score := score + mobility_factor * (ours - theirs) in
    let score := score + central_control self b in
    let coordination_bonus := coordination self b in
    let score := score + coordination_bonus in
    let score := score + non_positive_capture self b in
    let '(my_mobility, b) := mobility b (color self) in
    let '(opp_mobility, b) := mobility b (negb (color self)) in
    let pos_metric := mobility_factor * (my_mobility - opp_mobility) in
    let central_metric := central_control self b in
    let pos_metric := pos_metric + central_metric in
    let pos_metric := pos_metric + coordination_bonus in
    let score := if Qltb pos_metric 0.5 then score - 2.0 else score in
    let dominance_threshold := 3.0 in
    let score :=
      if Qltb dominance_threshold pos_metric then
        match peek b with
        | Some last_move => if is_capture b last_move then score - 2.0 else score
        | None => score
        end
      else score in
    let score := score + forced_mate_heuristic self b in
    (score, b).

(** *** The search (lines 109-142) *)

(** What a call leaves behind: the [(move, score)] pair it returns, the
    board, and the number of clock readings taken so far. *)
Definition Outcome : Type := option Move * Score * Board * nat.

(** The loop of lines 117-127 over the moves still to be tried. *)
Fixpoint maximizing_loop (search : Board -> Score -> Score -> nat -> Outcome)
    (moves : list Move) (value : Score) (best_move : option Move)
    (alpha beta : Score) (b : Board) (t : nat) : Outcome :=
  match moves with
  | [] => (best_move, value, b, t)
  | move :: rest =>
      let b := push b move in
      let '(_, score, b, t) := search b alpha beta t in
      let b := pop b in
      let '(value, best_move) :=
        if score_ltb value score then (score, Some move) else (value, best_move) in
      let alpha := score_max alpha value in
      if score_geb alpha beta then (best_move, value, b, t)
      else maximizing_loop search rest value best_move alpha beta b t
  end.

(** The loop of lines 131-141. *)
Fixpoint minimizing_loop (search : Board -> Score -> Score -> nat -> Outcome)
    (moves : list Move) (value : Score) (best_move : option Move)
    (alpha beta : Score) (b : Board) (t : nat) : Outcome :=
  match moves with
  | [] => (best_move, value, b, t)
  | move :: rest =>
      let b := push b move in
      let '(_, score, b, t) := search b alpha beta t in
      let b := pop b in
      let '(value, best_move) :=
        if score_ltb score value then (score, Some move) else (value, best_move) in
      let beta := score_min beta value in
      if score_geb alpha beta then (best_move, value, b, t)
      else minimizing_loop search rest value best_move alpha beta b t
  end.

(** [return None, self.evaluate(board)] *)
Definition leaf (self : ChessAgent) (b : Board) (t : nat) : Outcome :=
  let '(score, b) := evaluate self b 0 in (None, Fin score, b, t).

(** [alpha_beta_search].  The clock is read by the third disjunct of line
    112 only, that is when the first two are false.  [depth] is a natural
    number: the selector starts at 1 and the recursion stops at 0. *)
Fixpoint alpha_beta_search (self : ChessAgent) (b : Board) (depth : nat)
    (alpha beta : Score) (player : Color) (start_time time_limit : Q)
    (t : nat) {struct depth} : Outcome :=
  match depth with
  | O => leaf self b t
  | S depth' =>
      if is_game_over b then leaf self b t
      else if Qltb time_limit (clock t - start_time) then leaf self b (S t)
      else
        let t := S t in
        let search b alpha beta t :=
          alpha_beta_search self b depth' alpha beta player start_time time_limit t in
        if Bool.eqb (turn b) player
        then maximizing_loop search (legal_moves b) NegInf None alpha beta b t
        else minimizing_loop search (legal_moves b) PosInf None alpha beta b t
  end.

(** *** The selector (lines 54-107) *)

(** The [while] loop of lines 87-91.  It runs as long as the clock allows;
    [fuel] bounds the number of iterations and [None] means the bound was
    reached. *)
Fixpoint iterative_deepening (fuel : nat) (self : ChessAgent) (b : Board)
    (start_time time_limit : Q) (depth : nat) (best_move : option Move)
    (t : nat) : option (option Move * Board * nat) :=
  match fuel with
  | O => None
  | S fuel' =>
      if Qltb (clock t - start_time) time_limit then
        let '(move, _, b, t) :=
          alpha_beta_search self b depth NegInf PosInf (color self)
                            start_time time_limit (S t) in
        let best_move := match move with Some _ => move | None => best_move end in
        iterative_deepening fuel' self b start_time time_limit (S depth) best_move t
      else Some (best_move, b, S t)
  end.

(** The static scan of lines 98-107. *)
Fixpoint fallback_scan (self : ChessAgent) (moves : list Move)
    (fallback_move : option Move) (best_eval : Score) (b : Board)
    : option Move * Board :=
  match moves with
  | [] => (fallback_move, b)
  | move :: rest =>
      let b := push b move in
      let '(eval_val, b) := evaluate self b 0 in
      let b := pop b in
      if score_ltb best_eval (Fin eval_val)
      then fallback_scan self rest (Some move) (Fin eval_val) b
      else fallback_scan self rest fallback_move best_eval b
  end.

(** Lines 84-107: the search and its fallback. *)
Definition search_phase (fuel : nat) (self : ChessAgent) (b : Board)
    (time_limit : Q) (t : nat) : option (option Move * ChessAgent * Board * nat) :=
  let start_time := clock t in
  match iterative_deepening fuel self b start_time time_limit 1 None (S t) with
  | None => None
  | Some (Some best_move, b, t) => Some (Some best_move, self, b, t)
  | Some (None, b, t) =>
      let '(fallback_move, b) := fallback_scan self (legal_moves b) None NegInf b in
      Some (fallback_move, self, b, t)
  end.

Definition nonempty {A : Type} (l : list A) : bool :=
  match l with [] => false | _ :: _ => true end.

(** One scripted source: the body shared by lines 60-69 and 72-81.  The
    answer is the move to return, or [None] to fall out of the [if]. *)
Definition scripted (b : Board) (moves : list string) (played : nat) : option Move :=
  match nth_error moves played with
  | Some expected_move =>
      match parse_san b expected_move with
      | Some move => if is_legal b move then Some move else None
      | None => None
      end
  | None => None
  end.

(** [self] after one more move of the test opening, and after one more of
    Magnus' moves (lines 66 and 78). *)
Definition opening_played (self : ChessAgent) : ChessAgent :=
  {| color := color self;
     test_opening_moves := test_opening_moves self;
     magnus_moves := magnus_moves self;
     opening_moves_played := opening_moves_played self + 1;
     magnus_moves_played := magnus_moves_played self;
     failed_moves_count := failed_moves_count self |}.

Definition magnus_played (self : ChessAgent) : ChessAgent :=
  {| color := color self;
     test_opening_moves := test_opening_moves self;
     magnus_moves := magnus_moves self;
     opening_moves_played := opening_moves_played self;
     magnus_moves_played := magnus_moves_played self + 1;
     failed_moves_count := failed_moves_count self |}.

(** Lines 59-81: the move a scripted source supplies, with the agent after
    it.  The [elif] of line 72 belongs to the [if] of line 59. *)
Definition book_move (self : ChessAgent) (b : Board) : option (Move * ChessAgent) :=
  if Bool.eqb (color self) WHITE && nonempty (test_opening_moves self) then
    match scripted b (test_opening_moves self) (opening_moves_played self) with
    | Some move => Some (move, opening_played self)
    | None => None
    end
  else
    match scripted b (magnus_moves self) (magnus_moves_played self) with
    | Some move => Some (move, magnus_played self)
    | None => None
    end.

(** [select_move].  [time.sleep] has no effect on the state modelled here. *)
Definition select_move (fuel : nat) (self : ChessAgent) (b : Board)
    (time_limit : Q) (t : nat) : option (option Move * ChessAgent * Board * nat) :=
  match book_move self b with
  | Some (move, self) => Some (Some move, self, b, t)
  | None => search_phase fuel self b time_limit t
  end.

End Engine.

(** ** The move book ([src/move_book.py])

    A Python string is a [string]: each character is the code point of the
    same number, below 256.  A data frame is the list of its rows, in order.
    The openings frame holds strings in its columns [eco] and [eco_example];
    a cell of the column [move_sequence] of the two game frames holds a
    string or no string at all ([None]). *)

Section MoveBook.

Local Open Scope nat_scope.

(** *** The string methods the book calls *)

(** [str.isspace], and [\s] of [re], on one character. *)
Definition isspace (c : ascii) : bool :=
  let n := nat_of_ascii c in
  ((9 <=? n) && (n <=? 13)) || ((28 <=? n) && (n <=? 32))
  || (n =? 133) || (n =? 160).

Definition is_digit_char (c : ascii) : bool :=
  let n := nat_of_ascii c in
  ((48 <=? n) && (n <=? 57)) || (n =? 178) || (n =? 179) || (n =? 185).

(** [s.isdigit()]: at least one character, and digits only. *)
Definition isdigit (s : string) : bool :=
  match s with
  | EmptyString => false
  | String _ _ => forallb is_digit_char (list_ascii_of_string s)
  end.

Definition lower_char (c : ascii) : ascii :=
  let n := nat_of_ascii c in
  if ((65 <=? n) && (n <=? 90))
     || ((192 <=? n) && (n <=? 222) && negb (n =? 215))
  then ascii_of_nat (n + 32) else c.

(** [s.lower()] *)
Fixpoint lower (s : string) : string :=
  match s with
  | EmptyString => EmptyString
  | String c rest => String (lower_char c) (lower rest)
  end.

(** The characters of [chars], as a set. *)
Definition one_of (chars : string) (c : ascii) : bool :=
  existsb (Ascii.eqb c) (list_ascii_of_string chars).

(** [s.lstrip(...)] and [s.rstrip(...)], for the characters [p] holds of. *)
Fixpoint lstrip (p : ascii -> bool) (s : string) : string :=
  match s with
  | EmptyString => EmptyString
  | String c rest => if p c then lstrip p rest else s
  end.

Fixpoint rstrip (p : ascii -> bool) (s : string) : string :=
  match s with
  | EmptyString => EmptyString
  | String c rest =>
      match rstrip p rest with
      | EmptyString => if p c then EmptyString else String c EmptyString
      | kept => String c kept
      end
  end.

(** [s.strip()] is [strip isspace s]; [s.strip(".,")] is
    [strip (one_of ".,") s]. *)
Definition strip (p : ascii -> bool) (s : string) : string := rstrip p (lstrip p s).

(** The first field of [fields] gains the character [c] at its front. *)
Definition extend (c : ascii) (fields : list string) : list string :=
  match fields with
  | field :: rest => String c field :: rest
  | [] => [String c EmptyString]
  end.

(** [re.split(r'\s+', s)]: the fields between the maximal runs of
    whitespace; a run at either end leaves an empty field there. *)
Fixpoint re_split_spaces (s : string) : list string :=
  match s with
  | EmptyString => [EmptyString]
  | String c rest =>
      if isspace c then
        match rest with
        | String c' _ =>
            if isspace c' then re_split_spaces rest
            else EmptyString :: re_split_spaces rest
        | EmptyString => EmptyString :: re_split_spaces rest
        end
      else extend c (re_split_spaces rest)
  end.

(** [s.split()]: the maximal runs of characters that are not whitespace. *)
Fixpoint str_split (s : string) : list string :=
  match s with
  | EmptyString => []
  | String c rest =>
      if isspace c then str_split rest
      else
        match rest with
        | String c' _ =>
            if isspace c' then String c EmptyString :: str_split rest
            else extend c (str_split rest)
        | EmptyString => [String c EmptyString]
        end
  end.

(** [s.split(sep)] for a separator of one character. *)
Fixpoint split_on (sep : ascii) (s : string) : list string :=
  match s with
  | EmptyString => [EmptyString]
  | String c rest =>
      if Ascii.eqb c sep then EmptyString :: split_on sep rest
      else extend c (split_on sep rest)
  end.

(** [sep in s] for a separator of one character. *)
Definition contains (sep : ascii) (s : string) : bool :=
  existsb (Ascii.eqb sep) (list_ascii_of_string s).

(** [l[::2]], and [l[start::2]]. *)
Fixpoint every_second {A : Type} (l : list A) : list A :=
  match l with
  | x :: _ :: rest => x :: every_second rest
  | [x] => [x]
  | [] => []
  end.

Definition from_step2 {A : Type} (start : nat) (l : list A) : list A :=
  every_second (skipn start l).

(** *** Dictionaries keyed by strings *)

(** [d[key] = value]: a key already present keeps its place. *)
Fixpoint dict_set {V : Type} (d : list (string * V)) (key : string) (value : V)
    : list (string * V) :=
  match d with
  | [] => [(key, value)]
  | (k, v) :: rest =>
      if String.eqb k key then (k, value) :: rest
      else (k, v) :: dict_set rest key value
  end.

(** [d.get(key)] *)
Fixpoint dict_get {V : Type} (d : list (string * V)) (key : string) : option V :=
  match d with
  | [] => None
  | (k, v) :: rest => if String.eqb k key then Some v else dict_get rest key
  end.

(** *** The book *)

(** A row of the openings frame, and the value kept for an ECO code: the
    dictionary with the two keys ["white"] and ["black"]. *)
Record EcoRow := mkEcoRow { eco : string; eco_example : string }.

Record Opening := mkOpening { white_moves : list string; black_moves : list string }.

Record MoveBook := mkMoveBook {
  moves_white : list (option string);
  moves_black : list (option string);
  openings : list (string * Opening)
}.

(** Lines 46-56: the moves of one example line. *)
Definition example_moves (move_sequence : string) : list string :=
  let tokens := re_split_spaces (strip isspace move_sequence) in
  fold_left
    (fun moves token =>
       let token := strip (one_of ".,") token in
       if isdigit token then moves
       else if existsb (String.eqb (lower token)) ["etc"%string; "etc."%string]
       then moves
       else moves ++ [token])
    tokens [].

(** Lines 35-62. *)
Definition _convert_ecocodes_to_dict (df_ecocodes : list EcoRow)
    : list (string * Opening) :=
  fold_left
    (fun openings_dict row =>
       let eco_code := eco row in
       let move_sequence := eco_example row in
       let moves := example_moves move_sequence in
       let white_moves := from_step2 0 moves in
       let black_moves := from_step2 1 moves in
       dict_set openings_dict eco_code (mkOpening white_moves black_moves))
    df_ecocodes [].

(** [MoveBook.__init__] (lines 30-33). *)
Definition MoveBook_init (moves_white moves_black : list (option string))
    (openings : list EcoRow) : MoveBook :=
  mkMoveBook moves_white moves_black (_convert_ecocodes_to_dict openings).

(** Lines 64-70.  The default [{}] of the outer [get] has neither key. *)
Definition get_opening_moves (self : MoveBook) (opening_code : string)
    (color : Color) : list string :=
  match dict_get (openings self) opening_code with
  | Some opening =>
      if Bool.eqb color WHITE then white_moves opening else black_moves opening
  | None => []
  end.

(** [frame.sample(n=1).iloc[0]]: the sampler's draw selects a row of the
    frame; an empty frame has none, and [sample] raises. *)
Definition sample {A : Type} (frame : list A) (draw : nat) : option A :=
  match frame with
  | [] => None
  | _ :: _ => nth_error frame (draw mod length frame)
  end.

(** Lines 72-93.  Whatever is raised inside [try] ends in [return []]: the
    empty frame, and the cell that holds no string. *)
Definition get_magnus_moves (self : MoveBook) (color : Color) (draw : nat)
    : list string :=
  let frame := if Bool.eqb color WHITE then moves_white self else moves_black self in
  match sample frame draw with
  | Some (Some move_sequence) =>
      let full_moves :=
        if contains "|"%char move_sequence then split_on "|"%char move_sequence
        else str_split move_sequence in
      if Bool.eqb color WHITE then from_step2 0 full_moves
      else from_step2 1 full_moves
  | Some None => []
  | None => []
  end.

(** [ChessAgent.__init__] (lines 33-42 of [src/chess_agent.py]).  Without a
    book the call of line 38 or that of line 39 raises, and no agent is
    made.  An empty [test_opening_code] counts as none.  No later code reads
    [self.move_book], and the agent has no field for it. *)
Definition ChessAgent_init (color : Color) (move_book : option MoveBook)
    (test_opening_code : option string) (draw : nat) : option ChessAgent :=
  match move_book with
  | None => None
  | Some move_book =>
      Some {| color := color;
              test_opening_moves :=
                match test_opening_code with
                | Some (String _ _ as code) => get_opening_moves move_book code color
                | Some EmptyString | None => []
                end;
              magnus_moves := get_magnus_moves move_book color draw;
              opening_moves_played := 0;
              magnus_moves_played := 0;
              failed_moves_count := 0 |}
  end.

End MoveBook.

(** ** The match ([src/match.py]) *)

Section Match.

Context {Hidden : Type} {lib : ChessLib Hidden}.
Variable clock : nat -> Q.

(** [chess.Board()], and [board.result(claim_draw=True)]. *)
Variable new_board : Board Hidden.
Variable result : Board Hidden -> string.

Record Match := mkMatch {
  white_agent : ChessAgent;
  black_agent : ChessAgent;
  board : Board Hidden;
  white_clock : Q;
  black_clock : Q
}.

(** [Match.__init__] (lines 35-40). *)
Definition Match_init (white_agent black_agent : ChessAgent) : Match :=
  mkMatch white_agent black_agent new_board 10.0 10.0.

(** How one pass through the body of the loop ends. *)
Inductive Turn :=
| Flagged (self : Match) (t : nat)      (* out of time: [break] *)
| Raised (self : Match) (t : nat)       (* [board.push(None)] raises *)
| Played (self : Match) (t : nat).      (* the move is on the board *)

(** [max(0, x)] *)
Definition max0 (x : Q) : Q := if Qltb 0 x then x else 0.

(** Lines 51-71.  The agent that moves is mutated in place by
    [select_move]; the two agents are two objects.  [render] shows the
    board and changes nothing. *)
Definition play_turn (think : nat) (self : Match) (t : nat) : option Turn :=
  let white_to_move := Bool.eqb (turn (board self)) WHITE in
  let current_agent := if white_to_move then white_agent self else black_agent self in
  let available_time := if white_to_move then white_clock self else black_clock self in
  if Qle_bool available_time 0 then Some (Flagged self t)
  else
    let move_start := clock t in
    match select_move clock think current_agent (board self) available_time (S t) with
    | None => None
    | Some (move, current_agent, b, t) =>
        let move_time := clock t - move_start in
        let t := S t in
        let white_agent := if white_to_move then current_agent else white_agent self in
        let black_agent := if white_to_move then black_agent self else current_agent in
        let white_clock :=
          if Bool.eqb (turn b) WHITE
          then max0 (white_clock self - move_time) + 0.1 else white_clock self in
        let black_clock :=
          if Bool.eqb (turn b) WHITE
          then black_clock self else max0 (black_clock self - move_time) + 0.1 in
        match move with
        | Some move =>
            Some (Played (mkMatch white_agent black_agent (push b move)
                                  white_clock black_clock) t)
        | None =>
            Some (Raised (mkMatch white_agent black_agent b white_clock black_clock) t)
        end
    end.

(** What [play] leaves behind: the result it returns and whether a side
    was flagged, or the exception of [push]. *)
Inductive Ending :=
| Returned (outcome : string) (flagged : bool)
| Failed.

(** [play] (lines 49-74).  [fuel] bounds the number of moves, [think] the
    iterations of each deepening loop; [None] means a bound was reached. *)
Fixpoint play (think fuel : nat) (self : Match) (t : nat)
    : option (Ending * Match * nat) :=
  match fuel with
  | O => None
  | S fuel' =>
      if negb (is_game_over (board self)) then
        match play_turn think self t with
        | None => None
        | Some (Flagged self t) => Some (Returned (result (board self)) true, self, t)
        | Some (Raised self t) => Some (Failed, self, t)
        | Some (Played self t) => play think fuel' self t
        end
      else Some (Returned (result (board self)) false, self, t)
  end.

End Match.

Arguments Match : clear implicits.

(** ** What the properties are stated with

    Nothing below is code of the agent: these are the notions of the
    specification (the unpruned minimax, the brute-force one-ply scan, passed
    pawns, the run of the deepening loop) and the names needed to speak
    about the results of the code. *)

Section Specification.

Context {Hidden : Type} {lib : ChessLib Hidden}.
Variable clock : nat -> Q.

Local Abbreviation Board := (Board Hidden).
Local Abbreviation Outcome := (@Outcome Hidden).

(** The four components of what a search call leaves behind. *)
Definition move_of (o : Outcome) : option Move := fst (fst (fst o)).
Definition score_of (o : Outcome) : Score := snd (fst (fst o)).
Definition board_of (o : Outcome) : Board := snd (fst o).
Definition ticks_of (o : Outcome) : nat := snd o.

(** The number [evaluate] returns with the default [depth]. *)
Definition static_eval (self : ChessAgent) (b : Board) : Q := fst (evaluate self b 0).

(** *** Search results *)

(** A value and a move have been found. *)
Definition found (value : Score) (best_move : option Move) : Prop :=
  (exists x, value = Fin x) /\ best_move <> None.

(** The condition of line 112, as the call at tick [t] sees it. *)
Definition is_leaf_call (b : Board) (depth : nat) (start_time time_limit : Q)
    (t : nat) : Prop :=
  depth = 0%nat \/ is_game_over b = true
  \/ Qltb time_limit (clock t - start_time) = true.

(** The deadline does not fire at reading [n] of the clock. *)
Definition in_time (start_time time_limit : Q) (n : nat) : Prop :=
  Qltb time_limit (clock n - start_time) = false.

(** A call entered at tick [t] that leaves the tick count at [t'] has taken
    the readings [t], ..., [t' - 1]; it is undisturbed when each of them is
    [ok]. *)
Definition undisturbed (ok : nat -> Prop) (t : nat) (o : Outcome) : Prop :=
  forall n, (t <= n < ticks_of o)%nat -> ok n.

(** *** One-ply scans *)

(** The brute-force scans the one-ply results are compared with: the first
    move, in enumeration order, whose value is strictly the highest (the
    lowest) seen. *)
Fixpoint scan_max (f : Move -> Q) (moves : list Move) (value : Score)
    (best_move : option Move) : option Move * Score :=
  match moves with
  | [] => (best_move, value)
  | move :: rest =>
      if score_ltb value (Fin (f move))
      then scan_max f rest (Fin (f move)) (Some move)
      else scan_max f rest value best_move
  end.

Fixpoint scan_min (f : Move -> Q) (moves : list Move) (value : Score)
    (best_move : option Move) : option Move * Score :=
  match moves with
  | [] => (best_move, value)
  | move :: rest =>
      if score_ltb (Fin (f move)) value
      then scan_min f rest (Fin (f move)) (Some move)
      else scan_min f rest value best_move
  end.

(** [m] is the first move of [moves] with the highest value: every move
    before it is strictly worse, none after it is better. *)
Definition first_highest (f : Move -> Q) (moves : list Move) (m : Move) : Prop :=
  exists before after,
    moves = before ++ m :: after
    /\ (forall x, In x before -> f x < f m)
    /\ (forall x, In x after -> f x <= f m).

Definition first_lowest (f : Move -> Q) (moves : list Move) (m : Move) : Prop :=
  exists before after,
    moves = before ++ m :: after
    /\ (forall x, In x before -> f m < f x)
    /\ (forall x, In x after -> f m <= f x).

(** *** The unpruned minimax *)

(** The full minimax the pruning search is compared with: the same tree
    (same leaves, same enumeration order), the same roles by comparison of
    the side to move with the fixed [perspective], the same strict
    improvement rule, no window and no clock. *)
Fixpoint keep_highest (child : Move -> Score) (moves : list Move)
    (value : Score) (best_move : option Move) : option Move * Score :=
  match moves with
  | [] => (best_move, value)
  | move :: rest =>
      if score_ltb value (child move)
      then keep_highest child rest (child move) (Some move)
      else keep_highest child rest value best_move
  end.

Fixpoint keep_lowest (child : Move -> Score) (moves : list Move)
    (value : Score) (best_move : option Move) : option Move * Score :=
  match moves with
  | [] => (best_move, value)
  | move :: rest =>
      if score_ltb (child move) value
      then keep_lowest child rest (child move) (Some move)
      else keep_lowest child rest value best_move
  end.

Fixpoint full_minimax (self : ChessAgent) (b : Board) (depth : nat)
    (perspective : Color) : option Move * Score :=
  match depth with
  | O => (None, Fin (static_eval self b))
  | S depth' =>
      if is_game_over b then (None, Fin (static_eval self b))
      else
        let child move := snd (full_minimax self (push b move) depth' perspective) in
        if Bool.eqb (turn b) perspective
        then keep_highest child (legal_moves b) NegInf None
        else keep_lowest child (legal_moves b) PosInf None
  end.

(** What a call with window [(alpha, beta)] may return for a node of true
    value [v]: the value itself when it lies inside the window, and a bound
    on the same side of the window otherwise. *)
Definition within (alpha beta v s : Score) : Prop :=
  (score_ltb alpha v = false -> score_ltb alpha s = false)
  /\ (score_ltb alpha v = true -> score_ltb v beta = true -> s = v)
  /\ (score_ltb v beta = false -> score_ltb s beta = false).

(** *** The evaluator as a sum of its blocks *)

(** The additive blocks of [evaluate], in the order of the source. *)
Inductive Block :=
| MaterialCount | PassedPawn | CounterThreat | PieceSafety | CaptureChance
| Mobility | CentralControl | Coordination | NonPositiveCapture
| PositionalImprovement | DominantCapture | ForcedMate.

Definition blocks : list Block :=
  [MaterialCount; PassedPawn; CounterThreat; PieceSafety; CaptureChance;
   Mobility; CentralControl; Coordination; NonPositiveCapture;
   PositionalImprovement; DominantCapture; ForcedMate].

Definition Block_eqb (x y : Block) : bool :=
  match x, y with
  | MaterialCount, MaterialCount | PassedPawn, PassedPawn
  | CounterThreat, CounterThreat | PieceSafety, PieceSafety
  | CaptureChance, CaptureChance | Mobility, Mobility
  | CentralControl, CentralControl | Coordination, Coordination
  | NonPositiveCapture, NonPositiveCapture
  | PositionalImprovement, PositionalImprovement
  | DominantCapture, DominantCapture | ForcedMate, ForcedMate => true
  | _, _ => false
  end.

Definition all_but (k : Block) : list Block :=
  filter (fun k' => negb (Block_eqb k k')) blocks.

(** The positional metric of lines 332-342. *)
Definition pos_metric (self : ChessAgent) (b : Board) : Q :=
  mobility_factor
  * (fst (mobility b (color self)) - fst (mobility b (negb (color self))))
  + central_control self b + coordination self b.

(** What each block adds to [score]. *)
Definition block (self : ChessAgent) (b : Board) (k : Block) : Q :=
  match k with
  | MaterialCount => material self b
  | PassedPawn => passed_pawns self b
  | CounterThreat => counter_threat_bonus self b
  | PieceSafety => piece_safety self b
  | CaptureChance => capture_opportunities self b
  | Mobility =>
      mobility_factor
      * (fst (mobility b (color self)) - fst (mobility b (negb (color self))))
  | CentralControl => central_control self b
  | Coordination => coordination self b
  | NonPositiveCapture => non_positive_capture self b
  | PositionalImprovement => if Qltb (pos_metric self b) 0.5 then - 2.0 else 0
  | DominantCapture =>
      if Qltb 3.0 (pos_metric self b) then
        match peek b with
        | Some last_move => if is_capture b last_move then - 2.0 else 0
        | None => 0
        end
      else 0
  | ForcedMate => forced_mate_heuristic self b
  end.

Definition total (self : ChessAgent) (b : Board) (ks : list Block) : Q :=
  fold_left (fun score k => score + block self b k) ks 0.

(** The position is none of the terminal cases of lines 161-164. *)
Definition in_play (b : Board) : Prop :=
  is_checkmate b = false /\ is_stalemate b = false
  /\ is_insufficient_material b = false.

(** *** Passed pawns *)

(** Rank [r] lies ahead of [rank] for a pawn of colour [c], towards
    promotion; file [f] is the pawn's own file or a neighbour on the board. *)
Definition ahead (c : Color) (rank r : Z) : Prop :=
  if c then (rank < r <= 7)%Z else (0 <= r < rank)%Z.

Definition own_or_adjacent (file f : Z) : Prop :=
  (0 <= f <= 7 /\ file - 1 <= f <= file + 1)%Z.

(** No opposing pawn stands ahead of the pawn on its own or an adjacent
    file. *)
Definition passed (b : Board) (sq : Square) (c : Color) : Prop :=
  forall f r, ahead c (square_rank sq) r -> own_or_adjacent (square_file sq) f ->
  forall piece, piece_at b (square f r) = Some piece ->
    piece_type piece = PAWN -> piece_color piece = c.

(** No piece of either side stands ahead of the pawn on its own file. *)
Definition road_open (b : Board) (sq : Square) (c : Color) : Prop :=
  forall r, ahead c (square_rank sq) r ->
    piece_at b (square (square_file sq) r) = None.

(** The pawn's distance from its own back rank, in ranks. *)
Definition from_back (sq : Square) (c : Color) : Q :=
  if c then inject_Z (square_rank sq) else 7 - inject_Z (square_rank sq).

(** The number of ranks a pawn has advanced from its starting rank (the
    second rank of its side). *)
Definition ranks_advanced (sq : Square) (c : Color) : Q :=
  if c then inject_Z (square_rank sq) - 1 else 6 - inject_Z (square_rank sq).

(** What a pawn of colour [c] on [sq] is worth to its side in the
    passed-pawn block. *)
Definition pawn_worth (b : Board) (c : Color) (sq : Square) (w : Q) : Prop :=
  (passed b sq c /\ road_open b sq c /\ w == 0.5 * from_back sq c + 2.0)
  \/ (passed b sq c /\ ~ road_open b sq c /\ w == 0.5 * from_back sq c)
  \/ (~ passed b sq c /\ w == 0).

Definition sumQ (l : list Q) : Q := fold_right Qplus 0 l.

(** *** The selector *)

(** The search call the deepening loop makes at [depth], after its reading
    of the clock at tick [t]. *)
Definition call (self : ChessAgent) (b : Board) (start_time time_limit : Q)
    (depth t : nat) : Outcome :=
  alpha_beta_search clock self b depth NegInf PosInf (color self)
                    start_time time_limit (S t).

(** The run of the loop from [depth] at tick [t]: the move components of the
    results of its calls, in order, and the tick at which it stops. *)
Inductive deepening_run (self : ChessAgent) (b : Board) (start_time time_limit : Q)
    : nat -> nat -> list (option Move) -> nat -> Prop :=
| run_stop (depth t : nat) :
    Qltb (clock t - start_time) time_limit = false ->
    deepening_run self b start_time time_limit depth t [] (S t)
| run_call (depth t : nat) (results : list (option Move)) (t' : nat) :
    Qltb (clock t - start_time) time_limit = true ->
    deepening_run self b start_time time_limit (S depth)
                  (ticks_of (call self b start_time time_limit depth t)) results t' ->
    deepening_run self b start_time time_limit depth t
                  (move_of (call self b start_time time_limit depth t) :: results) t'.

(** [r] is what is kept of [results] on top of [best_move]: the last result
    that is a move, if there is one. *)
Definition last_move_of (best_move : option Move) (results : list (option Move))
    (r : option Move) : Prop :=
  (exists m before after,
      r = Some m /\ results = before ++ Some m :: after /\ Forall (eq None) after)
  \/ (r = best_move /\ Forall (eq None) results).

(** The opening source is consulted: the condition of line 59. *)
Definition opening_gate (self : ChessAgent) : bool :=
  Bool.eqb (color self) WHITE && nonempty (test_opening_moves self).

End Specification.

(** ** A scripted rules engine

    The positions used as concrete inputs below.  A position is a node of a
    scripted game tree: the answers the rules engine gives there, and the
    positions its moves lead to.  [push] walks to a child and remembers the
    parent, [pop] walks back. *)

Module Script.

Record Facts := mkFacts {
  side : Color;                            (* the side to move *)
  drawn : bool;                            (* insufficient material *)
  check : bool;
  last_capture : bool;                     (* the move that led here captured *)
  placement : list (Square * Piece);
  attacks : list (Color * Square * list Square);
  other_moves : list Move;                 (* legal moves with the turn flipped *)
  san : list (string * Move)
}.

#[warnings="-register-all"]
Inductive Node := node (facts : Facts) (children : list (Move * Node)).

Definition facts_of (n : Node) : Facts := let 'node f _ := n in f.
Definition children_of (n : Node) : list (Move * Node) := let 'node _ c := n in c.

(** The hidden part of a board: the current node and the undo stack. *)
Definition Hidden : Type := Node * list Node.

Definition here (b : Board Hidden) : Node := fst (hidden b).

Definition s_legal_moves (b : Board Hidden) : list Move :=
  if Bool.eqb (turn b) (side (facts_of (here b)))
  then map fst (children_of (here b))
  else other_moves (facts_of (here b)).

Definition child (n : Node) (move : Move) : Node :=
  match find (fun c => Move_eqb move (fst c)) (children_of n) with
  | Some c => snd c
  | None => n
  end.

Definition s_push (b : Board Hidden) (move : Move) : Board Hidden :=
  {| turn := negb (turn b);
     move_stack := move_stack b ++ [move];
     hidden := (child (here b) move, here b :: snd (hidden b)) |}.

Definition s_pop (b : Board Hidden) : Board Hidden :=
  {| turn := negb (turn b);
     move_stack := removelast (move_stack b);
     hidden := match snd (hidden b) with
               | parent :: rest => (parent, rest)
               | [] => hidden b
               end |}.

Definition s_is_check (b : Board Hidden) : bool := check (facts_of (here b)).

Definition s_is_checkmate (b : Board Hidden) : bool :=
  s_is_check b && negb (nonempty (s_legal_moves b)).

Definition s_is_stalemate (b : Board Hidden) : bool :=
  negb (s_is_check b) && negb (nonempty (s_legal_moves b)).

Definition s_is_insufficient_material (b : Board Hidden) : bool :=
  drawn (facts_of (here b)).

Definition s_is_game_over (b : Board Hidden) : bool :=
  s_is_checkmate b || s_is_stalemate b || s_is_insufficient_material b.

Definition s_is_capture (b : Board Hidden) (move : Move) : bool :=
  match rev (move_stack b) with
  | last_move :: _ => Move_eqb move last_move && last_capture (facts_of (here b))
  | [] => false
  end.

Definition holds (kind : PieceType) (c : Color) (entry : Square * Piece) : bool :=
  PieceType_eqb (piece_type (snd entry)) kind
  && Bool.eqb (piece_color (snd entry)) c.

Definition s_pieces (b : Board Hidden) (kind : PieceType) (c : Color)
    : list Square :=
  map fst (filter (holds kind c) (placement (facts_of (here b)))).

Definition s_piece_at (b : Board Hidden) (sq : Square) : option Piece :=
  match find (fun entry => Z.eqb (fst entry) sq) (placement (facts_of (here b))) with
  | Some entry => Some (snd entry)
  | None => None
  end.

Definition s_piece_map (b : Board Hidden) : list (Square * Piece) :=
  rev (placement (facts_of (here b))).

Definition s_attackers (b : Board Hidden) (c : Color) (sq : Square) : list Square :=
  match find (fun row => Bool.eqb (fst (fst row)) c && Z.eqb (snd (fst row)) sq)
             (attacks (facts_of (here b))) with
  | Some row => snd row
  | None => []
  end.

Definition s_is_attacked_by (b : Board Hidden) (c : Color) (sq : Square) : bool :=
  nonempty (s_attackers b c sq).

Definition s_king (b : Board Hidden) (c : Color) : Square :=
  last (s_pieces b KING c) 0%Z.

Definition s_parse_san (b : Board Hidden) (text : string) : option Move :=
  match find (fun row => String.eqb (fst row) text) (san (facts_of (here b))) with
  | Some row => Some (snd row)
  | None => None
  end.

#[export] Instance engine : ChessLib Hidden := {|
  legal_moves := s_legal_moves;
  push := s_push;
  pop := s_pop;
  is_game_over := s_is_game_over;
  is_checkmate := s_is_checkmate;
  is_stalemate := s_is_stalemate;
  is_insufficient_material := s_is_insufficient_material;
  is_check := s_is_check;
  is_capture := s_is_capture;
  pieces := s_pieces;
  piece_at := s_piece_at;
  piece_map := s_piece_map;
  attackers := s_attackers;
  is_attacked_by := s_is_attacked_by;
  king := s_king;
  parse_san := s_parse_san
|}.

(** A board standing at the root of a scripted tree. *)
Definition board_at (n : Node) : Board Hidden :=
  {| turn := side (facts_of n); move_stack := []; hidden := (n, []) |}.

End Script.

(** *** A back-rank position

    White (the agent): Kg1, Rd1, pawns f2 g2 h2.  Black: Kg8, Re8, Bc8, pawns
    d7 f7 g7 h7.  White to move.  The script follows two candidate moves:
    [Rxd7], which wins a pawn and allows [Re1#], and the quiet [h3]. *)

Module BackRank.
Import Script.

Definition wK := mkPiece KING WHITE.
Definition wR := mkPiece ROOK WHITE.
Definition wP := mkPiece PAWN WHITE.
Definition bK := mkPiece KING BLACK.
Definition bR := mkPiece ROOK BLACK.
Definition bB := mkPiece BISHOP BLACK.
Definition bP := mkPiece PAWN BLACK.

Definition d1 : Square := 3%Z.
Definition e1 : Square := 4%Z.
Definition f1 : Square := 5%Z.
Definition g1 : Square := 6%Z.
Definition h1 : Square := 7%Z.
Definition f2 : Square := 13%Z.
Definition g2 : Square := 14%Z.
Definition h2 : Square := 15%Z.
Definition g3 : Square := 22%Z.
Definition h3 : Square := 23%Z.
Definition d6 : Square := 43%Z.
Definition d7 : Square := 51%Z.
Definition f7 : Square := 53%Z.
Definition g7 : Square := 54%Z.
Definition h7 : Square := 55%Z.
Definition c8 : Square := 58%Z.
Definition e8 : Square := 60%Z.
Definition f8 : Square := 61%Z.
Definition g8 : Square := 62%Z.
Definition h8 : Square := 63%Z.

Definition mv (a b : Square) : Move := mkMove a b None.

Definition Rxd7 := mv d1 d7.
Definition h2h3 := mv h2 h3.
Definition Re1 := mv e8 e1.
Definition Bxd7 := mv c8 d7.
Definition Kf8 := mv g8 f8.
Definition Kh8 := mv g8 h8.
Definition d7d6 := mv d7 d6.

(** A position nothing is scripted for: the tree ends there. *)
Definition unscripted : Node :=
  node (mkFacts WHITE false false false [] [] [] []) [].

Definition ends (moves : list Move) : list (Move * Node) :=
  map (fun move => (move, unscripted)) moves.

Definition white_pawns := [(f2, wP); (g2, wP); (h2, wP)].
Definition black_pawns := [(f7, bP); (g7, bP); (h7, bP)].

(** After 1.Rxd7 Re1#. *)
Definition mated : Node :=
  node (mkFacts WHITE false true false
          ([(e1, bR); (g1, wK)] ++ white_pawns ++ [(d7, wR)] ++ black_pawns
           ++ [(c8, bB); (g8, bK)])
          [] [mv e1 d1; mv c8 d7; mv g8 f8] [])
       [].

(** After 1.Rxd7 Bxd7. *)
Definition recaptured : Node :=
  node (mkFacts WHITE false false true
          ([(g1, wK)] ++ white_pawns ++ [(d7, bB)] ++ black_pawns
           ++ [(e8, bR); (g8, bK)])
          [] [Re1; Kf8; Kh8] [])
       (ends [h2h3; mv g2 g3; mv g1 f1; mv g1 h1]).

(** After 1.Rxd7 and a king move. *)
Definition rook_on_seventh (king_sq : Square) : Node :=
  node (mkFacts WHITE false false false
          ([(g1, wK)] ++ white_pawns ++ [(d7, wR)] ++ black_pawns
           ++ [(c8, bB); (e8, bR); (king_sq, bK)])
          [] [Re1; Bxd7] [])
       (ends [h2h3; mv d7 f7; mv g1 f1; mv g1 h1]).

(** After 1.Rxd7. *)
Definition after_Rxd7 : Node :=
  node (mkFacts BLACK false false true
          ([(g1, wK)] ++ white_pawns ++ [(d7, wR)] ++ black_pawns
           ++ [(c8, bB); (e8, bR); (g8, bK)])
          [] [h2h3; mv d7 f7; mv g1 f1; mv g1 h1]
          [("Re1#"%string, Re1); ("Bxd7"%string, Bxd7)])
       [(Re1, mated); (Bxd7, recaptured);
        (Kf8, rook_on_seventh f8); (Kh8, rook_on_seventh h8)].

(** After 1.h3 and a black move that keeps the pieces where they are,
    except for the one named. *)
Definition luft (black_rook black_king black_pawn : Square) (in_check : bool) : Node :=
  node (mkFacts WHITE false in_check false
          ([(d1, wR); (g1, wK); (f2, wP); (g2, wP); (h3, wP)]
           ++ [(black_pawn, bP)] ++ black_pawns
           ++ [(c8, bB); (black_rook, bR); (black_king, bK)])
          [] [Kf8; Kh8] [])
       (ends [mv d1 e1; mv g1 h2]).

(** After 1.h3. *)
Definition after_h3 : Node :=
  node (mkFacts BLACK false false false
          ([(d1, wR); (g1, wK); (f2, wP); (g2, wP); (h3, wP); (d7, bP)]
           ++ black_pawns ++ [(c8, bB); (e8, bR); (g8, bK)])
          [] [Rxd7; mv g1 h2; mv g1 h1; mv d1 e1] [])
       [(Re1, luft e1 g8 d7 true); (Kf8, luft e8 f8 d7 false);
        (Kh8, luft e8 h8 d7 false); (d7d6, luft e8 g8 d6 false)].

Definition root : Node :=
  node (mkFacts WHITE false false false
          ([(d1, wR); (g1, wK)] ++ white_pawns ++ [(d7, bP)] ++ black_pawns
           ++ [(c8, bB); (e8, bR); (g8, bK)])
          [] [Re1; Kf8; Kh8; d7d6]
          [("Rxd7"%string, Rxd7); ("h3"%string, h2h3)])
       [(Rxd7, after_Rxd7); (h2h3, after_h3)].

Definition start : Board Hidden := board_at root.

(** White, with nothing scripted. *)
Definition white : ChessAgent := mkAgent WHITE [] [] 0 0 0.

(** A clock that stands at 0 for the first [n] readings and at 100 after. *)
Definition clock_until (n : nat) (t : nat) : Q := if (t <? n)%nat then 0 else 100.

(** A clock that never advances. *)
Definition still_clock (t : nat) : Q := 0.

(** Black, to play Magnus' move [Re1#] after 1.Rxd7. *)
Definition black_with_history : ChessAgent :=
  mkAgent BLACK [] ["Re1#"%string] 0 0 0.

(** White, whose one-move test opening has been played, and whose next
    Magnus move [Rxd7] is legal on the board; and White, whose next opening
    move [e4] cannot be played on the board. *)
Definition white_past_opening : ChessAgent :=
  mkAgent WHITE ["h3"%string] ["Rxd7"%string] 1 0 0.

Definition white_with_unplayable_opening : ChessAgent :=
  mkAgent WHITE ["e4"%string] ["Rxd7"%string] 0 0 0.

End BackRank.

(** *** The initial position of chess

    The answers of the rules engine at [chess.Board()]: the thirty-two pieces
    on their squares, the twenty moves of either side, no check, and for every
    piece the pieces of its own side bearing on its square.  No piece bears
    on a square of the other side or on a central square. *)

Module Initial.
Import Script.
Local Open Scope Z_scope.

Definition back_rank : list PieceType :=
  [ROOK; KNIGHT; BISHOP; QUEEN; KING; BISHOP; KNIGHT; ROOK].

Definition rank_of (rank : Z) (c : Color) (kinds : list PieceType)
    : list (Square * Piece) :=
  map (fun '(file, kind) => (square file rank, mkPiece kind c))
      (combine (range 0 8) kinds).

Definition pieces_at_start : list (Square * Piece) :=
  rank_of 0 WHITE back_rank ++ rank_of 1 WHITE (repeat PAWN 8%nat)
  ++ rank_of 6 BLACK (repeat PAWN 8%nat) ++ rank_of 7 BLACK back_rank.

(** Pawn steps and knight jumps from the ranks [pawns] and [home], moving by
    [dir] ranks at a time. *)
Definition first_moves (pawns home dir : Z) : list Move :=
  flat_map (fun file =>
              [mkMove (square file pawns) (square file (pawns + dir)) None;
               mkMove (square file pawns) (square file (pawns + 2 * dir)) None])
           (range 0 8)
  ++ [mkMove (square 1 home) (square 0 (home + 2 * dir)) None;
      mkMove (square 1 home) (square 2 (home + 2 * dir)) None;
      mkMove (square 6 home) (square 5 (home + 2 * dir)) None;
      mkMove (square 6 home) (square 7 (home + 2 * dir)) None].

(** The defenders of each piece of the side whose back rank is [home] and
    whose pawns stand on [pawns]: files a to h are 0 to 7. *)
Definition defenders (c : Color) (home pawns : Z) : list (Color * Square * list Square) :=
  let h file := square file home in
  let p file := square file pawns in
  [((c, h 1), [h 0]); ((c, h 2), [h 3]); ((c, h 3), [h 4]); ((c, h 4), [h 3]);
   ((c, h 5), [h 4]); ((c, h 6), [h 7]);
   ((c, p 0), [h 0]); ((c, p 1), [h 2]); ((c, p 2), [h 3]);
   ((c, p 3), [h 1; h 2; h 3; h 4]); ((c, p 4), [h 3; h 4; h 5; h 6]);
   ((c, p 5), [h 4]); ((c, p 6), [h 5]); ((c, p 7), [h 7])].

Definition unscripted : Node :=
  node (mkFacts BLACK false false false [] [] [] []) [].

Definition position : Node :=
  node (mkFacts WHITE false false false pieces_at_start
          (defenders WHITE 0 1 ++ defenders BLACK 7 6)
          (first_moves 6 7 (-1))
          [("e4"%string, mkMove (square 4 1) (square 4 3) None);
           ("d4"%string, mkMove (square 3 1) (square 3 3) None);
           ("Nf3"%string, mkMove (square 6 0) (square 5 2) None)])
       (map (fun move => (move, unscripted)) (first_moves 1 0 1)).

Definition board : Board Hidden := board_at position.

Definition white : ChessAgent := mkAgent WHITE [] [] 0%nat 0%nat 0%nat.

End Initial.


(** ** Further notions the properties are stated with *)

Section Notions.

Context {Hidden : Type} {lib : ChessLib Hidden}.

Local Abbreviation Board := (Board Hidden).

(** [reachable b n b']: position [b'] is reached from [b] by at most [n]
    legal moves, one after the other. *)
Inductive reachable : Board -> nat -> Board -> Prop :=
| reach_here (b : Board) (n : nat) : reachable b n b
| reach_step (b : Board) (n : nat) (move : Move) (b' : Board) :
    In move (legal_moves b) -> reachable (push b move) n b' ->
    reachable b (S n) b'.

(** The number of nodes of the full tree of [depth] plies below [b] at which
    the clock is read: the nodes at a positive depth where the game is not
    over. *)
Fixpoint inner_nodes (b : Board) (depth : nat) : nat :=
  match depth with
  | O => O
  | S depth' =>
      if is_game_over b then O
      else S (list_sum (map (fun move => inner_nodes (push b move) depth')
                            (legal_moves b)))
  end.

(** Both indices of the agent point into their lists, or just past them. *)
Definition indices_in_range (self : ChessAgent) : Prop :=
  (opening_moves_played self <= length (test_opening_moves self))%nat
  /\ (magnus_moves_played self <= length (magnus_moves self))%nat.

(** The same agent playing the other colour. *)
Definition opponent (self : ChessAgent) : ChessAgent :=
  {| color := negb (color self);
     test_opening_moves := test_opening_moves self;
     magnus_moves := magnus_moves self;
     opening_moves_played := opening_moves_played self;
     magnus_moves_played := magnus_moves_played self;
     failed_moves_count := failed_moves_count self |}.



(** The square lies on the rim of the board. *)
Definition on_rim (sq : Square) : bool :=
  Z.eqb (square_file sq) 0 || Z.eqb (square_file sq) 7
  || Z.eqb (square_rank sq) 0 || Z.eqb (square_rank sq) 7.

End Notions.

(** *** Notions for the move book *)

Definition first_char (s : string) : option ascii :=
  match s with
  | String c _ => Some c
  | EmptyString => None
  end.

Fixpoint last_char (s : string) : option ascii :=
  match s with
  | EmptyString => None
  | String c EmptyString => Some c
  | String _ rest => last_char rest
  end.

(** No character of [s] is whitespace. *)
Definition no_space (s : string) : Prop :=
  forallb (fun c => negb (isspace c)) (list_ascii_of_string s) = true.

(** What can be said of every move the opening book hands out: it holds no
    whitespace, neither starts nor ends with a full stop or a comma, is not
    a number and is not the word etc, in any case of its letters. *)
Definition tidy (token : string) : Prop :=
  no_space token
  /\ (forall c, first_char token = Some c -> one_of ".," c = false)
  /\ (forall c, last_char token = Some c -> one_of ".," c = false)
  /\ isdigit token = false
  /\ lower token <> "etc"%string.

(** [xs] and [ys] in turn, starting with [xs]. *)
Fixpoint interleave {A : Type} (xs ys : list A) : list A :=
  match xs, ys with
  | x :: xs', y :: ys' => x :: y :: interleave xs' ys'
  | _, [] => xs
  | [], _ => ys
  end.

(** The last row of the frame that carries the code. *)
Fixpoint last_row (rows : list EcoRow) (code : string) : option EcoRow :=
  match rows with
  | [] => None
  | row :: rest =>
      match last_row rest code with
      | Some later => Some later
      | None => if String.eqb (eco row) code then Some row else None
      end
  end.

(** *** Notions for the life of an agent *)

Section Life.

Context {Hidden : Type} {lib : ChessLib Hidden}.
Variable clock : nat -> Q.

(** [later self self']: [self'] is the agent [self] after some calls of
    [select_move], on whatever boards, budgets and readings of the clock. *)
Inductive later (self : ChessAgent) : ChessAgent -> Prop :=
| later_now : later self self
| later_call (self' self'' : ChessAgent) (fuel : nat) (b b' : Board Hidden)
    (time_limit : Q) (t t' : nat) (r : option Move) :
    later self self' ->
    select_move clock fuel self' b time_limit t = Some (r, self'', b', t') ->
    later self self''.

End Life.

(** *** Notions for the match *)

Section Sides.

Context {Hidden : Type}.

(** The agent whose turn it is in the match, and the time on its clock. *)
Definition agent_to_move (self : Match Hidden) : ChessAgent :=
  if Bool.eqb (turn (board self)) WHITE then white_agent self else black_agent self.

Definition time_to_move (self : Match Hidden) : Q :=
  if Bool.eqb (turn (board self)) WHITE then white_clock self else black_clock self.

End Sides.

(** *** The frames of the repository's tests *)

Module TestData.

Definition test_moves_white : list (option string) :=
  [Some "e4 e5 Nf3 Nc6 Bb5"%string; Some "d4 d5 c4 e6 Nc3"%string].

Definition test_moves_black : list (option string) :=
  [Some "e4 c5 Nf3 d6 d4"%string; Some "e4 e6 d4 d5 Nc3"%string].

Definition test_openings : list EcoRow :=
  [mkEcoRow "A01" "1. b3 e5 2. Bb2"; mkEcoRow "B20" "1. e4 c5"].

Definition move_book : MoveBook :=
  MoveBook_init test_moves_white test_moves_black test_openings.

End TestData.

(** *** A book and a match for the back-rank position *)

Module Fixture.
Import Script.

(** The openings of the repository's tests, and a third row that carries
    the first code again. *)
Definition eco_rows : list EcoRow :=
  [mkEcoRow "A01" "1. b3 e5 2. Bb2"; mkEcoRow "B20" "1. e4 c5";
   mkEcoRow "A01" "1. b4, e5 etc."].

(** One game, the same for both colours: 1.Rxd7 Re1#. *)
Definition games : list (option string) := [Some "Rxd7 Re1#"%string].

Definition book : MoveBook := MoveBook_init games games eco_rows.

(** Black as [ChessAgent(chess.BLACK, book)] makes it. *)
Definition black : ChessAgent := mkAgent BLACK [] ["Re1#"%string] 0 0 0.

(** The position after 1.Rxd7, Black to move. *)
Definition after_Rxd7 : Board Hidden := push BackRank.start BackRank.Rxd7.

(** The result of a game, as far as the scripted positions go. *)
Definition result (b : Board Hidden) : string :=
  if is_checkmate b then (if turn b then "0-1"%string else "1-0"%string)
  else "*"%string.

(** A match taken up after 1.Rxd7, and one at the root with White to
    search. *)
Definition mating_match : Match Hidden :=
  Match_init after_Rxd7 BackRank.white black.

Definition searching_match : Match Hidden :=
  Match_init BackRank.start BackRank.white black.

(** The match after White's first move, found by search while the clock
    [BackRank.clock_until 6] runs. *)
Definition after_search : Match Hidden :=
  match play_turn (BackRank.clock_until 6) 10 searching_match 0 with
  | Some (Played self _) => self
  | _ => searching_match
  end.

(** The match after Black's reply from its book, while the clock
    [BackRank.clock_until 1] runs. *)
Definition after_reply : Match Hidden :=
  match play_turn (BackRank.clock_until 1) 0 mating_match 0 with
  | Some (Played self _) => self
  | _ => mating_match
  end.

End Fixture.
(** ** Properties *)

(** *** Order facts on numbers and search values *)

Lemma Qltb_lt (x y : Q) : Qltb x y = true <-> x < y.
Proof.
  unfold Qltb. rewrite negb_true_iff. split; intro H.
  - apply Qnot_le_lt. intro L. apply Qle_bool_iff in L. congruence.
  - destruct (Qle_bool y x) eqn:E; [|reflexivity].
    apply Qle_bool_iff in E. exfalso. apply (Qlt_not_le _ _ H E).
Qed.

Lemma Qltb_ge (x y : Q) : Qltb x y = false <-> y <= x.
Proof.
  unfold Qltb. rewrite negb_false_iff. apply Qle_bool_iff.
Qed.

(** Turns every comparison of search values in the context and the goal
    into a fact about rationals, one case of the values at a time. *)
Ltac score_facts :=
  repeat match goal with
  | H : Qltb _ _ = true |- _ => apply Qltb_lt in H
  | H : Qltb _ _ = false |- _ => apply Qltb_ge in H
  | |- Qltb _ _ = true => apply Qltb_lt
  | |- Qltb _ _ = false => apply Qltb_ge
  end.

Ltac score_cases :=
  unfold score_geb, score_max, score_min in *;
  repeat match goal with
  | s : Score |- _ => destruct s
  end;
  simpl in *; try discriminate; try reflexivity; try congruence;
  score_facts; try lra.

Lemma score_ltb_irrefl (a : Score) : score_ltb a a = false.
Proof. score_cases. Qed.

Lemma score_ltb_trans (a b c : Score) :
  score_ltb a b = true -> score_ltb b c = true -> score_ltb a c = true.
Proof. intros; score_cases. Qed.

Lemma score_ltb_le_trans (a b c : Score) :
  score_ltb a b = true -> score_ltb c b = false -> score_ltb a c = true.
Proof. intros; score_cases. Qed.

Lemma score_le_ltb_trans (a b c : Score) :
  score_ltb b a = false -> score_ltb b c = true -> score_ltb a c = true.
Proof. intros; score_cases. Qed.

Lemma score_le_trans (a b c : Score) :
  score_ltb b a = false -> score_ltb c b = false -> score_ltb c a = false.
Proof. intros; score_cases. Qed.

Lemma score_ltb_asym (a b : Score) :
  score_ltb a b = true -> score_ltb b a = false.
Proof. intros; score_cases. Qed.

Lemma score_top (a : Score) : score_ltb a PosInf = false -> a = PosInf.
Proof. intros; score_cases. Qed.

Lemma score_bottom (a : Score) : score_ltb NegInf a = false -> a = NegInf.
Proof. intros; score_cases. Qed.

Section Properties.

Context {Hidden : Type} {lib : ChessLib Hidden}.
Variable clock : nat -> Q.

Local Abbreviation Board := (Board Hidden).
Local Abbreviation Outcome := (@Outcome Hidden).

(** *** The evaluator leaves the board as it found it *)

Lemma set_turn_restore (b : Board) (c : Color) :
  set_turn (set_turn b c) (turn b) = b.
Proof. destruct b; reflexivity. Qed.

Lemma mobility_board (b : Board) (c : Color) : snd (mobility b c) = b.
Proof. unfold mobility; simpl. apply set_turn_restore. Qed.

Lemma mobility_eq (b : Board) (c : Color) :
  mobility b c = (len (legal_moves (set_turn b c)), b).
Proof. unfold mobility. now rewrite set_turn_restore. Qed.

Lemma evaluate_board (self : ChessAgent) (b : Board) (depth : Z) :
  snd (evaluate self b depth) = b.
Proof.
  unfold evaluate.
  destruct (is_checkmate b); [reflexivity|].
  destruct (is_stalemate b || is_insufficient_material b); [reflexivity|].
  rewrite !mobility_eq. reflexivity.
Qed.

Lemma leaf_eq (self : ChessAgent) (b : Board) (t : nat) :
  leaf self b t = (None, Fin (static_eval self b), b, t).
Proof.
  unfold leaf, static_eval.
  pose proof (evaluate_board self b 0) as E.
  destruct (evaluate self b 0) as [score b']. simpl in *. now subst.
Qed.

(** *** The search leaves the board as it found it *)

Section Frame.

(** What the rules engine promises of [push] and [pop]. *)
Hypothesis pop_push :
  forall (b : Board) (move : Move), In move (legal_moves b) -> pop (push b move) = b.

Lemma maximizing_loop_board
    (search : Board -> Score -> Score -> nat -> Outcome) (b : Board) :
  (forall b' alpha beta t, board_of (search b' alpha beta t) = b') ->
  forall moves, (forall move, In move moves -> pop (push b move) = b) ->
  forall value best_move alpha beta t,
    board_of (maximizing_loop search moves value best_move alpha beta b t) = b.
Proof.
  intros Hs moves. induction moves as [|move rest IH]; intros Hp value best alpha beta t.
  - reflexivity.
  - simpl. specialize (Hs (push b move) alpha beta t).
    destruct (search (push b move) alpha beta t) as [[[m score] b'] t'].
    unfold board_of in Hs; simpl in Hs; subst b'.
    rewrite (Hp move (or_introl eq_refl)).
    destruct (score_ltb value score);
      match goal with |- context [if ?c then _ else _] => destruct c end;
      try reflexivity; apply IH; intros; apply Hp; now right.
Qed.

Lemma minimizing_loop_board
    (search : Board -> Score -> Score -> nat -> Outcome) (b : Board) :
  (forall b' alpha beta t, board_of (search b' alpha beta t) = b') ->
  forall moves, (forall move, In move moves -> pop (push b move) = b) ->
  forall value best_move alpha beta t,
    board_of (minimizing_loop search moves value best_move alpha beta b t) = b.
Proof.
  intros Hs moves. induction moves as [|move rest IH]; intros Hp value best alpha beta t.
  - reflexivity.
  - simpl. specialize (Hs (push b move) alpha beta t).
    destruct (search (push b move) alpha beta t) as [[[m score] b'] t'].
    unfold board_of in Hs; simpl in Hs; subst b'.
    rewrite (Hp move (or_introl eq_refl)).
    destruct (score_ltb score value);
      match goal with |- context [if ?c then _ else _] => destruct c end;
      try reflexivity; apply IH; intros; apply Hp; now right.
Qed.

Lemma search_board (self : ChessAgent) (depth : nat) :
  forall (b : Board) (alpha beta : Score) (player : Color)
         (start_time time_limit : Q) (t : nat),
    board_of (alpha_beta_search clock self b depth alpha beta player
                                start_time time_limit t) = b.
Proof.
  induction depth as [|depth IH]; intros b alpha beta player start_time time_limit t.
  - simpl. now rewrite leaf_eq.
  - simpl.
    destruct (is_game_over b); [now rewrite leaf_eq|].
    destruct (Qltb time_limit (clock t - start_time)); [now rewrite leaf_eq|].
    destruct (Bool.eqb (turn b) player).
    + apply maximizing_loop_board; [intros; apply IH | intros; now apply pop_push].
    + apply minimizing_loop_board; [intros; apply IH | intros; now apply pop_push].
Qed.

(** C6.  Whatever the exit path (a leaf at depth 0, at a finished game or
    past the deadline; a loop that ran to its end or was cut by [break]),
    the board a call of [alpha_beta_search] leaves behind is the board it was
    given: turn, move stack and hidden state.  The same holds of every call
    of the evaluator and of its mobility count, which assigns the turn and
    assigns it back. *)
Theorem search_leaves_position_unchanged (self : ChessAgent) (b : Board)
    (depth : nat) (alpha beta : Score) (player : Color)
    (start_time time_limit : Q) (t : nat) :
  board_of (alpha_beta_search clock self b depth alpha beta player
                              start_time time_limit t) = b
  /\ snd (evaluate self b 0) = b
  /\ forall c : Color, snd (mobility b c) = b.
Proof.
  split; [apply search_board|].
  split; [apply evaluate_board | intro c; apply mobility_board].
Qed.

End Frame.

(** *** When the search returns no move *)

Section NoMove.

(** A position without legal moves is checkmate or stalemate, so the game is
    over there. *)
Hypothesis game_over_without_moves :
  forall b : Board, is_game_over b = false -> legal_moves b <> [].

Lemma maximizing_loop_keeps
    (search : Board -> Score -> Score -> nat -> Outcome) :
  (forall b alpha beta t, exists x, score_of (search b alpha beta t) = Fin x) ->
  forall moves value best_move alpha beta b t,
    found value best_move ->
    let o := maximizing_loop search moves value best_move alpha beta b t in
    found (score_of o) (move_of o).
Proof.
  intros Hs moves. induction moves as [|move rest IH]; intros value best alpha beta b t F.
  - exact F.
  - simpl. destruct (Hs (push b move) alpha beta t) as [x Hx].
    destruct (search (push b move) alpha beta t) as [[[m score] b'] t'].
    unfold score_of in Hx; simpl in Hx; subst score.
    assert (F' : found (Fin x) (Some move)) by (split; [now exists x | discriminate]).
    destruct (score_ltb value (Fin x));
      match goal with |- context [if ?c then _ else _] => destruct c end;
      try assumption; now apply IH.
Qed.

Lemma minimizing_loop_keeps
    (search : Board -> Score -> Score -> nat -> Outcome) :
  (forall b alpha beta t, exists x, score_of (search b alpha beta t) = Fin x) ->
  forall moves value best_move alpha beta b t,
    found value best_move ->
    let o := minimizing_loop search moves value best_move alpha beta b t in
    found (score_of o) (move_of o).
Proof.
  intros Hs moves. induction moves as [|move rest IH]; intros value best alpha beta b t F.
  - exact F.
  - simpl. destruct (Hs (push b move) alpha beta t) as [x Hx].
    destruct (search (push b move) alpha beta t) as [[[m score] b'] t'].
    unfold score_of in Hx; simpl in Hx; subst score.
    assert (F' : found (Fin x) (Some move)) by (split; [now exists x | discriminate]).
    destruct (score_ltb (Fin x) value);
      match goal with |- context [if ?c then _ else _] => destruct c end;
      try assumption; now apply IH.
Qed.

(** The first child always improves on the initial bound. *)
Lemma maximizing_loop_finds
    (search : Board -> Score -> Score -> nat -> Outcome) :
  (forall b alpha beta t, exists x, score_of (search b alpha beta t) = Fin x) ->
  forall moves alpha beta b t, moves <> [] ->
    let o := maximizing_loop search moves NegInf None alpha beta b t in
    found (score_of o) (move_of o).
Proof.
  intros Hs [|move rest] alpha beta b t Hne; [congruence|].
  simpl. destruct (Hs (push b move) alpha beta t) as [x Hx].
  destruct (search (push b move) alpha beta t) as [[[m score] b'] t'].
  unfold score_of in Hx; simpl in Hx; subst score. simpl.
  assert (F' : found (Fin x) (Some move)) by (split; [now exists x | discriminate]).
  match goal with |- context [if ?c then _ else _] => destruct c end;
    [assumption | now apply maximizing_loop_keeps].
Qed.

Lemma minimizing_loop_finds
    (search : Board -> Score -> Score -> nat -> Outcome) :
  (forall b alpha beta t, exists x, score_of (search b alpha beta t) = Fin x) ->
  forall moves alpha beta b t, moves <> [] ->
    let o := minimizing_loop search moves PosInf None alpha beta b t in
    found (score_of o) (move_of o).
Proof.
  intros Hs [|move rest] alpha beta b t Hne; [congruence|].
  simpl. destruct (Hs (push b move) alpha beta t) as [x Hx].
  destruct (search (push b move) alpha beta t) as [[[m score] b'] t'].
  unfold score_of in Hx; simpl in Hx; subst score. simpl.
  assert (F' : found (Fin x) (Some move)) by (split; [now exists x | discriminate]).
  match goal with |- context [if ?c then _ else _] => destruct c end;
    [assumption | now apply minimizing_loop_keeps].
Qed.

Lemma search_score_finite (self : ChessAgent) (depth : nat) :
  forall b alpha beta player start_time time_limit t,
  exists x,
    score_of (alpha_beta_search clock self b depth alpha beta player
                                start_time time_limit t) = Fin x.
Proof.
  induction depth as [|depth IH]; intros b alpha beta player start_time time_limit t.
  - simpl. rewrite leaf_eq. now eexists.
  - simpl.
    destruct (is_game_over b) eqn:G; [rewrite leaf_eq; now eexists|].
    destruct (Qltb time_limit (clock t - start_time)); [rewrite leaf_eq; now eexists|].
    pose proof (game_over_without_moves b G) as Hne.
    destruct (Bool.eqb (turn b) player).
    + apply (maximizing_loop_finds _ (fun b a be t => IH b a be player start_time time_limit t)).
      exact Hne.
    + apply (minimizing_loop_finds _ (fun b a be t => IH b a be player start_time time_limit t)).
      exact Hne.
Qed.

(** C10.  The move component of a search result is [None] exactly in the
    leaf cases: depth 0, a finished game, or a deadline already exceeded when
    the node is entered.  In every other call the first enumerated child
    improves on the initial infinite bound, so a move is returned; this holds
    for every window, [alpha < beta] or not. *)
Theorem search_move_none_iff_leaf (self : ChessAgent) (b : Board) (depth : nat)
    (alpha beta : Score) (player : Color) (start_time time_limit : Q) (t : nat) :
  move_of (alpha_beta_search clock self b depth alpha beta player
                             start_time time_limit t) = None
  <-> is_leaf_call clock b depth start_time time_limit t.
Proof.
  unfold is_leaf_call. destruct depth as [|depth].
  - simpl. rewrite leaf_eq. split; [now left | reflexivity].
  - simpl.
    destruct (is_game_over b) eqn:G.
    { rewrite leaf_eq. split; [now right; left | reflexivity]. }
    destruct (Qltb time_limit (clock t - start_time)) eqn:E.
    { rewrite leaf_eq. split; [now right; right | reflexivity]. }
    pose proof (game_over_without_moves b G) as Hne.
    assert (Hs : forall b' a be t', exists x,
               score_of (alpha_beta_search clock self b' depth a be player
                                           start_time time_limit t') = Fin x)
      by (intros; apply search_score_finite).
    split.
    + intro N. exfalso.
      destruct (Bool.eqb (turn b) player).
      * destruct (maximizing_loop_finds _ Hs alpha beta b (S t) Hne) as [_ F]. now apply F.
      * destruct (minimizing_loop_finds _ Hs alpha beta b (S t) Hne) as [_ F]. now apply F.
    + intros [D | [D | D]]; discriminate.
Qed.

End NoMove.

(** *** One-ply scans *)

Lemma scan_max_spec (f : Move -> Q) (moves : list Move) :
  forall value best_move,
    (scan_max f moves value best_move = (best_move, value)
     /\ forall x, In x moves -> score_ltb value (Fin (f x)) = false)
    \/ exists m, scan_max f moves value best_move = (Some m, Fin (f m))
                 /\ score_ltb value (Fin (f m)) = true
                 /\ first_highest f moves m.
Proof.
  induction moves as [|move rest IH]; intros value best.
  - left. split; [reflexivity | intros x []].
  - cbn [scan_max]. destruct (score_ltb value (Fin (f move))) eqn:E.
    + right. destruct (IH (Fin (f move)) (Some move)) as [[R A] | [m [R [L [l1 [l2 [S [B A]]]]]]]].
      * exists move. split; [exact R|]. split; [exact E|].
        exists [], rest. split; [reflexivity|]. split; [intros x []|].
        intros x Hx. specialize (A x Hx). simpl in A. now apply Qltb_ge in A.
      * exists m. split; [exact R|]. split; [now apply (score_ltb_trans _ _ _ E)|].
        exists (move :: l1), l2. split; [simpl; now rewrite S|]. split; [|exact A].
        intros x [<- | Hx]; [simpl in L; now apply Qltb_lt in L | now apply B].
    + destruct (IH value best) as [[R A] | [m [R [L [l1 [l2 [S [B A]]]]]]]].
      * left. split; [exact R|]. intros x [<- | Hx]; [exact E | now apply A].
      * right. exists m. split; [exact R|]. split; [exact L|].
        exists (move :: l1), l2. split; [simpl; now rewrite S|]. split; [|exact A].
        intros x [<- | Hx]; [|now apply B].
        pose proof (score_le_ltb_trans _ _ _ E L) as C. simpl in C. now apply Qltb_lt in C.
Qed.

Lemma scan_min_spec (f : Move -> Q) (moves : list Move) :
  forall value best_move,
    (scan_min f moves value best_move = (best_move, value)
     /\ forall x, In x moves -> score_ltb (Fin (f x)) value = false)
    \/ exists m, scan_min f moves value best_move = (Some m, Fin (f m))
                 /\ score_ltb (Fin (f m)) value = true
                 /\ first_lowest f moves m.
Proof.
  induction moves as [|move rest IH]; intros value best.
  - left. split; [reflexivity | intros x []].
  - cbn [scan_min]. destruct (score_ltb (Fin (f move)) value) eqn:E.
    + right. destruct (IH (Fin (f move)) (Some move)) as [[R A] | [m [R [L [l1 [l2 [S [B A]]]]]]]].
      * exists move. split; [exact R|]. split; [exact E|].
        exists [], rest. split; [reflexivity|]. split; [intros x []|].
        intros x Hx. specialize (A x Hx). simpl in A. now apply Qltb_ge in A.
      * exists m. split; [exact R|]. split; [now apply (score_ltb_trans _ _ _ L)|].
        exists (move :: l1), l2. split; [simpl; now rewrite S|]. split; [|exact A].
        intros x [<- | Hx]; [simpl in L; now apply Qltb_lt in L | now apply B].
    + destruct (IH value best) as [[R A] | [m [R [L [l1 [l2 [S [B A]]]]]]]].
      * left. split; [exact R|]. intros x [<- | Hx]; [exact E | now apply A].
      * right. exists m. split; [exact R|]. split; [exact L|].
        exists (move :: l1), l2. split; [simpl; now rewrite S|]. split; [|exact A].
        intros x [<- | Hx]; [|now apply B].
        pose proof (score_ltb_le_trans _ _ _ L E) as C. simpl in C. now apply Qltb_lt in C.
Qed.

Lemma first_highest_max (f : Move -> Q) (moves : list Move) (m : Move) :
  first_highest f moves m ->
  In m moves /\ forall x, In x moves -> f x <= f m.
Proof.
  intros [l1 [l2 [-> [B A]]]]. split.
  - apply in_or_app. right. now left.
  - intros x Hx. apply in_app_or in Hx. destruct Hx as [Hx | [<- | Hx]].
    + apply Qlt_le_weak. now apply B.
    + apply Qle_refl.
    + now apply A.
Qed.

Lemma first_lowest_min (f : Move -> Q) (moves : list Move) (m : Move) :
  first_lowest f moves m ->
  In m moves /\ forall x, In x moves -> f m <= f x.
Proof.
  intros [l1 [l2 [-> [B A]]]]. split.
  - apply in_or_app. right. now left.
  - intros x Hx. apply in_app_or in Hx. destruct Hx as [Hx | [<- | Hx]].
    + apply Qlt_le_weak. now apply B.
    + apply Qle_refl.
    + now apply A.
Qed.

Section OnePly.

Hypothesis pop_push :
  forall (b : Board) (move : Move), In move (legal_moves b) -> pop (push b move) = b.

Lemma score_max_below_top (a v : Score) :
  score_ltb a PosInf = true -> score_ltb v PosInf = true ->
  score_ltb (score_max a v) PosInf = true.
Proof.
  intros Ha Hv. unfold score_max. now destruct (score_ltb a v).
Qed.

Lemma score_min_above_bottom (a v : Score) :
  score_ltb NegInf a = true -> score_ltb NegInf v = true ->
  score_ltb NegInf (score_min a v) = true.
Proof.
  intros Ha Hv. unfold score_min. now destruct (score_ltb v a).
Qed.

Lemma maximizing_loop_one_ply (self : ChessAgent) (b : Board) :
  forall moves, (forall move, In move moves -> pop (push b move) = b) ->
  forall value best_move alpha t,
    score_ltb alpha PosInf = true -> score_ltb value PosInf = true ->
    maximizing_loop
      (fun b' _ _ t' => leaf self b' t') moves value best_move alpha PosInf b t
    = (scan_max (fun move => static_eval self (push b move)) moves value best_move, b, t).
Proof.
  induction moves as [|move rest IH]; intros Hp value best alpha t Ha Hv.
  - reflexivity.
  - cbn [maximizing_loop scan_max].
    rewrite leaf_eq, (Hp move (or_introl eq_refl)).
    assert (Hp' : forall m, In m rest -> pop (push b m) = b) by (intros; apply Hp; now right).
    destruct (score_ltb value (Fin (static_eval self (push b move)))).
    + assert (L : score_ltb (score_max alpha (Fin (static_eval self (push b move))))
                            PosInf = true) by now apply score_max_below_top.
      unfold score_geb. rewrite L. now apply IH.
    + assert (L : score_ltb (score_max alpha value) PosInf = true)
        by now apply score_max_below_top.
      unfold score_geb. rewrite L. now apply IH.
Qed.

Lemma minimizing_loop_one_ply (self : ChessAgent) (b : Board) :
  forall moves, (forall move, In move moves -> pop (push b move) = b) ->
  forall value best_move beta t,
    score_ltb NegInf beta = true -> score_ltb NegInf value = true ->
    minimizing_loop
      (fun b' _ _ t' => leaf self b' t') moves value best_move NegInf beta b t
    = (scan_min (fun move => static_eval self (push b move)) moves value best_move, b, t).
Proof.
  induction moves as [|move rest IH]; intros Hp value best beta t Hb Hv.
  - reflexivity.
  - cbn [minimizing_loop scan_min].
    rewrite leaf_eq, (Hp move (or_introl eq_refl)).
    assert (Hp' : forall m, In m rest -> pop (push b m) = b) by (intros; apply Hp; now right).
    destruct (score_ltb (Fin (static_eval self (push b move))) value).
    + assert (L : score_ltb NegInf (score_min beta (Fin (static_eval self (push b move))))
                  = true) by now apply score_min_above_bottom.
      unfold score_geb. rewrite L. now apply IH.
    + assert (L : score_ltb NegInf (score_min beta value) = true)
        by now apply score_min_above_bottom.
      unfold score_geb. rewrite L. now apply IH.
Qed.

(** C9 (as amended).  At a position that is not over and whose deadline has
    not passed when the call is entered, a search of depth 1 over the full
    window returns a legal move and the static evaluation of the position it
    leads to; that evaluation is the highest among all legal moves when the
    side to move is [player], the lowest otherwise, and the move is the first
    to reach it. *)
Theorem depth_one_search_is_brute_force (self : ChessAgent) (b : Board)
    (player : Color) (start_time time_limit : Q) (t : nat) :
  legal_moves b <> [] ->
  is_game_over b = false ->
  Qltb time_limit (clock t - start_time) = false ->
  let child move := static_eval self (push b move) in
  let o := alpha_beta_search clock self b 1 NegInf PosInf player
                             start_time time_limit t in
  exists m,
    move_of o = Some m /\ In m (legal_moves b) /\ score_of o = Fin (child m)
    /\ if Bool.eqb (turn b) player
       then first_highest child (legal_moves b) m
            /\ forall x, In x (legal_moves b) -> child x <= child m
       else first_lowest child (legal_moves b) m
            /\ forall x, In x (legal_moves b) -> child m <= child x.
Proof.
  intros Hne G E child o. subst o. cbn [alpha_beta_search]. rewrite G, E.
  destruct (Bool.eqb (turn b) player).
  - rewrite maximizing_loop_one_ply by (try reflexivity; intros; now apply pop_push).
    destruct (scan_max_spec child (legal_moves b) NegInf None) as [[_ A] | [m [R [_ F]]]].
    + destruct (legal_moves b) as [|x l]; [congruence|].
      specialize (A x (or_introl eq_refl)). discriminate.
    + fold child. rewrite R. exists m.
      destruct (first_highest_max F) as [I M]. repeat split; assumption.
  - rewrite minimizing_loop_one_ply by (try reflexivity; intros; now apply pop_push).
    destruct (scan_min_spec child (legal_moves b) PosInf None) as [[_ A] | [m [R [_ F]]]].
    + destruct (legal_moves b) as [|x l]; [congruence|].
      specialize (A x (or_introl eq_refl)). discriminate.
    + fold child. rewrite R. exists m.
      destruct (first_lowest_min F) as [I M]. repeat split; assumption.
Qed.

(** *** The selector's loop and its fallback *)

Lemma iterative_deepening_board (self : ChessAgent) (fuel : nat) :
  forall b start_time time_limit depth best_move t r b' t',
    iterative_deepening clock fuel self b start_time time_limit depth best_move t
    = Some (r, b', t') ->
    b' = b.
Proof.
  induction fuel as [|fuel IH]; intros b start_time time_limit depth best t r b' t' H.
  - discriminate.
  - cbn [iterative_deepening] in H.
    destruct (Qltb (clock t - start_time) time_limit).
    + pose proof (search_board pop_push self depth b NegInf PosInf
                    (color self) start_time time_limit (S t)) as B.
      destruct (alpha_beta_search clock self b depth NegInf PosInf (color self)
                                  start_time time_limit (S t)) as [[[m s] b1] t1].
      unfold board_of in B; simpl in B; subst b1.
      now apply IH in H.
    + now inversion H.
Qed.

Lemma fallback_scan_eq (self : ChessAgent) (b : Board) :
  forall moves, (forall move, In move moves -> pop (push b move) = b) ->
  forall fallback_move best_eval,
    fallback_scan self moves fallback_move best_eval b
    = (fst (scan_max (fun move => static_eval self (push b move)) moves
                     best_eval fallback_move), b).
Proof.
  induction moves as [|move rest IH]; intros Hp fallback best_eval.
  - reflexivity.
  - cbn [fallback_scan scan_max].
    pose proof (evaluate_board self (push b move) 0) as B.
    unfold static_eval.
    destruct (evaluate self (push b move) 0) as [eval_val b1].
    simpl in B; subst b1. cbn [fst].
    rewrite (Hp move (or_introl eq_refl)).
    assert (Hp' : forall m, In m rest -> pop (push b m) = b) by (intros; apply Hp; now right).
    destruct (score_ltb best_eval (Fin eval_val)); now apply IH.
Qed.

(** C8 (as amended).  When no scripted source supplies a move and the
    deepening loop ends without one, [select_move] scans the legal moves once:
    at a position with at least one legal move it returns the first move, in
    enumeration order, whose resulting position has the strictly highest
    static evaluation, and leaves agent and board as they were. *)
Theorem fallback_returns_first_best (fuel : nat) (self : ChessAgent) (b : Board)
    (time_limit : Q) (t : nat) (b' : Board) (t' : nat) :
  book_move self b = None ->
  iterative_deepening clock fuel self b (clock t) time_limit 1 None (S t)
    = Some (None, b', t') ->
  legal_moves b <> [] ->
  exists m,
    select_move clock fuel self b time_limit t = Some (Some m, self, b, t')
    /\ first_highest (fun move => static_eval self (push b move)) (legal_moves b) m.
Proof.
  intros Hbook Hloop Hne. unfold select_move, search_phase. rewrite Hbook, Hloop.
  pose proof (iterative_deepening_board _ _ _ _ _ _ _ _ Hloop) as ->.
  rewrite fallback_scan_eq by (intros; now apply pop_push).
  destruct (scan_max_spec (fun move => static_eval self (push b move))
                          (legal_moves b) NegInf None) as [[_ A] | [m [R [_ F]]]].
  - destruct (legal_moves b) as [|x l]; [congruence|].
    specialize (A x (or_introl eq_refl)). discriminate.
  - rewrite R. exists m. split; [reflexivity | exact F].
Qed.

End OnePly.

(** *** The clock is only read forward *)

Lemma maximizing_loop_ticks
    (search : Board -> Score -> Score -> nat -> Outcome) :
  (forall b alpha beta t, (t <= ticks_of (search b alpha beta t))%nat) ->
  forall moves value best_move alpha beta b t,
    (t <= ticks_of (maximizing_loop search moves value best_move alpha beta b t))%nat.
Proof.
  intros Hs moves. induction moves as [|move rest IH]; intros value best alpha beta b t.
  - apply Nat.le_refl.
  - cbn [maximizing_loop]. specialize (Hs (push b move) alpha beta t).
    destruct (search (push b move) alpha beta t) as [[[m score] b'] t'].
    unfold ticks_of in Hs; simpl in Hs.
    destruct (score_ltb value score);
      match goal with |- context [if ?c then _ else _] => destruct c end;
      try exact Hs; eapply Nat.le_trans; try exact Hs; apply IH.
Qed.

Lemma minimizing_loop_ticks
    (search : Board -> Score -> Score -> nat -> Outcome) :
  (forall b alpha beta t, (t <= ticks_of (search b alpha beta t))%nat) ->
  forall moves value best_move alpha beta b t,
    (t <= ticks_of (minimizing_loop search moves value best_move alpha beta b t))%nat.
Proof.
  intros Hs moves. induction moves as [|move rest IH]; intros value best alpha beta b t.
  - apply Nat.le_refl.
  - cbn [minimizing_loop]. specialize (Hs (push b move) alpha beta t).
    destruct (search (push b move) alpha beta t) as [[[m score] b'] t'].
    unfold ticks_of in Hs; simpl in Hs.
    destruct (score_ltb score value);
      match goal with |- context [if ?c then _ else _] => destruct c end;
      try exact Hs; eapply Nat.le_trans; try exact Hs; apply IH.
Qed.

Lemma search_ticks (self : ChessAgent) (depth : nat) :
  forall b alpha beta player start_time time_limit t,
    (t <= ticks_of (alpha_beta_search clock self b depth alpha beta player
                                      start_time time_limit t))%nat.
Proof.
  induction depth as [|depth IH]; intros b alpha beta player start_time time_limit t.
  - cbn. rewrite leaf_eq. apply Nat.le_refl.
  - cbn [alpha_beta_search].
    destruct (is_game_over b); [rewrite leaf_eq; apply Nat.le_refl|].
    destruct (Qltb time_limit (clock t - start_time));
      [rewrite leaf_eq; cbn; apply Nat.le_succ_diag_r|].
    apply Nat.le_trans with (S t); [apply Nat.le_succ_diag_r|].
    destruct (Bool.eqb (turn b) player).
    + apply maximizing_loop_ticks. intros. apply IH.
    + apply minimizing_loop_ticks. intros. apply IH.
Qed.

(** *** Pruning does not change the result *)

Lemma within_refl (alpha beta v : Score) : within alpha beta v v.
Proof. repeat split; auto. Qed.

Lemma score_max_left (a v : Score) : score_ltb a v = false -> score_max a v = a.
Proof. intro H. unfold score_max. now rewrite H. Qed.

Lemma score_max_right (a v : Score) : score_ltb a v = true -> score_max a v = v.
Proof. intro H. unfold score_max. now rewrite H. Qed.

Lemma score_min_left (a v : Score) : score_ltb v a = false -> score_min a v = a.
Proof. intro H. unfold score_min. now rewrite H. Qed.

Lemma score_min_right (a v : Score) : score_ltb v a = true -> score_min a v = v.
Proof. intro H. unfold score_min. now rewrite H. Qed.

Lemma score_geb_lt (a b : Score) : score_ltb a b = true -> score_geb a b = false.
Proof. intro H. unfold score_geb. now rewrite H. Qed.

Lemma score_geb_ge (a b : Score) : score_ltb a b = false -> score_geb a b = true.
Proof. intro H. unfold score_geb. now rewrite H. Qed.

Lemma keep_highest_above (child : Move -> Score) (moves : list Move) :
  forall value best_move,
    score_ltb (snd (keep_highest child moves value best_move)) value = false.
Proof.
  induction moves as [|move rest IH]; intros value best; cbn [keep_highest].
  - apply score_ltb_irrefl.
  - destruct (score_ltb value (child move)) eqn:E; [|apply IH].
    specialize (IH (child move) (Some move)).
    destruct (score_ltb (snd (keep_highest child rest (child move) (Some move))) value) eqn:C;
      [|reflexivity].
    pose proof (score_ltb_trans _ _ _ C E). congruence.
Qed.

Lemma keep_lowest_below (child : Move -> Score) (moves : list Move) :
  forall value best_move,
    score_ltb value (snd (keep_lowest child moves value best_move)) = false.
Proof.
  induction moves as [|move rest IH]; intros value best; cbn [keep_lowest].
  - apply score_ltb_irrefl.
  - destruct (score_ltb (child move) value) eqn:E; [|apply IH].
    specialize (IH (child move) (Some move)).
    destruct (score_ltb value (snd (keep_lowest child rest (child move) (Some move)))) eqn:C;
      [|reflexivity].
    pose proof (score_ltb_trans _ _ _ E C). congruence.
Qed.

Lemma keep_highest_top (child : Move -> Score) (moves : list Move) (best_move : option Move) :
  keep_highest child moves PosInf best_move = (best_move, PosInf).
Proof. induction moves as [|move rest IH]; [reflexivity | exact IH]. Qed.

Lemma keep_lowest_bottom (child : Move -> Score) (moves : list Move) (best_move : option Move) :
  keep_lowest child moves NegInf best_move = (best_move, NegInf).
Proof.
  induction moves as [|move rest IH]; [reflexivity|].
  cbn [keep_lowest]. now destruct (child move).
Qed.

Section Pruning.

Hypothesis pop_push :
  forall (b : Board) (move : Move), In move (legal_moves b) -> pop (push b move) = b.

(** [ok n]: the deadline does not fire at reading [n] of the clock. *)
Variable ok : nat -> Prop.

(** One step of either loop: the call for the first move ends no later than
    the loop, and the rest of the loop is undisturbed if the whole is. *)
Ltac loop_step W Mono T :=
  let H := fresh "H" in
  let E := fresh "E" in
  match goal with
  | |- undisturbed ok ?t ?X -> _ =>
      intro H;
      match type of W with
      | undisturbed ok _ (_, _, _, ?t') -> _ =>
          assert (E : (t' <= ticks_of X)%nat)
            by (repeat match goal with
                       | |- context [if ?c then _ else _] => destruct c
                       end; first [apply Nat.le_refl | apply Mono]);
          specialize (W (fun n Hn => H n (conj (proj1 Hn)
                                               (Nat.lt_le_trans _ _ _ (proj2 Hn) E))));
          assert (undisturbed ok t' X)
            by (intros n Hn; apply H; split; [lia | exact (proj2 Hn)]);
          clear H E
      end
  end.

(** The maximizing loop, started anywhere: [v_full] is the value the full
    scan holds after the moves already tried. *)
Lemma maximizing_loop_within
    (search : Board -> Score -> Score -> nat -> Outcome) (child : Move -> Score)
    (b : Board) (alpha0 beta : Score) :
  (forall b' a be t, board_of (search b' a be t) = b') ->
  (forall b' a be t, (t <= ticks_of (search b' a be t))%nat) ->
  forall moves,
  (forall move, In move moves -> pop (push b move) = b) ->
  (forall move a be t, In move moves -> score_ltb a be = true ->
     undisturbed ok t (search (push b move) a be t) ->
     within a be (child move) (score_of (search (push b move) a be t))) ->
  forall value best_move alpha v_full best_full t,
    score_ltb alpha beta = true ->
    (score_ltb alpha0 v_full = false /\ score_ltb alpha0 value = false /\ alpha = alpha0)
    \/ (score_ltb alpha0 v_full = true /\ value = v_full /\ alpha = v_full) ->
    undisturbed ok t (maximizing_loop search moves value best_move alpha beta b t) ->
    within alpha0 beta
      (snd (keep_highest child moves v_full best_full))
      (score_of (maximizing_loop search moves value best_move alpha beta b t)).
Proof.
  intros Hb Ht moves.
  induction moves as [|move rest IH]; intros Hp Hs value best alpha V bestV t Hab Inv.
  - intros _. cbn. destruct Inv as [(H1 & H2 & ->) | (H1 & -> & ->)].
    + repeat split; intros.
      * exact H2.
      * congruence.
      * pose proof (score_le_ltb_trans _ _ _ H1 Hab). congruence.
    + apply within_refl.
  - cbn [maximizing_loop keep_highest].
    pose proof (Hb (push b move) alpha beta t) as B.
    pose proof (Ht (push b move) alpha beta t) as T.
    pose proof (Hs move alpha beta t (or_introl eq_refl) Hab) as W.
    pose proof (maximizing_loop_ticks search Ht rest) as Mono.
    destruct (search (push b move) alpha beta t) as [[[m s] b'] t'].
    unfold board_of in B; unfold ticks_of in T; unfold score_of in W.
    simpl in B, T, W. subst b'.
    rewrite (Hp move (or_introl eq_refl)).
    set (v := child move) in *.
    assert (IH' := IH (fun x H => Hp x (or_intror H))
                      (fun x a be t H => Hs x a be t (or_intror H))).
    clear IH.
    loop_step W Mono T.
    match goal with U : undisturbed ok t' _ |- _ => revert U end.
    destruct W as (W1 & W2 & W3).
    destruct Inv as [(H1 & H2 & ->) | (H1 & -> & ->)].
    + destruct (score_ltb alpha0 v) eqn:Ev.
      * pose proof (score_le_ltb_trans _ _ _ H1 Ev) as A2. rewrite A2.
        destruct (score_ltb v beta) eqn:Evb.
        -- rewrite (W2 eq_refl eq_refl).
           pose proof (score_le_ltb_trans _ _ _ H2 Ev) as A1.
           rewrite A1, (score_max_right _ _ Ev), (score_geb_lt _ _ Evb).
           apply IH'; [exact Evb | right; auto].
        -- specialize (W3 eq_refl).
           pose proof (score_ltb_le_trans _ _ _ Hab W3) as A0.
           pose proof (score_le_ltb_trans _ _ _ H2 A0) as A1.
           rewrite A1, (score_max_right _ _ A0), (score_geb_ge _ _ W3).
           pose proof (keep_highest_above child rest v (Some move)) as F.
           pose proof (score_le_trans _ _ _ Evb F) as F1.
           pose proof (score_ltb_le_trans _ _ _ Ev F) as F2.
           intros _. cbn. repeat split; intros; congruence.
      * specialize (W1 eq_refl).
        destruct (score_ltb value s), (score_ltb V v).
        all: rewrite score_max_left by assumption.
        all: rewrite (score_geb_lt _ _ Hab).
        all: apply IH'; [exact Hab | left; auto].
    + destruct (score_ltb V v) eqn:Ev.
      * destruct (score_ltb v beta) eqn:Evb.
        -- rewrite (W2 eq_refl eq_refl).
           rewrite Ev, (score_max_right _ _ Ev), (score_geb_lt _ _ Evb).
           apply IH'; [exact Evb | right].
           split; [exact (score_ltb_trans _ _ _ H1 Ev) | auto].
        -- specialize (W3 eq_refl).
           pose proof (score_ltb_le_trans _ _ _ Hab W3) as A1.
           rewrite A1, (score_max_right _ _ A1), (score_geb_ge _ _ W3).
           pose proof (keep_highest_above child rest v (Some move)) as F.
           pose proof (score_le_trans _ _ _ Evb F) as F1.
           pose proof (score_ltb_le_trans _ _ _ (score_ltb_trans _ _ _ H1 Ev) F) as F2.
           intros _. cbn. repeat split; intros; congruence.
      * specialize (W1 eq_refl). rewrite W1.
        rewrite (score_max_left _ _ (score_ltb_irrefl V)), (score_geb_lt _ _ Hab).
        apply IH'; [exact Hab | right; auto].
Qed.

(** The minimizing loop, mirrored. *)
Lemma minimizing_loop_within
    (search : Board -> Score -> Score -> nat -> Outcome) (child : Move -> Score)
    (b : Board) (alpha beta0 : Score) :
  (forall b' a be t, board_of (search b' a be t) = b') ->
  (forall b' a be t, (t <= ticks_of (search b' a be t))%nat) ->
  forall moves,
  (forall move, In move moves -> pop (push b move) = b) ->
  (forall move a be t, In move moves -> score_ltb a be = true ->
     undisturbed ok t (search (push b move) a be t) ->
     within a be (child move) (score_of (search (push b move) a be t))) ->
  forall value best_move beta v_full best_full t,
    score_ltb alpha beta = true ->
    (score_ltb v_full beta0 = false /\ score_ltb value beta0 = false /\ beta = beta0)
    \/ (score_ltb v_full beta0 = true /\ value = v_full /\ beta = v_full) ->
    undisturbed ok t (minimizing_loop search moves value best_move alpha beta b t) ->
    within alpha beta0
      (snd (keep_lowest child moves v_full best_full))
      (score_of (minimizing_loop search moves value best_move alpha beta b t)).
Proof.
  intros Hb Ht moves.
  induction moves as [|move rest IH]; intros Hp Hs value best beta V bestV t Hab Inv.
  - intros _. cbn. destruct Inv as [(H1 & H2 & ->) | (H1 & -> & ->)].
    + repeat split; intros.
      * pose proof (score_ltb_le_trans _ _ _ Hab H1). congruence.
      * congruence.
      * exact H2.
    + apply within_refl.
  - cbn [minimizing_loop keep_lowest].
    pose proof (Hb (push b move) alpha beta t) as B.
    pose proof (Ht (push b move) alpha beta t) as T.
    pose proof (Hs move alpha beta t (or_introl eq_refl) Hab) as W.
    pose proof (minimizing_loop_ticks search Ht rest) as Mono.
    destruct (search (push b move) alpha beta t) as [[[m s] b'] t'].
    unfold board_of in B; unfold ticks_of in T; unfold score_of in W.
    simpl in B, T, W. subst b'.
    rewrite (Hp move (or_introl eq_refl)).
    set (v := child move) in *.
    assert (IH' := IH (fun x H => Hp x (or_intror H))
                      (fun x a be t H => Hs x a be t (or_intror H))).
    clear IH.
    loop_step W Mono T.
    match goal with U : undisturbed ok t' _ |- _ => revert U end.
    destruct W as (W1 & W2 & W3).
    destruct Inv as [(H1 & H2 & ->) | (H1 & -> & ->)].
    + destruct (score_ltb v beta0) eqn:Ev.
      * pose proof (score_ltb_le_trans _ _ _ Ev H1) as A2. rewrite A2.
        destruct (score_ltb alpha v) eqn:Eav.
        -- rewrite (W2 eq_refl eq_refl).
           pose proof (score_ltb_le_trans _ _ _ Ev H2) as A1.
           rewrite A1, (score_min_right _ _ Ev), (score_geb_lt _ _ Eav).
           apply IH'; [exact Eav | right; auto].
        -- specialize (W1 eq_refl).
           pose proof (score_le_ltb_trans _ _ _ W1 Hab) as A0.
           pose proof (score_ltb_le_trans _ _ _ A0 H2) as A1.
           rewrite A1, (score_min_right _ _ A0), (score_geb_ge _ _ W1).
           pose proof (keep_lowest_below child rest v (Some move)) as F.
           pose proof (score_le_trans _ _ _ F Eav) as F1.
           pose proof (score_le_ltb_trans _ _ _ F Ev) as F2.
           intros _. cbn. repeat split; intros; congruence.
      * specialize (W3 eq_refl).
        destruct (score_ltb s value), (score_ltb v V).
        all: rewrite score_min_left by assumption.
        all: rewrite (score_geb_lt _ _ Hab).
        all: apply IH'; [exact Hab | left; auto].
    + destruct (score_ltb v V) eqn:Ev.
      * destruct (score_ltb alpha v) eqn:Eav.
        -- rewrite (W2 eq_refl eq_refl).
           rewrite Ev, (score_min_right _ _ Ev), (score_geb_lt _ _ Eav).
           apply IH'; [exact Eav | right].
           split; [exact (score_ltb_trans _ _ _ Ev H1) | auto].
        -- specialize (W1 eq_refl).
           pose proof (score_le_ltb_trans _ _ _ W1 Hab) as A1.
           rewrite A1, (score_min_right _ _ A1), (score_geb_ge _ _ W1).
           pose proof (keep_lowest_below child rest v (Some move)) as F.
           pose proof (score_le_trans _ _ _ F Eav) as F1.
           pose proof (score_le_ltb_trans _ _ _ F (score_ltb_trans _ _ _ Ev H1)) as F2.
           intros _. cbn. repeat split; intros; congruence.
      * specialize (W3 eq_refl). rewrite W3.
        rewrite (score_min_left _ _ (score_ltb_irrefl V)), (score_geb_lt _ _ Hab).
        apply IH'; [exact Hab | right; auto].
Qed.

(** At the root the window is the whole line, so the loop and the full scan
    hold the same value and the same move after every child. *)
Lemma maximizing_loop_root
    (search : Board -> Score -> Score -> nat -> Outcome) (child : Move -> Score)
    (b : Board) :
  (forall b' a be t, board_of (search b' a be t) = b') ->
  (forall b' a be t, (t <= ticks_of (search b' a be t))%nat) ->
  forall moves,
  (forall move, In move moves -> pop (push b move) = b) ->
  (forall move a be t, In move moves -> score_ltb a be = true ->
     undisturbed ok t (search (push b move) a be t) ->
     within a be (child move) (score_of (search (push b move) a be t))) ->
  forall value best_move t,
    score_ltb value PosInf = true ->
    let o := maximizing_loop search moves value best_move value PosInf b t in
    undisturbed ok t o ->
    (move_of o, score_of o) = keep_highest child moves value best_move.
Proof.
  intros Hb Ht moves.
  induction moves as [|move rest IH]; intros Hp Hs value best t Hv.
  - reflexivity.
  - cbn zeta. cbn [maximizing_loop keep_highest].
    pose proof (Hb (push b move) value PosInf t) as B.
    pose proof (Ht (push b move) value PosInf t) as T.
    pose proof (Hs move value PosInf t (or_introl eq_refl) Hv) as W.
    pose proof (maximizing_loop_ticks search Ht rest) as Mono.
    destruct (search (push b move) value PosInf t) as [[[m s] b'] t'].
    unfold board_of in B; unfold ticks_of in T; unfold score_of in W.
    simpl in B, T, W. subst b'.
    rewrite (Hp move (or_introl eq_refl)).
    remember (child move) as v eqn:Dv.
    assert (IH' := IH (fun x H => Hp x (or_intror H))
                      (fun x a be t H => Hs x a be t (or_intror H))).
    clear IH. cbn zeta in IH'.
    loop_step W Mono T.
    match goal with U : undisturbed ok t' _ |- _ => revert U end.
    destruct W as (W1 & W2 & W3).
    destruct (score_ltb value v) eqn:Ev.
    + destruct (score_ltb v PosInf) eqn:Evb.
      * rewrite (W2 eq_refl eq_refl).
        rewrite Ev, (score_max_right _ _ Ev), (score_geb_lt _ _ Evb).
        now apply IH'.
      * pose proof (score_top _ (W3 eq_refl)) as ->.
        pose proof (score_top _ Evb) as ->.
        rewrite Ev, (score_max_right _ _ Ev). intros _. cbn.
        now rewrite keep_highest_top.
    + rewrite (W1 eq_refl).
      rewrite (score_max_left _ _ (score_ltb_irrefl value)), (score_geb_lt _ _ Hv).
      now apply IH'.
Qed.

Lemma minimizing_loop_root
    (search : Board -> Score -> Score -> nat -> Outcome) (child : Move -> Score)
    (b : Board) :
  (forall b' a be t, board_of (search b' a be t) = b') ->
  (forall b' a be t, (t <= ticks_of (search b' a be t))%nat) ->
  forall moves,
  (forall move, In move moves -> pop (push b move) = b) ->
  (forall move a be t, In move moves -> score_ltb a be = true ->
     undisturbed ok t (search (push b move) a be t) ->
     within a be (child move) (score_of (search (push b move) a be t))) ->
  forall value best_move t,
    score_ltb NegInf value = true ->
    let o := minimizing_loop search moves value best_move NegInf value b t in
    undisturbed ok t o ->
    (move_of o, score_of o) = keep_lowest child moves value best_move.
Proof.
  intros Hb Ht moves.
  induction moves as [|move rest IH]; intros Hp Hs value best t Hv.
  - reflexivity.
  - cbn zeta. cbn [minimizing_loop keep_lowest].
    pose proof (Hb (push b move) NegInf value t) as B.
    pose proof (Ht (push b move) NegInf value t) as T.
    pose proof (Hs move NegInf value t (or_introl eq_refl) Hv) as W.
    pose proof (minimizing_loop_ticks search Ht rest) as Mono.
    destruct (search (push b move) NegInf value t) as [[[m s] b'] t'].
    unfold board_of in B; unfold ticks_of in T; unfold score_of in W.
    simpl in B, T, W. subst b'.
    rewrite (Hp move (or_introl eq_refl)).
    remember (child move) as v eqn:Dv.
    assert (IH' := IH (fun x H => Hp x (or_intror H))
                      (fun x a be t H => Hs x a be t (or_intror H))).
    clear IH. cbn zeta in IH'.
    loop_step W Mono T.
    match goal with U : undisturbed ok t' _ |- _ => revert U end.
    destruct W as (W1 & W2 & W3).
    destruct (score_ltb v value) eqn:Ev.
    + destruct (score_ltb NegInf v) eqn:Eav.
      * rewrite (W2 eq_refl eq_refl).
        rewrite Ev, (score_min_right _ _ Ev), (score_geb_lt _ _ Eav).
        now apply IH'.
      * pose proof (score_bottom _ (W1 eq_refl)) as ->.
        pose proof (score_bottom _ Eav) as ->.
        rewrite Ev, (score_min_right _ _ Ev). intros _. cbn.
        now rewrite keep_lowest_bottom.
    + rewrite (W3 eq_refl).
      rewrite (score_min_left _ _ (score_ltb_irrefl value)), (score_geb_lt _ _ Hv).
      now apply IH'.
Qed.

End Pruning.

Section Equivalence.

Hypothesis pop_push :
  forall (b : Board) (move : Move), In move (legal_moves b) -> pop (push b move) = b.

Variables start_time time_limit : Q.

Local Abbreviation timely := (in_time clock start_time time_limit).

Lemma search_within (self : ChessAgent) (player : Color) (depth : nat) :
  forall b alpha beta t,
    score_ltb alpha beta = true ->
    undisturbed timely t
      (alpha_beta_search clock self b depth alpha beta player
                         start_time time_limit t) ->
    within alpha beta
      (snd (full_minimax self b depth player))
      (score_of (alpha_beta_search clock self b depth alpha beta player
                                   start_time time_limit t)).
Proof.
  induction depth as [|depth IH]; intros b alpha beta t Hab.
  - intros _. cbn. rewrite leaf_eq. apply within_refl.
  - cbn [alpha_beta_search full_minimax].
    destruct (is_game_over b); [intros _; rewrite leaf_eq; apply within_refl|].
    destruct (Qltb time_limit (clock t - start_time)) eqn:E.
    { rewrite leaf_eq. intro U. exfalso.
      assert (K : timely t) by (apply U; cbn; lia).
      unfold timely in K. congruence. }
    intro U.
    assert (U' : forall o : Outcome, undisturbed timely t o -> undisturbed timely (S t) o)
      by (intros o Uo n Hn; apply Uo; lia).
    apply U' in U. revert U.
    destruct (Bool.eqb (turn b) player).
    + apply maximizing_loop_within.
      * intros. apply (search_board pop_push).
      * intros. apply search_ticks.
      * intros. now apply pop_push.
      * intros. now apply IH.
      * exact Hab.
      * left. repeat split; try reflexivity; now destruct alpha.
    + apply minimizing_loop_within.
      * intros. apply (search_board pop_push).
      * intros. apply search_ticks.
      * intros. now apply pop_push.
      * intros. now apply IH.
      * exact Hab.
      * left. repeat split; reflexivity.
Qed.

(** C1.  For every position, depth and fixed perspective, if the deadline
    fires at none of the clock readings the search takes (one per node that
    is entered at a positive depth with the game not over), the pruning search
    started with the window [(-inf, +inf)] returns the move and the score of
    the full minimax of the same depth over the same tree. *)
Theorem pruning_preserves_result (self : ChessAgent) (b : Board) (depth : nat)
    (perspective : Color) (t : nat) :
  let o := alpha_beta_search clock self b depth NegInf PosInf perspective
                             start_time time_limit t in
  (forall n, (t <= n < ticks_of o)%nat ->
     Qltb time_limit (clock n - start_time) = false) ->
  (move_of o, score_of o) = full_minimax self b depth perspective.
Proof.
  cbn zeta. fold (undisturbed timely t
    (alpha_beta_search clock self b depth NegInf PosInf perspective
                       start_time time_limit t)).
  destruct depth as [|depth].
  - intros _. cbn. now rewrite leaf_eq.
  - cbn [alpha_beta_search full_minimax].
    destruct (is_game_over b); [intros _; now rewrite leaf_eq|].
    destruct (Qltb time_limit (clock t - start_time)) eqn:E.
    { rewrite leaf_eq. intro U. exfalso.
      assert (K : timely t) by (apply U; cbn; lia).
      unfold timely in K. congruence. }
    intro U.
    assert (U' : forall o : Outcome, undisturbed timely t o -> undisturbed timely (S t) o)
      by (intros o Uo n Hn; apply Uo; lia).
    apply U' in U. revert U.
    destruct (Bool.eqb (turn b) perspective).
    + apply maximizing_loop_root.
      * intros. apply (search_board pop_push).
      * intros. apply search_ticks.
      * intros. now apply pop_push.
      * intros. now apply search_within.
      * reflexivity.
    + apply minimizing_loop_root.
      * intros. apply (search_board pop_push).
      * intros. apply search_ticks.
      * intros. now apply pop_push.
      * intros. now apply search_within.
      * reflexivity.
Qed.

End Equivalence.

(** *** The evaluator as a sum of its blocks *)

Lemma evaluate_blocks (self : ChessAgent) (b : Board) (depth : Z) :
  in_play b -> fst (evaluate self b depth) == total self b blocks.
Proof.
  intros (M & S & I). unfold evaluate. rewrite M, S, I. cbn [orb].
  rewrite !mobility_eq. cbn [fst snd total blocks fold_left block].
  unfold pos_metric. rewrite !mobility_eq. cbn [fst].
  set (pm := mobility_factor * _ + _ + _).
  destruct (Qltb pm 0.5), (Qltb 3.0 pm);
    try destruct (peek b); try destruct (is_capture b _); ring.
Qed.

Lemma total_all_but (self : ChessAgent) (b : Board) (k : Block) :
  total self b blocks == total self b (all_but k) + block self b k.
Proof.
  destruct k; cbn [total all_but blocks filter Block_eqb negb fold_left]; ring.
Qed.

(** [evaluate] is what the other blocks give, plus block [k]. *)
Lemma evaluate_split (self : ChessAgent) (b : Board) (depth : Z) (k : Block) :
  in_play b ->
  fst (evaluate self b depth) == total self b (all_but k) + block self b k.
Proof.
  intro P. rewrite (evaluate_blocks self depth P). apply total_all_but.
Qed.

(** *** The capture penalty *)

Lemma peek_after (b : Board) (moves : list Move) (move : Move) :
  move_stack b = moves ++ [move] -> peek b = Some move.
Proof. intro H. unfold peek. now rewrite H, rev_app_distr. Qed.

(** C4 (as amended).  Let [move] be a capture just applied that leaves the
    perspective with a material edge below 1 in a position still in play.
    [evaluate] subtracts 1.0 when the capture was made by the perspective
    side itself (it was the side to move before the capture), and nothing
    when it was made by the opponent. *)
Theorem capture_penalty_is_for_own_captures (self : ChessAgent) (b : Board)
    (move : Move) :
  turn (push b move) = negb (turn b) ->
  move_stack (push b move) = move_stack b ++ [move] ->
  in_play (push b move) ->
  is_capture (push b move) move = true ->
  material self (push b move) < 1 ->
  fst (evaluate self (push b move) 0)
  == total self (push b move) (all_but NonPositiveCapture)
     + (if Bool.eqb (turn b) (color self) then - 1.0 else 0).
Proof.
  intros T S P C M.
  rewrite (evaluate_split self 0 NonPositiveCapture P).
  apply Qplus_inj_l. cbn [block]. unfold non_positive_capture.
  rewrite (peek_after _ _ _ S), T, C.
  apply Qltb_lt in M. rewrite M.
  destruct (turn b), (color self); reflexivity.
Qed.

(** *** Passed pawns *)

Lemma In_range (lo hi r : Z) : In r (range lo hi) <-> (lo <= r < hi)%Z.
Proof.
  unfold range. rewrite in_map_iff. split.
  - intros [i [<- Hi]]. apply in_seq in Hi. lia.
  - intro H. exists (Z.to_nat (r - lo)). split; [lia | apply in_seq; lia].
Qed.

Lemma In_range_down (hi r : Z) : In r (range_down hi) <-> (0 <= r <= hi)%Z.
Proof.
  unfold range_down. rewrite <- in_rev, In_range. lia.
Qed.

Lemma opposing_pawn_false (b : Board) (sq : Square) (c : Color) :
  opposing_pawn b sq c = false
  <-> forall piece, piece_at b sq = Some piece ->
        piece_type piece = PAWN -> piece_color piece = c.
Proof.
  unfold opposing_pawn. destruct (piece_at b sq) as [[pt pc]|].
  - simpl. split.
    + intros H piece [= <-] E. simpl in *. subst pt. simpl in H.
      destruct pc, c; simpl in H; congruence.
    + intro H. destruct pt; try reflexivity.
      pose proof (H _ eq_refl eq_refl) as E. simpl in E. subst pc. now destruct c.
  - split; [intros _ piece [=] | reflexivity].
Qed.

Lemma is_passed_pawn_spec (b : Board) (sq : Square) (c : Color) :
  is_passed_pawn b sq c = true <-> passed b sq c.
Proof.
  unfold is_passed_pawn, passed, ahead, own_or_adjacent.
  destruct c; cbn [Bool.eqb WHITE]; rewrite forallb_forall; split.
  - intros H f r Hr Hf. apply opposing_pawn_false, negb_true_iff.
    specialize (H r). rewrite In_range, forallb_forall in H.
    apply H; [lia | apply In_range; lia].
  - intros H r Hr. apply In_range in Hr. apply forallb_forall. intros f Hf.
    apply In_range in Hf. apply negb_true_iff, opposing_pawn_false. apply H; lia.
  - intros H f r Hr Hf. apply opposing_pawn_false, negb_true_iff.
    specialize (H r). rewrite In_range_down, forallb_forall in H.
    apply H; [lia | apply In_range; lia].
  - intros H r Hr. apply In_range_down in Hr. apply forallb_forall. intros f Hf.
    apply In_range in Hf. apply negb_true_iff, opposing_pawn_false. apply H; lia.
Qed.

Lemma occupied_false (b : Board) (sq : Square) :
  negb (occupied b sq) = true <-> piece_at b sq = None.
Proof.
  unfold occupied. destruct (piece_at b sq); simpl; split; congruence.
Qed.

Lemma open_road_spec (b : Board) (sq : Square) (c : Color) :
  open_road b sq c = true <-> road_open b sq c.
Proof.
  unfold open_road, road_open, ahead.
  destruct c; cbn [Bool.eqb WHITE]; rewrite forallb_forall; split.
  - intros H r Hr. apply occupied_false, H, In_range. lia.
  - intros H r Hr. apply In_range in Hr. apply occupied_false, H. lia.
  - intros H r Hr. apply occupied_false, H, In_range_down. lia.
  - intros H r Hr. apply In_range_down in Hr. apply occupied_false, H. lia.
Qed.

Lemma our_pawn_worth (self : ChessAgent) (b : Board) (pawn : Square) :
  pawn_worth b (color self) pawn (our_pawn_bonus self b pawn).
Proof.
  unfold pawn_worth, our_pawn_bonus, from_back.
  destruct (is_passed_pawn b pawn (color self)) eqn:P.
  - apply is_passed_pawn_spec in P.
    destruct (open_road b pawn (color self)) eqn:O.
    + apply open_road_spec in O. left. repeat split; try assumption.
      destruct (color self); cbn [Bool.eqb WHITE]; ring.
    + right; left. repeat split; try assumption.
      * intro R. apply open_road_spec in R. congruence.
      * destruct (color self); cbn [Bool.eqb WHITE]; ring.
  - right; right. split; [|reflexivity].
    intro R. apply is_passed_pawn_spec in R. congruence.
Qed.

Lemma enemy_pawn_worth (self : ChessAgent) (b : Board) (pawn : Square) :
  pawn_worth b (negb (color self)) pawn (enemy_pawn_bonus self b pawn).
Proof.
  unfold pawn_worth, enemy_pawn_bonus, from_back.
  destruct (is_passed_pawn b pawn (negb (color self))) eqn:P.
  - apply is_passed_pawn_spec in P.
    destruct (open_road b pawn (negb (color self))) eqn:O.
    + apply open_road_spec in O. left. repeat split; try assumption.
      destruct (color self); cbn [Bool.eqb WHITE negb]; ring.
    + right; left. repeat split; try assumption.
      * intro R. apply open_road_spec in R. congruence.
      * destruct (color self); cbn [Bool.eqb WHITE negb]; ring.
  - right; right. split; [|reflexivity].
    intro R. apply is_passed_pawn_spec in R. congruence.
Qed.

Lemma fold_left_plus (f : Square -> Q) (l : list Square) :
  forall a, fold_left (fun score x => score + f x) l a == a + sumQ (map f l).
Proof.
  induction l as [|x l IH]; intro a; cbn [fold_left map sumQ fold_right].
  - ring.
  - rewrite IH. unfold sumQ. ring.
Qed.

Lemma fold_left_minus (f : Square -> Q) (l : list Square) :
  forall a, fold_left (fun score x => score - f x) l a == a - sumQ (map f l).
Proof.
  induction l as [|x l IH]; intro a; cbn [fold_left map sumQ fold_right].
  - ring.
  - rewrite IH. unfold sumQ. ring.
Qed.

(** C7 (as amended).  In a position still in play, [evaluate] is the sum of
    its other blocks, plus the worth of each pawn of the perspective side,
    minus the worth of each pawn of the opponent, where a pawn that is not
    passed is worth nothing and a passed pawn is worth 0.5 times its
    distance from its own back rank (its rank index for White, 7 minus it
    for Black), plus 2.0 when its road is open. *)
Theorem passed_pawns_by_distance_from_back_rank (self : ChessAgent) (b : Board)
    (depth : Z) :
  in_play b ->
  exists ours theirs,
    Forall2 (pawn_worth b (color self)) (pieces b PAWN (color self)) ours
    /\ Forall2 (pawn_worth b (negb (color self)))
               (pieces b PAWN (negb (color self))) theirs
    /\ fst (evaluate self b depth)
       == total self b (all_but PassedPawn) + sumQ ours - sumQ theirs.
Proof.
  intro P.
  exists (map (our_pawn_bonus self b) (pieces b PAWN (color self))),
         (map (enemy_pawn_bonus self b) (pieces b PAWN (negb (color self)))).
  split; [|split].
  - induction (pieces b PAWN (color self)); constructor;
      [apply our_pawn_worth | assumption].
  - induction (pieces b PAWN (negb (color self))); constructor;
      [apply enemy_pawn_worth | assumption].
  - rewrite (evaluate_split self depth PassedPawn P).
    cbn [block]. unfold passed_pawns.
    rewrite fold_left_minus, fold_left_plus. ring.
Qed.

(** *** The deepening loop *)

Section Deepening.

Hypothesis pop_push :
  forall (b : Board) (move : Move), In move (legal_moves b) -> pop (push b move) = b.

Variable self : ChessAgent.
Variable b : Board.
Variables start_time time_limit : Q.

Local Abbreviation call := (call clock self b start_time time_limit).
Local Abbreviation deepening_run :=
  (deepening_run clock self b start_time time_limit).

Lemma iterative_deepening_run (fuel : nat) :
  forall depth best_move t r b' t',
    iterative_deepening clock fuel self b start_time time_limit depth best_move t
    = Some (r, b', t') ->
    exists results, deepening_run depth t results t' /\ last_move_of best_move results r.
Proof.
  induction fuel as [|fuel IH]; intros depth best t r b' t' H.
  - discriminate.
  - cbn [iterative_deepening] in H.
    destruct (Qltb (clock t - start_time) time_limit) eqn:E.
    + pose proof (search_board pop_push self depth b NegInf PosInf
                    (color self) start_time time_limit (S t)) as B.
      assert (D : call depth t = alpha_beta_search clock self b depth NegInf PosInf
                                   (color self) start_time time_limit (S t))
        by reflexivity.
      destruct (alpha_beta_search clock self b depth NegInf PosInf (color self)
                                  start_time time_limit (S t)) as [[[m s] b1] t1].
      unfold board_of in B; simpl in B; subst b1.
      apply IH in H. destruct H as [results [R L]].
      exists (m :: results). split.
      * replace m with (move_of (call depth t)) by now rewrite D.
        apply run_call; [exact E|]. now rewrite D.
      * destruct L as [[x [l1 [l2 [-> [-> A]]]]] | [-> A]].
        -- left. exists x, (m :: l1), l2. now repeat split.
        -- destruct m as [x|].
           ++ left. exists x, [], results. now repeat split.
           ++ right. split; [reflexivity | now constructor].
    + inversion H; subst. exists []. split; [now apply run_stop|].
      right. split; [reflexivity | constructor].
Qed.

(** From reading [horizon] on, the clock is past the time limit. *)
Hypothesis clock_runs_out :
  exists horizon : nat,
  forall n, (horizon <= n)%nat -> Qltb (clock n - start_time) time_limit = false.

Lemma iterative_deepening_ends :
  exists fuel0, forall fuel depth best_move t, (fuel0 <= fuel)%nat ->
    exists r t',
      iterative_deepening clock fuel self b start_time time_limit depth best_move t
      = Some (r, b, t').
Proof.
  destruct clock_runs_out as [horizon Hh].
  exists (S horizon). intros fuel.
  assert (G : forall depth best t, (horizon < fuel + t)%nat -> (0 < fuel)%nat ->
            exists r t',
              iterative_deepening clock fuel self b start_time time_limit depth best t
              = Some (r, b, t')).
  { induction fuel as [|fuel IH]; intros depth best t Hf Hpos; [lia|].
    cbn [iterative_deepening].
    destruct (Qltb (clock t - start_time) time_limit) eqn:E.
    - assert (t < horizon)%nat.
      { destruct (Nat.lt_ge_cases t horizon) as [L|L]; [exact L|].
        rewrite (Hh t L) in E. discriminate. }
      pose proof (search_board pop_push self depth b NegInf PosInf
                    (color self) start_time time_limit (S t)) as B.
      pose proof (search_ticks self depth b NegInf PosInf (color self)
                    start_time time_limit (S t)) as T.
      destruct (alpha_beta_search clock self b depth NegInf PosInf (color self)
                                  start_time time_limit (S t)) as [[[m s] b1] t1].
      unfold board_of in B; unfold ticks_of in T; simpl in B, T; subst b1.
      apply IH; lia.
    - now eexists _, _. }
  intros depth best t Hfuel. apply G; lia.
Qed.

(** Once the clock runs out the loop ends, and what it holds then is the
    move of the last call that returned one. *)
Lemma deepening_ends_with_last_move :
  exists fuel0, forall fuel t, (fuel0 <= fuel)%nat ->
    exists r t' results,
      iterative_deepening clock fuel self b start_time time_limit 1 None t
      = Some (r, b, t')
      /\ deepening_run 1%nat t results t'
      /\ match r with
         | Some m => exists before after,
             results = before ++ Some m :: after /\ Forall (eq None) after
         | None => Forall (eq None) results
         end.
Proof.
  destruct iterative_deepening_ends as [fuel0 Hends].
  exists fuel0. intros fuel t Hfuel.
  destruct (Hends fuel 1%nat None t Hfuel) as [r [t' H]].
  destruct (iterative_deepening_run _ _ _ _ H) as [results [R L]].
  exists r, t', results. split; [exact H|]. split; [exact R|].
  destruct L as [[x [l1 [l2 [-> [-> A]]]]] | [-> A]].
  - now exists l1, l2.
  - exact A.
Qed.

End Deepening.

Section Selector.

Hypothesis pop_push :
  forall (b : Board) (move : Move), In move (legal_moves b) -> pop (push b move) = b.

(** C5 (as amended).  When no scripted source supplies a move, [select_move]
    runs the deepening loop until the clock runs out.  A search result whose
    move is [None] is discarded; any other result overwrites the running best
    move, whether or not the deadline fired inside that call.  What is
    returned is therefore the move of the last call that returned one, and
    the static scan when no call did. *)
Theorem select_move_returns_last_move_found (self : ChessAgent) (b : Board)
    (time_limit : Q) (t : nat) :
  book_move self b = None ->
  (exists horizon : nat, forall n, (horizon <= n)%nat ->
     Qltb (clock n - clock t) time_limit = false) ->
  exists fuel0, forall fuel, (fuel0 <= fuel)%nat ->
    exists t' results,
      deepening_run clock self b (clock t) time_limit 1 (S t) results t'
      /\ ((exists m before after,
             results = before ++ Some m :: after /\ Forall (eq None) after
             /\ select_move clock fuel self b time_limit t = Some (Some m, self, b, t'))
          \/ (Forall (eq None) results
              /\ select_move clock fuel self b time_limit t
                 = Some (fst (fallback_scan self (legal_moves b) None NegInf b),
                         self, b, t'))).
Proof.
  intros Hbook Hclock.
  destruct (deepening_ends_with_last_move pop_push self b (clock t) time_limit Hclock)
    as [fuel0 H].
  exists fuel0. intros fuel Hfuel.
  destruct (H fuel (S t) Hfuel) as [r [t' [results [E [R L]]]]].
  exists t', results. split; [exact R|].
  unfold select_move, search_phase. rewrite Hbook, E.
  destruct r as [m|].
  - left. destruct L as [l1 [l2 [-> A]]]. now exists m, l1, l2.
  - right. split; [exact L|].
    rewrite fallback_scan_eq by (intros; now apply pop_push). reflexivity.
Qed.

End Selector.

(** *** The scripted sources *)

(** A scripted source supplies nothing exactly when its list is exhausted or
    its next entry does not parse to a legal move. *)
Lemma scripted_none (b : Board) (moves : list string) (played : nat) :
  scripted b moves played = None
  <-> (length moves <= played)%nat
      \/ exists san, nth_error moves played = Some san
                     /\ (parse_san b san = None
                         \/ exists move, parse_san b san = Some move
                                         /\ is_legal b move = false).
Proof.
  unfold scripted. destruct (nth_error moves played) as [san|] eqn:N.
  - split.
    + intro H. right. exists san. split; [reflexivity|].
      destruct (parse_san b san) as [move|]; [|now left].
      right. exists move. split; [reflexivity|].
      destruct (is_legal b move); [discriminate | reflexivity].
    + intros [L | [san' [[= <-] [P | [move [P L]]]]]].
      * apply nth_error_None in L. congruence.
      * now rewrite P.
      * now rewrite P, L.
  - apply nth_error_None in N. split; [now left | reflexivity].
Qed.

(** C2 (as amended).  Suppose the opening source supplies no move this turn
    while the next historical entry parses to a legal move.  Then the
    historical move is played, and its index advanced, exactly when the
    opening source was not consulted at all (the agent is not White, or no
    opening list is configured); when it was consulted and failed, because
    its list is exhausted or its next entry does not parse to a legal move,
    the turn goes straight to the search and the historical source is not
    tried. *)
Theorem history_is_tried_only_past_a_closed_opening_gate (fuel : nat)
    (self : ChessAgent) (b : Board) (time_limit : Q) (t : nat) (move : Move) :
  (opening_gate self = true ->
   scripted b (test_opening_moves self) (opening_moves_played self) = None) ->
  scripted b (magnus_moves self) (magnus_moves_played self) = Some move ->
  select_move clock fuel self b time_limit t
  = if opening_gate self
    then search_phase clock fuel self b time_limit t
    else Some (Some move, magnus_played self, b, t).
Proof.
  intros Hopening Hhistory. unfold select_move, book_move.
  fold (opening_gate self). destruct (opening_gate self).
  - now rewrite Hopening.
  - now rewrite Hhistory.
Qed.

(** The search phase leaves both indices as they were. *)
Lemma search_phase_keeps_agent (fuel : nat) (self : ChessAgent) (b : Board)
    (time_limit : Q) (t : nat) r self' b' t' :
  search_phase clock fuel self b time_limit t = Some (r, self', b', t') ->
  self' = self.
Proof.
  unfold search_phase.
  destruct (iterative_deepening clock fuel self b (clock t) time_limit 1 None (S t))
    as [[[[m|] b1] t1]|]; try discriminate.
  - now intros [= _ <- _ _].
  - destruct (fallback_scan self (legal_moves b1) None NegInf b1).
    now intros [= _ <- _ _].
Qed.

End Properties.

(** ** Further properties of the agent *)

Lemma PieceType_eqb_eq (x y : PieceType) : PieceType_eqb x y = true -> x = y.
Proof. destruct x, y; simpl; congruence. Qed.

Lemma Move_eqb_eq (m n : Move) : Move_eqb m n = true -> m = n.
Proof.
  destruct m as [f1 t1 p1], n as [f2 t2 p2]. unfold Move_eqb. simpl.
  intro H. apply andb_prop in H. destruct H as [H P].
  apply andb_prop in H. destruct H as [F T].
  apply Z.eqb_eq in F. apply Z.eqb_eq in T. subst.
  destruct p1 as [x|], p2 as [y|]; try discriminate; [|reflexivity].
  now rewrite (PieceType_eqb_eq _ _ P).
Qed.

Section Selection.

Context {Hidden : Type} {lib : ChessLib Hidden}.
Variable clock : nat -> Q.

Local Abbreviation Board := (Board Hidden).
Local Abbreviation Outcome := (@Outcome Hidden).

(** *** Only legal moves are returned *)

Lemma is_legal_In (b : Board) (move : Move) :
  is_legal b move = true -> In move (legal_moves b).
Proof.
  unfold is_legal. intro H. apply existsb_exists in H.
  destruct H as [x [I E]]. now rewrite (Move_eqb_eq _ _ E).
Qed.

Lemma scripted_legal (b : Board) (moves : list string) (played : nat) (move : Move) :
  scripted b moves played = Some move ->
  In move (legal_moves b) /\ (played < length moves)%nat.
Proof.
  unfold scripted. destruct (nth_error moves played) as [san|] eqn:N; [|discriminate].
  destruct (parse_san b san) as [m|]; [|discriminate].
  destruct (is_legal b m) eqn:L; [|discriminate].
  intros [= <-]. split; [now apply is_legal_In|].
  apply nth_error_Some. congruence.
Qed.

Lemma maximizing_loop_move
    (search : Board -> Score -> Score -> nat -> Outcome) (m : Move) :
  forall moves value best_move alpha beta b t,
    move_of (maximizing_loop search moves value best_move alpha beta b t) = Some m ->
    best_move = Some m \/ In m moves.
Proof.
  induction moves as [|move rest IH]; intros value best alpha beta b t.
  - now left.
  - cbn [maximizing_loop].
    destruct (search (push b move) alpha beta t) as [[[m' score] b'] t'].
    assert (K : forall best', (best' = Some move \/ best' = best) ->
                best' = Some m \/ In m rest -> best = Some m \/ In m (move :: rest)).
    { intros best' [-> | ->] [E | I]; cbn; auto. injection E as <-. auto. }
    destruct (score_ltb value score);
      match goal with |- context [if ?c then _ else _] => destruct c end;
      intro H; try apply IH in H; unfold move_of in H; cbn in H;
      first [ exact (K _ (or_introl eq_refl) (or_introl H))
            | exact (K _ (or_intror eq_refl) (or_introl H))
            | exact (K _ (or_introl eq_refl) H)
            | exact (K _ (or_intror eq_refl) H) ].
Qed.

Lemma minimizing_loop_move
    (search : Board -> Score -> Score -> nat -> Outcome) (m : Move) :
  forall moves value best_move alpha beta b t,
    move_of (minimizing_loop search moves value best_move alpha beta b t) = Some m ->
    best_move = Some m \/ In m moves.
Proof.
  induction moves as [|move rest IH]; intros value best alpha beta b t.
  - now left.
  - cbn [minimizing_loop].
    destruct (search (push b move) alpha beta t) as [[[m' score] b'] t'].
    assert (K : forall best', (best' = Some move \/ best' = best) ->
                best' = Some m \/ In m rest -> best = Some m \/ In m (move :: rest)).
    { intros best' [-> | ->] [E | I]; cbn; auto. injection E as <-. auto. }
    destruct (score_ltb score value);
      match goal with |- context [if ?c then _ else _] => destruct c end;
      intro H; try apply IH in H; unfold move_of in H; cbn in H;
      first [ exact (K _ (or_introl eq_refl) (or_introl H))
            | exact (K _ (or_intror eq_refl) (or_introl H))
            | exact (K _ (or_introl eq_refl) H)
            | exact (K _ (or_intror eq_refl) H) ].
Qed.

(** The move of a search result is a legal move of the root. *)
Lemma search_move_legal (self : ChessAgent) (b : Board) (depth : nat)
    (alpha beta : Score) (player : Color) (start_time time_limit : Q) (t : nat)
    (m : Move) :
  move_of (alpha_beta_search clock self b depth alpha beta player
                             start_time time_limit t) = Some m ->
  In m (legal_moves b).
Proof.
  destruct depth as [|depth]; cbn [alpha_beta_search].
  - rewrite leaf_eq. discriminate.
  - destruct (is_game_over b); [rewrite leaf_eq; discriminate|].
    destruct (Qltb time_limit (clock t - start_time)); [rewrite leaf_eq; discriminate|].
    destruct (Bool.eqb (turn b) player); intro H.
    + apply maximizing_loop_move in H. destruct H; [discriminate | assumption].
    + apply minimizing_loop_move in H. destruct H; [discriminate | assumption].
Qed.

Lemma fallback_scan_move (self : ChessAgent) (m : Move) :
  forall moves fallback_move best_eval b,
    fst (fallback_scan self moves fallback_move best_eval b) = Some m ->
    fallback_move = Some m \/ In m moves.
Proof.
  induction moves as [|move rest IH]; intros fallback best_eval b.
  - now left.
  - cbn [fallback_scan].
    destruct (evaluate self (push b move) 0) as [eval_val b1].
    destruct (score_ltb best_eval (Fin eval_val)); intro H; apply IH in H;
      destruct H as [H | H]; try (injection H as <-); cbn; auto.
Qed.

(** What a scripted source supplies is the move its next entry parses to;
    it is legal, and the index was in range. *)
Lemma book_move_cases (self : ChessAgent) (b : Board) (m : Move) (self' : ChessAgent) :
  book_move self b = Some (m, self') ->
  In m (legal_moves b)
  /\ ((opening_gate self = true /\ self' = opening_played self
       /\ scripted b (test_opening_moves self) (opening_moves_played self) = Some m
       /\ (opening_moves_played self < length (test_opening_moves self))%nat)
      \/ (opening_gate self = false /\ self' = magnus_played self
          /\ scripted b (magnus_moves self) (magnus_moves_played self) = Some m
          /\ (magnus_moves_played self < length (magnus_moves self))%nat)).
Proof.
  unfold book_move. fold (opening_gate self). destruct (opening_gate self).
  - destruct (scripted b (test_opening_moves self) (opening_moves_played self))
      as [move|] eqn:Sc; [|discriminate].
    intros [= <- <-]. apply scripted_legal in Sc as L. destruct L. split; auto.
  - destruct (scripted b (magnus_moves self) (magnus_moves_played self))
      as [move|] eqn:Sc; [|discriminate].
    intros [= <- <-]. apply scripted_legal in Sc as L. destruct L. split; auto 6.
Qed.

Section WithUndo.

(** What the rules engine promises of [push] and [pop]. *)
Hypothesis pop_push :
  forall (b : Board) (move : Move), In move (legal_moves b) -> pop (push b move) = b.

Lemma iterative_deepening_move (self : ChessAgent) (b : Board)
    (start_time time_limit : Q) (m : Move) (fuel : nat) :
  forall depth best_move t b' t',
    iterative_deepening clock fuel self b start_time time_limit depth best_move t
    = Some (Some m, b', t') ->
    best_move = Some m \/ In m (legal_moves b).
Proof.
  induction fuel as [|fuel IH]; intros depth best t b' t' H; [discriminate|].
  cbn [iterative_deepening] in H.
  destruct (Qltb (clock t - start_time) time_limit).
  - pose proof (search_board clock pop_push self depth b NegInf PosInf
                  (color self) start_time time_limit (S t)) as B.
    pose proof (search_move_legal self b depth NegInf PosInf (color self)
                  start_time time_limit (S t)) as L.
    destruct (alpha_beta_search clock self b depth NegInf PosInf (color self)
                                start_time time_limit (S t)) as [[[x s] b1] t1].
    unfold board_of in B; unfold move_of in L; cbn in B, L; subst b1.
    apply IH in H. destruct H as [H | H]; [|now right].
    destruct x as [x|]; [|now left].
    injection H as ->. right. now apply L.
  - injection H as -> _ _. now left.
Qed.

(** The loop reads the clock at least once, and stops at a reading at which
    the time is up. *)
Lemma iterative_deepening_stops (self : ChessAgent)
    (start_time time_limit : Q) (fuel : nat) :
  forall b depth best_move t r b' t',
    iterative_deepening clock fuel self b start_time time_limit depth best_move t
    = Some (r, b', t') ->
    exists k, t' = S k /\ (t <= k)%nat
              /\ Qltb (clock k - start_time) time_limit = false.
Proof.
  induction fuel as [|fuel IH]; intros b depth best t r b' t' H; [discriminate|].
  cbn [iterative_deepening] in H.
  destruct (Qltb (clock t - start_time) time_limit) eqn:E.
  - pose proof (search_ticks clock self depth b NegInf PosInf (color self)
                  start_time time_limit (S t)) as T.
    destruct (alpha_beta_search clock self b depth NegInf PosInf (color self)
                                start_time time_limit (S t)) as [[[x s] b1] t1].
    unfold ticks_of in T; cbn in T.
    apply IH in H. destruct H as [k [-> [L K]]]. exists k. repeat split; [lia | exact K].
  - injection H as _ _ <-. exists t. repeat split; [lia | exact E].
Qed.

(** The first move scanned displaces the initial [None]. *)
Lemma fallback_scan_finds (self : ChessAgent) (b : Board) :
  legal_moves b <> [] ->
  fst (fallback_scan self (legal_moves b) None NegInf b) <> None.
Proof.
  intro Hne. rewrite fallback_scan_eq by (intros; now apply pop_push). cbn [fst].
  destruct (scan_max_spec (fun move => static_eval self (push b move))
                          (legal_moves b) NegInf None) as [[_ A] | [m [R _]]].
  - destruct (legal_moves b) as [|x l]; [congruence|].
    specialize (A x (or_introl eq_refl)). discriminate.
  - rewrite R. discriminate.
Qed.

(** The search phase of [select_move] (lines 84-107) as a whole. *)
Lemma search_phase_result (fuel : nat) (self : ChessAgent) (b : Board)
    (time_limit : Q) (t : nat) r self' b' t' :
  search_phase clock fuel self b time_limit t = Some (r, self', b', t') ->
  self' = self /\ b' = b /\ (S t < t')%nat
  /\ (forall m, r = Some m -> In m (legal_moves b))
  /\ (legal_moves b <> [] -> r <> None).
Proof.
  unfold search_phase.
  destruct (iterative_deepening clock fuel self b (clock t) time_limit 1 None (S t))
    as [[[x b1] t1]|] eqn:D; [|discriminate].
  pose proof (iterative_deepening_board clock pop_push _ _ _ _ _ _ _ _ D) as ->.
  destruct (iterative_deepening_stops _ _ _ _ _ _ _ _ D) as [k [-> [L _]]].
  destruct x as [x|].
  - intros [= <- <- <- <-]. repeat split; try lia; try discriminate.
    intros m [= <-]. apply iterative_deepening_move in D.
    destruct D; [discriminate | assumption].
  - destruct (fallback_scan self (legal_moves b) None NegInf b) as [x b2] eqn:F.
    assert (B : fallback_scan self (legal_moves b) None NegInf b
                = (fst (fallback_scan self (legal_moves b) None NegInf b), b))
      by (rewrite fallback_scan_eq by (intros; now apply pop_push); reflexivity).
    rewrite F in B. cbn [fst] in B. injection B as ->.
    assert (M : fst (fallback_scan self (legal_moves b) None NegInf b) = x)
      by now rewrite F.
    intros [= <- <- <- <-]. repeat split; try lia.
    + intros m E. rewrite E in M. apply fallback_scan_move in M.
      destruct M; [discriminate | assumption].
    + intro Hne. rewrite <- M. now apply fallback_scan_finds.
Qed.

(** Once the clock runs out the search phase comes to an end. *)
Lemma search_phase_returns (self : ChessAgent) (b : Board) (time_limit : Q) (t : nat) :
  (exists horizon : nat, forall n, (horizon <= n)%nat ->
     Qltb (clock n - clock t) time_limit = false) ->
  exists fuel0, forall fuel, (fuel0 <= fuel)%nat ->
    exists r t', search_phase clock fuel self b time_limit t = Some (r, self, b, t').
Proof.
  intro Hclock.
  destruct (iterative_deepening_ends clock pop_push self b (clock t) time_limit Hclock)
    as [fuel0 Hends].
  exists fuel0. intros fuel Hfuel.
  destruct (Hends fuel 1%nat None (S t) Hfuel) as [r [t' E]].
  unfold search_phase. rewrite E. destruct r as [m|].
  - now exists (Some m), t'.
  - rewrite fallback_scan_eq by (intros; now apply pop_push). now eexists _, t'.
Qed.

(** [select_move] as a whole: board, clock and move. *)
Lemma select_move_result (fuel : nat) (self : ChessAgent) (b : Board)
    (time_limit : Q) (t : nat) r self' b' t' :
  select_move clock fuel self b time_limit t = Some (r, self', b', t') ->
  b' = b /\ (t <= t')%nat
  /\ (forall m, r = Some m -> In m (legal_moves b))
  /\ (legal_moves b <> [] -> r <> None).
Proof.
  unfold select_move.
  destruct (book_move self b) as [[move agent]|] eqn:B.
  - intros [= <- _ <- <-]. apply book_move_cases in B. destruct B as [I _].
    repeat split; [lia | | discriminate]. now intros m [= <-].
  - intro H. apply search_phase_result in H.
    destruct H as (_ & -> & T & L & N). repeat split; auto. lia.
Qed.

(** X1.  Whatever the way a move is chosen (the test opening, Magnus' game,
    the deepening search or the static scan), the move [select_move] returns
    is a legal move of the position it was asked about. *)
Theorem select_move_returns_a_legal_move (fuel : nat) (self : ChessAgent)
    (b : Board) (time_limit : Q) (t : nat)
    (m : Move) (self' : ChessAgent) (b' : Board) (t' : nat) :
  select_move clock fuel self b time_limit t = Some (Some m, self', b', t') ->
  In m (legal_moves b).
Proof.
  unfold select_move.
  destruct (book_move self b) as [[move agent]|] eqn:B.
  - intros [= <- _ _ _]. now apply book_move_cases in B.
  - intro H. apply search_phase_result in H.
    destruct H as (_ & _ & _ & L & _). now apply L.
Qed.

(** X2.  At a position that has a legal move, [select_move] returns a move,
    and a legal one: it comes to an end as soon as the clock runs out, and
    then a scripted source has supplied a move, the deepening search has left
    one behind, or the static scan has kept the first move it saw.  The board
    is as it was. *)
Theorem select_move_finds_a_move (self : ChessAgent) (b : Board)
    (time_limit : Q) (t : nat) :
  legal_moves b <> [] ->
  (exists horizon : nat, forall n, (horizon <= n)%nat ->
     Qltb (clock n - clock t) time_limit = false) ->
  exists fuel0, forall fuel, (fuel0 <= fuel)%nat ->
    exists m self' t',
      select_move clock fuel self b time_limit t = Some (Some m, self', b, t')
      /\ In m (legal_moves b).
Proof.
  intros Hne Hclock. unfold select_move.
  destruct (book_move self b) as [[move agent]|] eqn:B.
  - exists 0%nat. intros fuel _. exists move, agent, t. split; [reflexivity|].
    now apply book_move_cases in B.
  - destruct (search_phase_returns self b time_limit t Hclock) as [fuel0 H].
    exists fuel0. intros fuel Hfuel. destruct (H fuel Hfuel) as [r [t' E]].
    destruct (search_phase_result _ _ _ _ _ E) as (_ & _ & _ & L & N).
    destruct r as [m|]; [|now destruct (N Hne)].
    exists m, self, t'. split; [exact E | now apply L].
Qed.

(** X3.  [select_move] leaves the board as it found it.  A move taken from a
    scripted source is the move the next entry of that source parses to; it
    advances the index of that source, and of no other, by one, within the
    bounds of its list and without a reading of the clock.  A move that is
    searched for leaves the agent as it was and reads the clock at least
    twice. *)
Theorem select_move_frame (fuel : nat) (self : ChessAgent)
    (b : Board) (time_limit : Q) (t : nat)
    (r : option Move) (self' : ChessAgent) (b' : Board) (t' : nat) :
  select_move clock fuel self b time_limit t = Some (r, self', b', t') ->
  b' = b
  /\ ((book_move self b = None /\ self' = self /\ (S t < t')%nat)
      \/ (opening_gate self = true /\ r <> None
          /\ r = scripted b (test_opening_moves self) (opening_moves_played self)
          /\ self' = opening_played self /\ t' = t)
      \/ (opening_gate self = false /\ r <> None
          /\ r = scripted b (magnus_moves self) (magnus_moves_played self)
          /\ self' = magnus_played self /\ t' = t))
  /\ (indices_in_range self -> indices_in_range self').
Proof.
  unfold select_move.
  destruct (book_move self b) as [[move agent]|] eqn:B.
  - intros [= <- <- <- <-]. apply book_move_cases in B.
    destruct B as [_ [(G & -> & Sc & I) | (G & -> & Sc & I)]].
    + split; [reflexivity|]. split.
      * right; left. rewrite Sc. repeat split; auto. discriminate.
      * intros [O M]. split; cbn; lia.
    + split; [reflexivity|]. split.
      * right; right. rewrite Sc. repeat split; auto. discriminate.
      * intros [O M]. split; cbn; lia.
  - intro H. apply search_phase_result in H.
    destruct H as (-> & -> & T & _ & _).
    split; [reflexivity|]. split; [now left | auto].
Qed.

End WithUndo.



End Selection.

(** *** What the score of a search is *)

Section SearchValue.

Context {Hidden : Type} {lib : ChessLib Hidden}.
Variable clock : nat -> Q.

Local Abbreviation Board := (Board Hidden).
Local Abbreviation Outcome := (@Outcome Hidden).

Hypothesis pop_push :
  forall (b : Board) (move : Move), In move (legal_moves b) -> pop (push b move) = b.

(** A property of scores that holds of the initial value and of the score
    of every child holds of the value a loop returns. *)
Lemma maximizing_loop_score
    (search : Board -> Score -> Score -> nat -> Outcome) (b : Board)
    (P : Score -> Prop) :
  (forall b' alpha beta t, board_of (search b' alpha beta t) = b') ->
  forall moves, (forall move, In move moves -> pop (push b move) = b) ->
  (forall move alpha beta t, In move moves ->
     P (score_of (search (push b move) alpha beta t))) ->
  forall value best_move alpha beta t, P value ->
    P (score_of (maximizing_loop search moves value best_move alpha beta b t)).
Proof.
  intros Hb moves. induction moves as [|move rest IH];
    intros Hp Hs value best alpha beta t Pv; [exact Pv|].
  cbn [maximizing_loop].
  specialize (Hb (push b move) alpha beta t).
  pose proof (Hs move alpha beta t (or_introl eq_refl)) as Ps.
  destruct (search (push b move) alpha beta t) as [[[m score] b'] t'].
  unfold board_of in Hb; unfold score_of in Ps; cbn in Hb, Ps; subst b'.
  rewrite (Hp move (or_introl eq_refl)).
  assert (Hp' : forall x, In x rest -> pop (push b x) = b) by (intros; apply Hp; now right).
  assert (Hs' : forall x a be t0, In x rest -> P (score_of (search (push b x) a be t0)))
    by (intros; apply Hs; now right).
  destruct (score_ltb value score);
    match goal with |- context [if ?c then _ else _] => destruct c end;
    try assumption; now apply IH.
Qed.

Lemma minimizing_loop_score
    (search : Board -> Score -> Score -> nat -> Outcome) (b : Board)
    (P : Score -> Prop) :
  (forall b' alpha beta t, board_of (search b' alpha beta t) = b') ->
  forall moves, (forall move, In move moves -> pop (push b move) = b) ->
  (forall move alpha beta t, In move moves ->
     P (score_of (search (push b move) alpha beta t))) ->
  forall value best_move alpha beta t, P value ->
    P (score_of (minimizing_loop search moves value best_move alpha beta b t)).
Proof.
  intros Hb moves. induction moves as [|move rest IH];
    intros Hp Hs value best alpha beta t Pv; [exact Pv|].
  cbn [minimizing_loop].
  specialize (Hb (push b move) alpha beta t).
  pose proof (Hs move alpha beta t (or_introl eq_refl)) as Ps.
  destruct (search (push b move) alpha beta t) as [[[m score] b'] t'].
  unfold board_of in Hb; unfold score_of in Ps; cbn in Hb, Ps; subst b'.
  rewrite (Hp move (or_introl eq_refl)).
  assert (Hp' : forall x, In x rest -> pop (push b x) = b) by (intros; apply Hp; now right).
  assert (Hs' : forall x a be t0, In x rest -> P (score_of (search (push b x) a be t0)))
    by (intros; apply Hs; now right).
  destruct (score_ltb score value);
    match goal with |- context [if ?c then _ else _] => destruct c end;
    try assumption; now apply IH.
Qed.

(** Started from its infinite bound, a loop over at least one move returns
    the score of a child. *)
Lemma maximizing_loop_score_of_child
    (search : Board -> Score -> Score -> nat -> Outcome) (b : Board)
    (P : Score -> Prop) :
  (forall s, P s -> exists x, s = Fin x) ->
  (forall b' alpha beta t, board_of (search b' alpha beta t) = b') ->
  forall moves, moves <> [] ->
  (forall move, In move moves -> pop (push b move) = b) ->
  (forall move alpha beta t, In move moves ->
     P (score_of (search (push b move) alpha beta t))) ->
  forall alpha beta t,
    P (score_of (maximizing_loop search moves NegInf None alpha beta b t)).
Proof.
  intros Hfin Hb [|move rest] Hne Hp Hs alpha beta t; [congruence|].
  cbn [maximizing_loop].
  pose proof (Hb (push b move) alpha beta t) as B.
  pose proof (Hs move alpha beta t (or_introl eq_refl)) as Ps.
  destruct (search (push b move) alpha beta t) as [[[m score] b'] t'].
  unfold board_of in B; unfold score_of in Ps; cbn in B, Ps; subst b'.
  rewrite (Hp move (or_introl eq_refl)).
  destruct (Hfin _ Ps) as [x ->]. cbn [score_ltb].
  match goal with |- context [if ?c then _ else _] => destruct c end;
    [exact Ps|].
  apply maximizing_loop_score; try assumption.
  - intros; apply Hp; now right.
  - intros; apply Hs; now right.
Qed.

Lemma minimizing_loop_score_of_child
    (search : Board -> Score -> Score -> nat -> Outcome) (b : Board)
    (P : Score -> Prop) :
  (forall s, P s -> exists x, s = Fin x) ->
  (forall b' alpha beta t, board_of (search b' alpha beta t) = b') ->
  forall moves, moves <> [] ->
  (forall move, In move moves -> pop (push b move) = b) ->
  (forall move alpha beta t, In move moves ->
     P (score_of (search (push b move) alpha beta t))) ->
  forall alpha beta t,
    P (score_of (minimizing_loop search moves PosInf None alpha beta b t)).
Proof.
  intros Hfin Hb [|move rest] Hne Hp Hs alpha beta t; [congruence|].
  cbn [minimizing_loop].
  pose proof (Hb (push b move) alpha beta t) as B.
  pose proof (Hs move alpha beta t (or_introl eq_refl)) as Ps.
  destruct (search (push b move) alpha beta t) as [[[m score] b'] t'].
  unfold board_of in B; unfold score_of in Ps; cbn in B, Ps; subst b'.
  rewrite (Hp move (or_introl eq_refl)).
  destruct (Hfin _ Ps) as [x ->]. cbn [score_ltb].
  match goal with |- context [if ?c then _ else _] => destruct c end;
    [exact Ps|].
  apply minimizing_loop_score; try assumption.
  - intros; apply Hp; now right.
  - intros; apply Hs; now right.
Qed.

(** X5.  For every window [alpha < beta]: when the deadline fires at none of
    the readings the call takes, a score strictly inside the window is the
    minimax value of the node; a score at or below [alpha] (at or above
    [beta]) tells that the minimax value is at or below [alpha] (at or above
    [beta]) as well. *)
Theorem search_respects_its_window (self : ChessAgent) (b : Board) (depth : nat)
    (alpha beta : Score) (player : Color) (start_time time_limit : Q) (t : nat) :
  let o := alpha_beta_search clock self b depth alpha beta player
                             start_time time_limit t in
  let v := snd (full_minimax self b depth player) in
  score_ltb alpha beta = true ->
  (forall n, (t <= n < ticks_of o)%nat ->
     Qltb time_limit (clock n - start_time) = false) ->
  (score_ltb alpha (score_of o) = true -> score_ltb (score_of o) beta = true ->
   score_of o = v)
  /\ (score_ltb alpha (score_of o) = false -> score_ltb alpha v = false)
  /\ (score_ltb (score_of o) beta = false -> score_ltb v beta = false).
Proof.
  intros o v Hab U.
  destruct (search_within pop_push self player depth b alpha beta Hab U)
    as (Low & Mid & High).
  fold o v in Low, Mid, High.
  destruct (score_ltb alpha v) eqn:A, (score_ltb v beta) eqn:B.
  - rewrite (Mid eq_refl eq_refl). repeat split; congruence.
  - specialize (High eq_refl).
    pose proof (score_ltb_le_trans _ _ _ Hab High).
    repeat split; congruence.
  - specialize (Low eq_refl).
    pose proof (score_le_ltb_trans _ _ _ Low Hab).
    repeat split; congruence.
  - pose proof (score_le_ltb_trans _ _ _ A Hab). congruence.
Qed.

Section EveryScore.

(** A position without legal moves is checkmate or stalemate, so the game is
    over there. *)
Hypothesis game_over_without_moves :
  forall b : Board, is_game_over b = false -> legal_moves b <> [].

(** X6.  The score a search returns is never an infinity: it is the static
    evaluation, with the default [depth] of [evaluate], of a position reached
    from the root by at most [depth] legal moves. *)
Theorem search_score_is_an_evaluation (self : ChessAgent) (depth : nat) :
  forall (b : Board) (alpha beta : Score) (player : Color)
         (start_time time_limit : Q) (t : nat),
  exists b',
    reachable b depth b'
    /\ score_of (alpha_beta_search clock self b depth alpha beta player
                                   start_time time_limit t)
       = Fin (static_eval self b').
Proof.
  induction depth as [|depth IH]; intros b alpha beta player start_time time_limit t.
  - cbn. rewrite leaf_eq. exists b. split; [constructor | reflexivity].
  - cbn [alpha_beta_search].
    destruct (is_game_over b) eqn:G.
    { rewrite leaf_eq. exists b. split; [constructor | reflexivity]. }
    destruct (Qltb time_limit (clock t - start_time)).
    { rewrite leaf_eq. exists b. split; [constructor | reflexivity]. }
    pose proof (game_over_without_moves b G) as Hne.
    set (P := fun s : Score =>
                exists b', reachable b (S depth) b' /\ s = Fin (static_eval self b')).
    assert (Hfin : forall s, P s -> exists x, s = Fin x)
      by (intros s (b' & _ & ->); now eexists).
    assert (Hs : forall move a be t0, In move (legal_moves b) ->
              P (score_of (alpha_beta_search clock self (push b move) depth a be
                                             player start_time time_limit t0))).
    { intros move a be t0 I.
      destruct (IH (push b move) a be player start_time time_limit t0) as (b' & R & E).
      exists b'. split; [now apply reach_step with move | exact E]. }
    destruct (Bool.eqb (turn b) player);
      match goal with
      | |- exists b', _ /\ score_of ?o = _ => change (P (score_of o))
      end.
    + apply maximizing_loop_score_of_child; try assumption.
      * intros. apply (search_board clock pop_push).
      * intros. now apply pop_push.
    + apply minimizing_loop_score_of_child; try assumption.
      * intros. apply (search_board clock pop_push).
      * intros. now apply pop_push.
Qed.

End EveryScore.

(** The readings of the clock a loop takes are those of the calls for its
    moves, as far as it gets. *)
Lemma maximizing_loop_readings
    (search : Board -> Score -> Score -> nat -> Outcome) (b : Board)
    (nodes : Board -> nat) :
  (forall b' alpha beta t, board_of (search b' alpha beta t) = b') ->
  (forall b' alpha beta t, (ticks_of (search b' alpha beta t) <= t + nodes b')%nat) ->
  forall moves, (forall move, In move moves -> pop (push b move) = b) ->
  forall value best_move alpha beta t,
    (ticks_of (maximizing_loop search moves value best_move alpha beta b t)
     <= t + list_sum (map (fun move => nodes (push b move)) moves))%nat.
Proof.
  intros Hb Ht moves. induction moves as [|move rest IH];
    intros Hp value best alpha beta t; [cbn; lia|].
  cbn [maximizing_loop map list_sum fold_right].
  specialize (Hb (push b move) alpha beta t).
  specialize (Ht (push b move) alpha beta t).
  destruct (search (push b move) alpha beta t) as [[[m score] b'] t'].
  unfold board_of in Hb; unfold ticks_of in Ht; cbn in Hb, Ht; subst b'.
  rewrite (Hp move (or_introl eq_refl)).
  assert (Hp' : forall x, In x rest -> pop (push b x) = b)
    by (intros; apply Hp; now right).
  destruct (score_ltb value score);
    match goal with |- context [if ?c then _ else _] => destruct c end;
    try (unfold ticks_of; cbn; lia);
    match goal with
    | |- (ticks_of (maximizing_loop _ _ ?v ?bm ?a _ _ _) <= _)%nat =>
        specialize (IH Hp' v bm a beta t'); unfold list_sum in IH; lia
    end.
Qed.

Lemma minimizing_loop_readings
    (search : Board -> Score -> Score -> nat -> Outcome) (b : Board)
    (nodes : Board -> nat) :
  (forall b' alpha beta t, board_of (search b' alpha beta t) = b') ->
  (forall b' alpha beta t, (ticks_of (search b' alpha beta t) <= t + nodes b')%nat) ->
  forall moves, (forall move, In move moves -> pop (push b move) = b) ->
  forall value best_move alpha beta t,
    (ticks_of (minimizing_loop search moves value best_move alpha beta b t)
     <= t + list_sum (map (fun move => nodes (push b move)) moves))%nat.
Proof.
  intros Hb Ht moves. induction moves as [|move rest IH];
    intros Hp value best alpha beta t; [cbn; lia|].
  cbn [minimizing_loop map list_sum fold_right].
  specialize (Hb (push b move) alpha beta t).
  specialize (Ht (push b move) alpha beta t).
  destruct (search (push b move) alpha beta t) as [[[m score] b'] t'].
  unfold board_of in Hb; unfold ticks_of in Ht; cbn in Hb, Ht; subst b'.
  rewrite (Hp move (or_introl eq_refl)).
  assert (Hp' : forall x, In x rest -> pop (push b x) = b)
    by (intros; apply Hp; now right).
  destruct (score_ltb score value);
    match goal with |- context [if ?c then _ else _] => destruct c end;
    try (unfold ticks_of; cbn; lia);
    match goal with
    | |- (ticks_of (minimizing_loop _ _ ?v ?bm _ ?be _ _) <= _)%nat =>
        specialize (IH Hp' v bm alpha be t'); unfold list_sum in IH; lia
    end.
Qed.

(** X7.  Pruning and the deadline only ever save work: whatever the window and
    the deadline, a search of [depth] plies reads the clock, once at each node
    it enters at a positive depth with the game not over, at most as often as
    the full tree of that depth has such nodes. *)
Theorem search_enters_no_more_nodes_than_the_full_tree (self : ChessAgent)
    (depth : nat) :
  forall (b : Board) (alpha beta : Score) (player : Color)
         (start_time time_limit : Q) (t : nat),
    (ticks_of (alpha_beta_search clock self b depth alpha beta player
                                 start_time time_limit t)
     <= t + inner_nodes b depth)%nat.
Proof.
  induction depth as [|depth IH]; intros b alpha beta player start_time time_limit t.
  - cbn. rewrite leaf_eq. cbn. lia.
  - cbn [alpha_beta_search inner_nodes].
    destruct (is_game_over b); [rewrite leaf_eq; cbn; lia|].
    destruct (Qltb time_limit (clock t - start_time)); [rewrite leaf_eq; cbn; lia|].
    rewrite Nat.add_succ_r, <- Nat.add_succ_l.
    destruct (Bool.eqb (turn b) player).
    + apply maximizing_loop_readings with (nodes := fun b' => inner_nodes b' depth).
      * intros. apply (search_board clock pop_push).
      * intros. apply IH.
      * intros. now apply pop_push.
    + apply minimizing_loop_readings with (nodes := fun b' => inner_nodes b' depth).
      * intros. apply (search_board clock pop_push).
      * intros. apply IH.
      * intros. now apply pop_push.
Qed.

(** X8.  With a budget of zero or less and a clock that does not run
    backwards, [select_move] makes no search call at all: it reads the clock
    twice and answers with the static scan of the legal moves. *)
Theorem select_move_without_time (fuel : nat) (self : ChessAgent) (b : Board)
    (time_limit : Q) (t : nat) :
  book_move self b = None ->
  time_limit <= 0 ->
  clock t <= clock (S t) ->
  select_move clock (S fuel) self b time_limit t
  = Some (fst (fallback_scan self (legal_moves b) None NegInf b), self, b, S (S t)).
Proof.
  intros Hbook Hlimit Hclock. unfold select_move, search_phase. rewrite Hbook.
  cbn [iterative_deepening].
  assert (E : Qltb (clock (S t) - clock t) time_limit = false)
    by (apply Qltb_ge; lra).
  rewrite E.
  rewrite fallback_scan_eq by (intros; now apply pop_push). reflexivity.
Qed.

End SearchValue.

(** *** More on the evaluator *)


Lemma fold_left_keeps (A : Type) (P : Q -> Prop) (f : Q -> A -> Q) (l : list A) :
  (forall s x, P s -> P (f s x)) -> forall a, P a -> P (fold_left f l a).
Proof.
  intro H. induction l as [|x l IH]; intros a Pa; cbn [fold_left]; auto.
Qed.


Lemma len_above_one (A : Type) (l : list A) :
  (1 <? length l)%nat = true -> 2 <= len l.
Proof.
  intro H. apply Nat.ltb_lt in H. unfold len.
  change 2 with (inject_Z 2). rewrite <- Zle_Qle. lia.
Qed.

Section Evaluation.

Context {Hidden : Type} {lib : ChessLib Hidden}.

Local Abbreviation Board := (Board Hidden).



(** X10.  At a position that ends the game in the evaluator's eyes (checkmate,
    stalemate, insufficient material) the two colours are given opposite
    values, whatever [depth] is passed. *)
Theorem terminal_values_change_sign (self : ChessAgent) (b : Board) (depth : Z) :
  is_checkmate b || is_stalemate b || is_insufficient_material b = true ->
  fst (evaluate (opponent self) b depth) == - fst (evaluate self b depth).
Proof.
  intro T. unfold evaluate. cbn [opponent color].
  destruct (is_checkmate b).
  - destruct (turn b), (color self); cbn; ring.
  - cbn [orb] in T. rewrite T. cbn. ring.
Qed.

(** X11.  The three one-sided bonuses (counter-threats, capture opportunities,
    coordination) never lower the score. *)
Theorem one_sided_bonuses_are_not_negative (self : ChessAgent) (b : Board) :
  0 <= block self b CounterThreat
  /\ 0 <= block self b CaptureChance
  /\ 0 <= block self b Coordination.
Proof.
  cbn [block]. repeat split.
  - unfold counter_threat_bonus.
    apply (fold_left_keeps (fun s => 0 <= s)); [|lra].
    intros s [sq piece] Ps.
    destruct (Bool.eqb (piece_color piece) (color self)); [|exact Ps].
    destruct (attackers b (negb (color self)) sq); [exact Ps|].
    apply (fold_left_keeps (fun s => 0 <= s)); [|exact Ps].
    intros s' [enemy_sq enemy_piece] Ps'. cbv zeta.
    destruct (negb _ && _); [|exact Ps'].
    destruct (Qltb _ _) eqn:L; [|exact Ps'].
    apply Qltb_lt in L. lra.
  - unfold capture_opportunities, piece_values. cbn [map fold_left PieceType_eqb].
    repeat (apply (fold_left_keeps (fun s => 0 <= s));
            [intros s sq Ps; destruct (_ <? _)%nat; [cbn [piece_value]; lra | exact Ps]|]).
    lra.
  - unfold coordination.
    apply (fold_left_keeps (fun s => 0 <= s)); [|lra].
    intros s [sq piece] Ps.
    destruct (Bool.eqb (piece_color piece) (color self)); [|exact Ps].
    cbv zeta. destruct (1 <? _)%nat eqn:L; [|exact Ps].
    apply len_above_one in L. lra.
Qed.

(** X12.  The central control lies between -0.8 and 0.8.  The three penalties
    (for a capture that wins nothing, for a position without activity, for a
    capture from a dominant position) take off 3 at most, and the second and
    the third never apply together. *)
Theorem bounded_blocks (self : ChessAgent) (b : Board) :
  (- 0.8 <= block self b CentralControl <= 0.8)
  /\ (- 3 <= block self b NonPositiveCapture + block self b PositionalImprovement
             + block self b DominantCapture <= 0)
  /\ (block self b PositionalImprovement == 0 \/ block self b DominantCapture == 0).
Proof.
  cbn [block]. split; [|split].
  - unfold central_control, central_squares, central_control_bonus. cbn [fold_left].
    repeat match goal with
           | |- context [is_attacked_by b ?c ?sq] =>
               destruct (is_attacked_by b c sq)
           end; lra.
  - unfold non_positive_capture.
    assert (N : - 1 <= match peek b with
                       | Some last_move =>
                           if negb (Bool.eqb (turn b) (color self)) && is_capture b last_move
                           then if Qltb (material self b) 1 then - 1.0 else 0
                           else 0
                       | None => 0
                       end <= 0).
    { destruct (peek b); [|lra]. destruct (_ && _); [|lra].
      destruct (Qltb _ 1); lra. }
    destruct (Qltb (pos_metric self b) 0.5) eqn:Low,
             (Qltb 3.0 (pos_metric self b)) eqn:High.
    + apply Qltb_lt in Low, High. lra.
    + lra.
    + destruct (peek b); [destruct (is_capture b _)|]; lra.
    + lra.
  - destruct (Qltb (pos_metric self b) 0.5) eqn:Low; [right | now left].
    destruct (Qltb 3.0 (pos_metric self b)) eqn:High; [|reflexivity].
    apply Qltb_lt in Low, High. lra.
Qed.

(** X13.  The forced-mate block counts the moves of the opponent's king among
    the legal moves of the side to move.  When the agent itself is to move,
    every legal move starts from a piece of the agent, the count is 0 and the
    block gives the full 500, plus 100 for a king on the rim and 20 when
    [is_check] holds. *)
Theorem confinement_is_not_measured_on_own_turn (self : ChessAgent) (b : Board) :
  length (pieces b KING (negb (color self))) = 1%nat ->
  turn b = color self ->
  (forall move, In move (legal_moves b) ->
     exists piece, piece_at b (from_square move) = Some piece
                   /\ piece_color piece = turn b) ->
  (exists piece, piece_at b (king b (negb (color self))) = Some piece
                 /\ piece_color piece = negb (color self)) ->
  block self b ForcedMate
  == 500 + (if on_rim (king b (negb (color self))) then 100 else 0)
     + (if is_check b then 20 else 0).
Proof.
  intros One Turn From [king_piece [At Col]].
  cbn [block]. unfold forced_mate_heuristic. rewrite One. cbn [Nat.eqb].
  assert (E : filter (fun move => Z.eqb (from_square move) (king b (negb (color self))))
                     (legal_moves b) = []).
  { induction (legal_moves b) as [|move rest IH]; [reflexivity|].
    cbn [filter].
    destruct (Z.eqb (from_square move) (king b (negb (color self)))) eqn:Q.
    - exfalso. apply Z.eqb_eq in Q.
      destruct (From move (or_introl eq_refl)) as [piece [At' Col']].
      rewrite Q, At in At'. injection At' as <-.
      rewrite Col, Turn in Col'. now destruct (color self).
    - apply IH. intros m I. apply From. now right. }
  rewrite E. rewrite Turn, Bool.eqb_reflx. unfold on_rim, len. cbn [length Z.of_nat].
  destruct (Z.eqb (square_file _) 0), (Z.eqb (square_file _) 7),
           (Z.eqb (square_rank _) 0), (Z.eqb (square_rank _) 7), (is_check b);
    cbn [orb]; ring.
Qed.

End Evaluation.

(** ** Properties of the move book *)

(** *** Strings *)

Lemma no_space_cons (c : ascii) (s : string) :
  no_space (String c s) <-> isspace c = false /\ no_space s.
Proof.
  unfold no_space. cbn [list_ascii_of_string forallb].
  rewrite andb_true_iff, negb_true_iff. reflexivity.
Qed.

Lemma no_space_lstrip (p : ascii -> bool) (s : string) :
  no_space s -> no_space (lstrip p s).
Proof.
  induction s as [|c s IH]; intro H; cbn [lstrip]; [exact H|].
  destruct (p c); [|exact H]. apply IH. now apply no_space_cons in H.
Qed.

Lemma no_space_rstrip (p : ascii -> bool) (s : string) :
  no_space s -> no_space (rstrip p s).
Proof.
  induction s as [|c s IH]; intro H; cbn [rstrip]; [exact H|].
  apply no_space_cons in H. destruct H as [C H]. specialize (IH H).
  destruct (rstrip p s) as [|c' kept].
  - destruct (p c); [reflexivity | now apply no_space_cons].
  - now apply no_space_cons.
Qed.

Lemma lstrip_first (p : ascii -> bool) (s : string) (c : ascii) :
  first_char (lstrip p s) = Some c -> p c = false.
Proof.
  induction s as [|a s IH]; cbn [lstrip]; [discriminate|].
  destruct (p a) eqn:P; [exact IH|]. cbn. now intros [= <-].
Qed.

Lemma rstrip_first (p : ascii -> bool) (s : string) (c : ascii) :
  first_char (rstrip p s) = Some c -> first_char s = Some c.
Proof.
  destruct s as [|a s]; cbn [rstrip]; [discriminate|].
  destruct (rstrip p s); [destruct (p a)|]; cbn; congruence.
Qed.

Lemma rstrip_last (p : ascii -> bool) (s : string) (c : ascii) :
  last_char (rstrip p s) = Some c -> p c = false.
Proof.
  induction s as [|a s IH]; cbn [rstrip]; [discriminate|].
  destruct (rstrip p s) as [|x kept].
  - destruct (p a) eqn:P; cbn; [discriminate | now intros [= <-]].
  - exact IH.
Qed.

Lemma strip_ends (p : ascii -> bool) (s : string) (c : ascii) :
  first_char (strip p s) = Some c \/ last_char (strip p s) = Some c -> p c = false.
Proof.
  unfold strip. intros [F | L].
  - apply rstrip_first in F. now apply lstrip_first in F.
  - now apply rstrip_last in L.
Qed.

Lemma no_space_extend (c : ascii) (fields : list string) :
  isspace c = false -> Forall no_space fields -> Forall no_space (extend c fields).
Proof.
  intros C F. destruct fields as [|field rest]; cbn [extend].
  - constructor; [|constructor]. now apply no_space_cons.
  - inversion F; subst. constructor; [now apply no_space_cons | assumption].
Qed.

Lemma re_split_spaces_no_space (s : string) : Forall no_space (re_split_spaces s).
Proof.
  induction s as [|c s IH]; cbn [re_split_spaces].
  - constructor; [reflexivity | constructor].
  - destruct (isspace c) eqn:C.
    + destruct s as [|c' s']; [constructor; [reflexivity | exact IH]|].
      destruct (isspace c'); [exact IH | constructor; [reflexivity | exact IH]].
    + now apply no_space_extend.
Qed.




(** *** Slices *)

Lemma every_second_cons (A : Type) (x : A) (l : list A) :
  every_second (x :: l) = x :: every_second (tl l).
Proof. destruct l; reflexivity. Qed.

Lemma pairwise_ind (A : Type) (P : list A -> Prop) :
  P [] -> (forall x, P [x]) -> (forall x y l, P l -> P (x :: y :: l)) ->
  forall l, P l.
Proof.
  intros H0 H1 H2 l.
  assert (B : P l /\ forall x, P (x :: l)).
  { induction l as [|y l [IH IH']]; [split; auto|].
    split; [apply IH' | intro x; now apply H2]. }
  exact (proj1 B).
Qed.

Lemma interleave_slices (A : Type) (l : list A) :
  interleave (from_step2 0 l) (from_step2 1 l) = l.
Proof.
  unfold from_step2. cbn [skipn].
  induction l as [| x | x y l IH] using pairwise_ind; try reflexivity.
  change (skipn 1 (x :: y :: l)) with (y :: l).
  rewrite (every_second_cons y l). cbn [every_second interleave].
  f_equal. f_equal.
  destruct l as [|z l]; [reflexivity|]. exact IH.
Qed.

Lemma slices_lengths (A : Type) (l : list A) :
  (length (from_step2 1 l) <= length (from_step2 0 l) <= S (length (from_step2 1 l)))%nat.
Proof.
  unfold from_step2. cbn [skipn].
  induction l as [| x | x y l IH] using pairwise_ind; cbn; try lia.
  change (match l with [] => [y] | _ :: rest => y :: every_second rest end)
    with (every_second (y :: l)).
  rewrite (every_second_cons y l). cbn [length].
  destruct l as [|z l]; cbn in *; lia.
Qed.

Lemma every_second_In (A : Type) (x : A) (l : list A) :
  In x (every_second l) -> In x l.
Proof.
  induction l as [| y | y z l IH] using pairwise_ind; cbn; tauto.
Qed.

Lemma from_step2_In (A : Type) (start : nat) (x : A) (l : list A) :
  In x (from_step2 start l) -> In x l.
Proof.
  unfold from_step2. intro I. apply every_second_In in I.
  revert I. clear. revert l. induction start as [|n IH]; intros l; cbn; [auto|].
  destruct l as [|y l]; [auto|]. intro I. right. now apply IH.
Qed.

(** *** Dictionaries *)

Lemma dict_get_set (V : Type) (d : list (string * V)) (key key' : string) (value : V) :
  dict_get (dict_set d key value) key'
  = if String.eqb key key' then Some value else dict_get d key'.
Proof.
  induction d as [|[k v] d IH]; cbn [dict_set dict_get].
  - destruct (String.eqb key key'); reflexivity.
  - destruct (String.eqb k key) eqn:K; cbn [dict_get].
    + apply String.eqb_eq in K. subst k.
      destruct (String.eqb key key'); reflexivity.
    + destruct (String.eqb k key') eqn:K'; [|exact IH].
      apply String.eqb_eq in K'. subst k.
      rewrite String.eqb_sym in K. now rewrite K.
Qed.

(** *** The openings *)

(** The loop of lines 48-56 keeps, in order, the stripped tokens that are
    neither numbers nor the word etc. *)
Lemma example_moves_eq (move_sequence : string) :
  example_moves move_sequence
  = filter (fun token =>
              negb (isdigit token)
              && negb (existsb (String.eqb (lower token)) ["etc"%string; "etc."%string]))
           (map (strip (one_of ".,")) (re_split_spaces (strip isspace move_sequence))).
Proof.
  unfold example_moves. cbv zeta.
  set (keep := fun token =>
                 negb (isdigit token)
                 && negb (existsb (String.eqb (lower token))
                                  ["etc"%string; "etc."%string])).
  assert (G : forall tokens moves,
             fold_left
               (fun moves token =>
                  if isdigit (strip (one_of ".,") token) then moves
                  else if existsb (String.eqb (lower (strip (one_of ".,") token)))
                                  ["etc"%string; "etc."%string]
                  then moves
                  else moves ++ [strip (one_of ".,") token])
               tokens moves
             = moves ++ filter keep (map (strip (one_of ".,")) tokens)).
  { induction tokens as [|token tokens IH]; intro moves; cbn [fold_left map filter].
    - now rewrite app_nil_r.
    - rewrite IH. unfold keep at 2. destruct (isdigit _); cbn [negb andb]; [reflexivity|].
      destruct (existsb _ _); cbn [negb]; [reflexivity|].
      now rewrite <- app_assoc. }
  apply G.
Qed.

Lemma example_moves_tidy (move_sequence token : string) :
  In token (example_moves move_sequence) -> tidy token.
Proof.
  rewrite example_moves_eq. intro I. apply filter_In in I. destruct I as [I K].
  apply in_map_iff in I. destruct I as [raw [<- I]].
  apply andb_prop in K. destruct K as [D E].
  apply negb_true_iff in D, E.
  pose proof (re_split_spaces_no_space (strip isspace move_sequence)) as F.
  rewrite Forall_forall in F. specialize (F raw I).
  split; [|split; [|split; [|split]]].
  - unfold strip. now apply no_space_rstrip, no_space_lstrip.
  - intros c H. apply (strip_ends (one_of ".,") raw). now left.
  - intros c H. apply (strip_ends (one_of ".,") raw). now right.
  - exact D.
  - intro L. rewrite L in E. discriminate.
Qed.

(** What [_convert_ecocodes_to_dict] keeps for a code: the entry made from
    the last row that carries it. *)
Lemma convert_get (rows : list EcoRow) (code : string) :
  forall d,
    dict_get
      (fold_left
         (fun openings_dict row =>
            dict_set openings_dict (eco row)
                     (mkOpening (from_step2 0 (example_moves (eco_example row)))
                                (from_step2 1 (example_moves (eco_example row)))))
         rows d) code
    = match last_row rows code with
      | Some row => Some (mkOpening (from_step2 0 (example_moves (eco_example row)))
                                    (from_step2 1 (example_moves (eco_example row))))
      | None => dict_get d code
      end.
Proof.
  induction rows as [|row rows IH]; intro d; cbn [fold_left last_row]; [reflexivity|].
  rewrite IH. destruct (last_row rows code); [reflexivity|].
  rewrite dict_get_set. destruct (String.eqb (eco row) code); reflexivity.
Qed.

Lemma get_opening_moves_eq (moves_white moves_black : list (option string))
    (rows : list EcoRow) (code : string) (c : Color) :
  get_opening_moves (MoveBook_init moves_white moves_black rows) code c
  = match last_row rows code with
    | Some row => from_step2 (if c then 0 else 1) (example_moves (eco_example row))
    | None => []
    end.
Proof.
  unfold get_opening_moves, MoveBook_init, _convert_ecocodes_to_dict.
  cbn [openings]. cbv zeta. rewrite convert_get.
  destruct (last_row rows code); [|reflexivity].
  cbn [white_moves black_moves]. now destruct c.
Qed.

(** X14.  For a code no row carries the book answers with the empty list; for
    a code carried by several rows the last one counts, the earlier ones are
    overwritten.  White is given the moves at the even places of that row's
    example, Black those at the odd places. *)
Theorem opening_moves_come_from_the_last_row
    (moves_white moves_black : list (option string)) (rows : list EcoRow)
    (code : string) (c : Color) :
  let book := MoveBook_init moves_white moves_black rows in
  ((forall row, In row rows -> eco row <> code) ->
   get_opening_moves book code c = [])
  /\ (forall before row after,
        rows = before ++ row :: after -> eco row = code ->
        (forall later, In later after -> eco later <> code) ->
        get_opening_moves book code c
        = from_step2 (if c then 0 else 1) (example_moves (eco_example row))).
Proof.
  cbv zeta. rewrite get_opening_moves_eq. split.
  - intro H. replace (last_row rows code) with (@None EcoRow); [reflexivity|].
    induction rows as [|row rows IH]; [reflexivity|]. cbn [last_row].
    rewrite <- IH by (intros; apply H; now right).
    destruct (String.eqb (eco row) code) eqn:E; [|reflexivity].
    apply String.eqb_eq in E. now destruct (H row (or_introl eq_refl)).
  - intros before row after -> E H.
    replace (last_row (before ++ row :: after) code) with (Some row); [reflexivity|].
    assert (A : last_row after code = None).
    { induction after as [|x after IH]; [reflexivity|]. cbn [last_row].
      rewrite IH by (intros; apply H; now right).
      destruct (String.eqb (eco x) code) eqn:X; [|reflexivity].
      apply String.eqb_eq in X. now destruct (H x (or_introl eq_refl)). }
    induction before as [|x before IH]; cbn [app last_row].
    + rewrite A. apply String.eqb_eq in E. now rewrite E.
    + now rewrite <- IH.
Qed.

(** X15.  Every move the book hands out for an opening is tidy: it holds no
    whitespace, neither starts nor ends with a full stop or a comma, is not a
    number and is not the word etc. *)
Theorem opening_moves_are_tidy
    (moves_white moves_black : list (option string)) (rows : list EcoRow)
    (code : string) (c : Color) (token : string) :
  In token (get_opening_moves (MoveBook_init moves_white moves_black rows) code c) ->
  tidy token.
Proof.
  rewrite get_opening_moves_eq. destruct (last_row rows code) as [row|]; [|intros []].
  intro I. apply from_step2_In in I. now apply example_moves_tidy in I.
Qed.

(** X16.  The two colours share the moves of an example line between them:
    taken in turn, White's list first, they give back the line move by move,
    and White's list is as long as Black's or one longer. *)
Theorem opening_moves_alternate
    (moves_white moves_black : list (option string)) (rows : list EcoRow)
    (code : string) :
  let book := MoveBook_init moves_white moves_black rows in
  interleave (get_opening_moves book code WHITE) (get_opening_moves book code BLACK)
  = match last_row rows code with
    | Some row => example_moves (eco_example row)
    | None => []
    end
  /\ (length (get_opening_moves book code BLACK)
      <= length (get_opening_moves book code WHITE)
      <= S (length (get_opening_moves book code BLACK)))%nat.
Proof.
  cbv zeta. rewrite !get_opening_moves_eq.
  destruct (last_row rows code) as [row|]; cbn [WHITE BLACK].
  - split; [apply interleave_slices | apply slices_lengths].
  - split; [reflexivity | cbn; lia].
Qed.

(** *** Magnus' games *)


Lemma sample_some (A : Type) (frame : list A) (draw : nat) :
  frame <> [] -> exists row, sample frame draw = Some row.
Proof.
  intro H. unfold sample. destruct frame as [|x frame]; [congruence|].
  destruct (nth_error (x :: frame) (draw mod length (x :: frame))) as [row|] eqn:N.
  - now exists row.
  - apply nth_error_None in N.
    pose proof (Nat.mod_upper_bound draw (length (x :: frame))) as U.
    cbn [length] in *. lia.
Qed.


(** ** The agent from its construction on *)

Section AgentLife.

Context {Hidden : Type} {lib : ChessLib Hidden}.
Variable clock : nat -> Q.

(** X18.  An agent is made with both indices at 0.  Whatever calls of
    [select_move] follow, neither index ever runs past the end of its list,
    the colour and the two lists stay what the constructor made them, and
    [failed_moves_count] stays 0.  Only one of the two sources is ever used:
    White with a test opening never takes a move from Magnus' game, not even
    when the opening is exhausted, and any other agent never takes one from
    the test opening. *)
Theorem indices_stay_in_range (c : Color) (book : MoveBook)
    (test_opening_code : option string) (draw : nat) (made self : ChessAgent) :
  ChessAgent_init c (Some book) test_opening_code draw = Some made ->
  later clock made self ->
  indices_in_range self
  /\ color self = c
  /\ test_opening_moves self = test_opening_moves made
  /\ magnus_moves self = magnus_moves made
  /\ failed_moves_count self = 0%nat
  /\ (if opening_gate made then magnus_moves_played self = 0%nat
      else opening_moves_played self = 0%nat).
Proof.
  intros Init L. induction L as [| self' self'' fuel b b' tl t t' r L IH Call].
  - injection Init as <-. unfold indices_in_range. cbn.
    repeat split; try lia. now destruct (opening_gate _).
  - destruct IH as ([O M] & C & T & G & F & Used).
    assert (Gate : opening_gate self' = opening_gate made).
    { unfold opening_gate. rewrite C, T.
      injection Init as <-. reflexivity. }
    unfold select_move in Call.
    destruct (book_move self' b) as [[move agent]|] eqn:B.
    + injection Call as _ <- _ _. apply book_move_cases in B.
      rewrite Gate in B.
      destruct B as [_ [(Open & -> & _ & I) | (Open & -> & _ & I)]];
        rewrite Open in Used;
        unfold indices_in_range; cbn; rewrite Open; repeat split; auto; lia.
    + apply search_phase_keeps_agent in Call. subst self''.
      unfold indices_in_range. repeat split; auto.
Qed.

End AgentLife.

(** ** Properties of the match *)

Section MatchProperties.

Context {Hidden : Type} {lib : ChessLib Hidden}.
Variable clock : nat -> Q.
Variable new_board : Board Hidden.
Variable result : Board Hidden -> string.

Local Abbreviation Board := (Board Hidden).
Local Abbreviation Match := (Match Hidden).

Lemma max0_nonneg (x : Q) : 0 <= max0 x.
Proof.
  unfold max0. destruct (Qltb 0 x) eqn:L; [apply Qltb_lt in L|]; lra.
Qed.

Lemma play_turn_keeps_clocks_positive (think : nat) (self : Match) (t : nat)
    (self' : Match) (t' : nat) :
  0 < white_clock self -> 0 < black_clock self ->
  play_turn clock think self t = Some (Played self' t') ->
  0 < white_clock self' /\ 0 < black_clock self'.
Proof.
  intros W B. unfold play_turn.
  destruct (Qle_bool _ 0); [discriminate|].
  destruct (select_move clock think _ (board self) _ (S t))
    as [[[[[move|] agent] b1] t1]|]; try discriminate.
  intros [= <- _]. cbn [white_clock black_clock].
  pose proof (max0_nonneg (white_clock self - (clock t1 - clock t))).
  pose proof (max0_nonneg (black_clock self - (clock t1 - clock t))).
  destruct (Bool.eqb (turn b1) WHITE); split; lra.
Qed.

Lemma play_turn_flags_an_empty_clock (think : nat) (self : Match) (t : nat)
    (self' : Match) (t' : nat) :
  play_turn clock think self t = Some (Flagged self' t') ->
  white_clock self <= 0 \/ black_clock self <= 0.
Proof.
  unfold play_turn.
  destruct (Qle_bool _ 0) eqn:E.
  - intros _. apply Qle_bool_iff in E.
    destruct (Bool.eqb (turn (board self)) WHITE); auto.
  - destruct (select_move clock think _ (board self) _ (S t))
      as [[[[[move|] agent] b1] t1]|]; discriminate.
Qed.

(** X19.  No side is ever flagged in a match: both clocks start at 10, and a
    side that has moved is left with at least the increment of 0.1, so the
    test for an exhausted clock never succeeds and [play] never ends by
    [break]. *)
Theorem nobody_is_flagged (think fuel : nat) (white black : ChessAgent) (t : nat)
    (outcome : string) (self' : Match) (t' : nat) :
  play clock result think fuel (Match_init new_board white black) t
  <> Some (Returned outcome true, self', t').
Proof.
  assert (G : forall fuel self t,
             0 < white_clock self -> 0 < black_clock self ->
             play clock result think fuel self t
             <> Some (Returned outcome true, self', t')).
  { clear fuel t. induction fuel as [|fuel IH]; intros self t W B; [discriminate|].
    cbn [play]. destruct (negb (is_game_over (board self))); [|discriminate].
    destruct (play_turn clock think self t) as [[m1 t1 | m1 t1 | m1 t1]|] eqn:P;
      try discriminate.
    - apply play_turn_flags_an_empty_clock in P. lra.
    - destruct (play_turn_keeps_clocks_positive _ _ _ W B P). now apply IH. }
  apply G; reflexivity.
Qed.

Section WithRules.

Hypothesis pop_push :
  forall (b : Board) (move : Move), In move (legal_moves b) -> pop (push b move) = b.

(** One pass through the loop, when it is not cut short by the flag: the
    board the agent hands back, the ticks, and the two clocks. *)
Lemma play_turn_played (think : nat) (self : Match) (t : nat)
    (self' : Match) (t' : nat) :
  play_turn clock think self t = Some (Played self' t') ->
  0 < time_to_move self
  /\ exists move agent t1,
       select_move clock think (agent_to_move self) (board self)
                   (time_to_move self) (S t)
       = Some (Some move, agent, board self, t1)
       /\ (S t <= t1)%nat /\ t' = S t1
       /\ In move (legal_moves (board self))
       /\ board self' = push (board self) move
       /\ let spent := max0 (time_to_move self - (clock t1 - clock t)) + 0.1 in
          if Bool.eqb (turn (board self)) WHITE
          then white_clock self' = spent /\ black_clock self' = black_clock self
          else black_clock self' = spent /\ white_clock self' = white_clock self.
Proof.
  unfold play_turn. fold (agent_to_move self) (time_to_move self).
  destruct (Qle_bool (time_to_move self) 0) eqn:A; [discriminate|].
  assert (Pos : 0 < time_to_move self).
  { apply Qnot_le_lt. intro L. apply Qle_bool_iff in L. congruence. }
  destruct (select_move clock think (agent_to_move self) (board self)
                        (time_to_move self) (S t))
    as [[[[r agent] b1] t1]|] eqn:Sel; [|discriminate].
  destruct (select_move_result clock pop_push _ _ _ _ _ Sel) as (-> & T & L & _).
  destruct r as [move|]; [|discriminate]. intros [= <- <-].
  split; [exact Pos|]. exists move, agent, t1.
  repeat split; try assumption; try (now apply L).
  cbn [white_clock black_clock]. unfold time_to_move.
  destruct (Bool.eqb (turn (board self)) WHITE); split; reflexivity.
Qed.

(** X20.  When the agent to move takes its move from the search, the search
    runs until the whole remaining time of that side is used up, since the
    match hands the full clock to [select_move] as its [time_limit]: with a
    clock that does not run backwards, the side is left with the increment of
    0.1 and nothing else, and the clock of the other side is untouched. *)
Theorem a_searched_move_uses_up_the_clock (think : nat) (self : Match) (t : nat)
    (self' : Match) (t' : nat) :
  (forall n, clock n <= clock (S n)) ->
  book_move (agent_to_move self) (board self) = None ->
  play_turn clock think self t = Some (Played self' t') ->
  if Bool.eqb (turn (board self)) WHITE
  then white_clock self' == 0.1 /\ black_clock self' = black_clock self
  else black_clock self' == 0.1 /\ white_clock self' = white_clock self.
Proof.
  intros Mono Book P.
  destruct (play_turn_played _ _ _ P)
    as (_ & move & agent & t1 & Sel & _ & _ & _ & _ & Clocks).
  unfold select_move in Sel. rewrite Book in Sel. unfold search_phase in Sel.
  destruct (iterative_deepening clock think (agent_to_move self) (board self)
                                (clock (S t)) (time_to_move self) 1 None (S (S t)))
    as [[[x b1] k1]|] eqn:D; [|discriminate].
  destruct (iterative_deepening_stops clock _ _ _ _ _ _ _ _ D) as [k [-> [_ Stop]]].
  apply Qltb_ge in Stop.
  assert (T : t1 = S k).
  { destruct x as [x|]; [now injection Sel as _ _ _ <-|].
    destruct (fallback_scan _ _ None NegInf b1). now injection Sel as _ _ _ <-. }
  subst t1.
  assert (Zero : max0 (time_to_move self - (clock (S k) - clock t)) == 0).
  { unfold max0. destruct (Qltb 0 _) eqn:Pos; [|reflexivity].
    apply Qltb_lt in Pos. pose proof (Mono k). pose proof (Mono t). lra. }
  cbv zeta in Clocks.
  destruct (Bool.eqb (turn (board self)) WHITE); destruct Clocks as [-> ->];
    (split; [rewrite Zero; reflexivity | reflexivity]).
Qed.

Lemma clock_forward (t d : nat) :
  (forall n, clock n <= clock (S n)) -> clock t <= clock (t + d).
Proof.
  intro Mono. induction d as [|d IH].
  - rewrite Nat.add_0_r. apply Qle_refl.
  - rewrite Nat.add_succ_r. eapply Qle_trans; [exact IH | apply Mono].
Qed.

(** X21.  A move costs the side that makes it the time it took and earns it
    the increment: with a clock that does not run backwards, the side that has
    moved is left with at least 0.1 and at most 0.1 more than it had, and the
    clock of the other side is untouched. *)
Theorem a_move_costs_its_time (think : nat) (self : Match) (t : nat)
    (self' : Match) (t' : nat) :
  (forall n, clock n <= clock (S n)) ->
  play_turn clock think self t = Some (Played self' t') ->
  if Bool.eqb (turn (board self)) WHITE
  then 0.1 <= white_clock self' <= white_clock self + 0.1
       /\ black_clock self' = black_clock self
  else 0.1 <= black_clock self' <= black_clock self + 0.1
       /\ white_clock self' = white_clock self.
Proof.
  intros Mono P.
  destruct (play_turn_played _ _ _ P)
    as (Pos & move & agent & t1 & _ & T & _ & _ & _ & Clocks).
  assert (Spent : 0 <= clock t1 - clock t).
  { pose proof (clock_forward t (t1 - t) Mono) as F.
    replace (t + (t1 - t))%nat with t1 in F by lia. lra. }
  assert (Left : 0 <= max0 (time_to_move self - (clock t1 - clock t))
                 <= time_to_move self).
  { unfold max0. destruct (Qltb 0 _) eqn:L; [apply Qltb_lt in L|]; lra. }
  cbv zeta in Clocks. unfold time_to_move in *.
  destruct (Bool.eqb (turn (board self)) WHITE); destruct Clocks as [-> ->];
    (split; [lra | reflexivity]).
Qed.

(** A position without legal moves is checkmate or stalemate, so the game is
    over there. *)
Hypothesis game_over_without_moves :
  forall b : Board, is_game_over b = false -> legal_moves b <> [].

Lemma play_turn_pushes_a_legal_move (think : nat) (self : Match) (t : nat)
    (moved : Turn) :
  is_game_over (board self) = false ->
  play_turn clock think self t = Some moved ->
  match moved with
  | Played self' _ =>
      exists move, In move (legal_moves (board self))
                   /\ board self' = push (board self) move
  | Flagged self' _ => self' = self
  | Raised _ _ => False
  end.
Proof.
  intros G. unfold play_turn.
  destruct (Qle_bool _ 0); [now intros [= <-]|].
  destruct (select_move clock think _ (board self) _ (S t))
    as [[[[r agent] b1] t1]|] eqn:Sel; [|discriminate].
  destruct (select_move_result clock pop_push _ _ _ _ _ Sel) as (-> & _ & L & N).
  destruct r as [m|]; [|now destruct (N (game_over_without_moves _ G))].
  intros [= <-]. exists m. split; [now apply L | reflexivity].
Qed.

(** X22.  While the game is not over, a pass through the loop of [play] comes
    to an end as soon as the clock runs out, and it ends with a legal move of
    the position on the board (or with the flag): the agent to move returns a
    move, so that [play] never hands [None] to [push]. *)
Theorem the_match_plays_legal_moves (fuel : nat) (self : Match) (t : nat) :
  (is_game_over (board self) = false ->
   (exists horizon : nat, forall n, (horizon <= n)%nat ->
      Qltb (clock n - clock (S t)) (time_to_move self) = false) ->
   exists think0, forall think, (think0 <= think)%nat ->
     exists moved,
       play_turn clock think self t = Some moved
       /\ match moved with
          | Played self' _ =>
              exists move, In move (legal_moves (board self))
                           /\ board self' = push (board self) move
          | Flagged self' _ => self' = self
          | Raised _ _ => False
          end)
  /\ (forall think ending self' t',
        play clock result think fuel self t = Some (ending, self', t') ->
        ending <> Failed).
Proof.
  split.
  - intros G Hclock.
    assert (R : exists think0, forall think, (think0 <= think)%nat ->
                exists moved, play_turn clock think self t = Some moved).
    { unfold play_turn. fold (agent_to_move self) (time_to_move self).
      destruct (Qle_bool (time_to_move self) 0); [exists 0%nat; now eexists|].
      unfold select_move.
      destruct (book_move (agent_to_move self) (board self)) as [[move agent]|].
      - exists 0%nat. intros think _. now eexists.
      - destruct (search_phase_returns clock pop_push (agent_to_move self) (board self)
                    (time_to_move self) (S t) Hclock) as [think0 H].
        exists think0. intros think Hthink.
        destruct (H think Hthink) as [r [t1 ->]]. destruct r; now eexists. }
    destruct R as [think0 R]. exists think0. intros think Hthink.
    destruct (R think Hthink) as [moved P]. exists moved. split; [exact P|].
    exact (play_turn_pushes_a_legal_move _ _ _ G P).
  - intro think. revert self t.
    induction fuel as [|fuel IH]; intros self t ending self' t'; [discriminate|].
    cbn [play]. destruct (is_game_over (board self)) eqn:G; cbn [negb];
      [intros [= <- _ _]; discriminate|].
    destruct (play_turn clock think self t) as [moved|] eqn:P; [|discriminate].
    pose proof (play_turn_pushes_a_legal_move _ _ _ G P) as L.
    destruct moved as [m1 t1 | m1 t1 | m1 t1].
    + intros [= <- _ _]. discriminate.
    + destruct L.
    + apply IH.
Qed.

End WithRules.

End MatchProperties.
(** ** The properties at the scripted positions *)

Import Script.

(** The scripted engine keeps the promises the theorems ask of the rules
    engine. *)
Lemma script_pop_push (b : Board Hidden) (move : Move) :
  In move (legal_moves b) -> pop (push b move) = b.
Proof.
  intros _. destruct b as [side_to_move stack [current undo]].
  cbn. unfold s_pop, s_push. cbn.
  now rewrite negb_involutive, removelast_last.
Qed.

Lemma script_game_over_without_moves (b : Board Hidden) :
  is_game_over b = false -> legal_moves b <> [].
Proof.
  cbn. unfold s_is_game_over, s_is_checkmate, s_is_stalemate.
  intros H E. rewrite E in H. cbn in H.
  destruct (s_is_check b); discriminate.
Qed.

Lemma clock_until_runs_out (n : nat) :
  exists horizon : nat, forall t, (horizon <= t)%nat ->
    Qltb (BackRank.clock_until (S n) t - BackRank.clock_until (S n) 0) 10 = false.
Proof.
  exists (S n). intros t Ht. unfold BackRank.clock_until.
  destruct (Nat.ltb_spec t (S n)); [lia | reflexivity].
Defined.

Lemma pruning_preserves_result_witness :
  let o := alpha_beta_search (BackRank.clock_until 3) BackRank.white
                             BackRank.start 2 NegInf PosInf WHITE 0 10 0 in
  (move_of o, score_of o) = full_minimax BackRank.white BackRank.start 2 WHITE.
Proof.
  apply (@pruning_preserves_result _ _ (BackRank.clock_until 3) script_pop_push
           0 10 BackRank.white BackRank.start 2 WHITE 0%nat).
  intros n [_ Hn]. vm_compute in Hn.
  destruct n as [|[|[|n]]]; try reflexivity. exfalso. lia.
Defined.

Lemma search_leaves_position_unchanged_witness :
  board_of (alpha_beta_search (BackRank.clock_until 6) BackRank.white
              BackRank.start 2 NegInf PosInf WHITE 0 10 4) = BackRank.start
  /\ snd (evaluate BackRank.white BackRank.start 0) = BackRank.start
  /\ forall c : Color, snd (mobility BackRank.start c) = BackRank.start.
Proof.
  exact (search_leaves_position_unchanged (BackRank.clock_until 6) script_pop_push
           BackRank.white BackRank.start 2 NegInf PosInf WHITE 0 10 4).
Defined.

Lemma search_move_none_iff_leaf_witness :
  move_of (alpha_beta_search (BackRank.clock_until 6) BackRank.white
             BackRank.start 2 NegInf PosInf WHITE 0 10 4) = None
  <-> is_leaf_call (BackRank.clock_until 6) BackRank.start 2 0 10 4.
Proof.
  exact (search_move_none_iff_leaf (BackRank.clock_until 6)
           script_game_over_without_moves BackRank.white BackRank.start 2
           NegInf PosInf WHITE 0 10 4).
Defined.

Lemma depth_one_search_is_brute_force_witness :
  let child move := static_eval BackRank.white (push BackRank.start move) in
  let o := alpha_beta_search BackRank.still_clock BackRank.white BackRank.start 1
                             NegInf PosInf WHITE 0 10 0 in
  exists m,
    move_of o = Some m /\ In m (legal_moves BackRank.start)
    /\ score_of o = Fin (child m)
    /\ if Bool.eqb (turn BackRank.start) WHITE
       then first_highest child (legal_moves BackRank.start) m
            /\ forall x, In x (legal_moves BackRank.start) -> child x <= child m
       else first_lowest child (legal_moves BackRank.start) m
            /\ forall x, In x (legal_moves BackRank.start) -> child m <= child x.
Proof.
  apply (depth_one_search_is_brute_force BackRank.still_clock script_pop_push
           BackRank.white BackRank.start WHITE 0 10 0);
    [discriminate | reflexivity | reflexivity].
Defined.

(** C9, as stated, fails: the position has legal moves, the deadline has
    passed when the call is entered, and no move is returned. *)
Lemma depth_one_search_past_the_deadline :
  legal_moves BackRank.start <> []
  /\ move_of (alpha_beta_search (BackRank.clock_until 0) BackRank.white
                BackRank.start 1 NegInf PosInf WHITE 0 10 0) = None.
Proof. split; [discriminate | reflexivity]. Qed.

Lemma fallback_returns_first_best_witness :
  exists m,
    select_move BackRank.still_clock 1 BackRank.white BackRank.start 0 0
    = Some (Some m, BackRank.white, BackRank.start, 2%nat)
    /\ first_highest
         (fun move => static_eval BackRank.white (push BackRank.start move))
         (legal_moves BackRank.start) m.
Proof.
  apply (@fallback_returns_first_best _ _ BackRank.still_clock script_pop_push 1
           BackRank.white BackRank.start 0 0 BackRank.start 2);
    [reflexivity | reflexivity | discriminate].
Defined.

(** C8, as stated, fails: at a checkmated position the deepening loop finds
    no move, the static scan has nothing to scan, and the caller receives
    [None]. *)
Lemma fallback_without_legal_moves :
  legal_moves (board_at BackRank.mated) = []
  /\ select_move (BackRank.clock_until 3) 5 BackRank.white
                 (board_at BackRank.mated) 10 0
     = Some (None, BackRank.white, board_at BackRank.mated, 4%nat).
Proof. split; reflexivity. Qed.

Lemma select_move_returns_last_move_found_witness :
  exists fuel0, forall fuel, (fuel0 <= fuel)%nat ->
    exists t' results,
      deepening_run (BackRank.clock_until 6) BackRank.white BackRank.start
                    (BackRank.clock_until 6 0) 10 1 1 results t'
      /\ ((exists m before after,
             results = before ++ Some m :: after /\ Forall (eq None) after
             /\ select_move (BackRank.clock_until 6) fuel BackRank.white
                            BackRank.start 10 0
                = Some (Some m, BackRank.white, BackRank.start, t'))
          \/ (Forall (eq None) results
              /\ select_move (BackRank.clock_until 6) fuel BackRank.white
                             BackRank.start 10 0
                 = Some (fst (fallback_scan BackRank.white
                                (legal_moves BackRank.start) None NegInf
                                BackRank.start),
                         BackRank.white, BackRank.start, t'))).
Proof.
  exact (select_move_returns_last_move_found (BackRank.clock_until 6)
           script_pop_push BackRank.white BackRank.start 10 0 eq_refl
           (clock_until_runs_out 5)).
Defined.

(** C5, as stated, fails.  The call of depth 1 runs from reading 2 to its
    end with the clock at 0 and returns [Rxd7].  The call of depth 2 starts
    at reading 4; the deadline fires at reading 6, inside it, so the second
    root move is scored by a static evaluation; the call returns [h3].  The
    selector returns [h3], the move of the interrupted call, and not the
    move of the last depth that was searched in full. *)
Lemma interrupted_deepening_overwrites_best_move :
  select_move (BackRank.clock_until 6) 10 BackRank.white BackRank.start 10 0
  = Some (Some BackRank.h2h3, BackRank.white, BackRank.start, 8%nat)
  /\ (let first := alpha_beta_search (BackRank.clock_until 6) BackRank.white
                     BackRank.start 1 NegInf PosInf WHITE 0 10 2 in
      move_of first = Some BackRank.Rxd7 /\ ticks_of first = 3%nat
      /\ Qltb 10 (BackRank.clock_until 6 2 - 0) = false)
  /\ (let second := alpha_beta_search (BackRank.clock_until 6) BackRank.white
                      BackRank.start 2 NegInf PosInf WHITE 0 10 4 in
      move_of second = Some BackRank.h2h3 /\ ticks_of second = 7%nat
      /\ Qltb 10 (BackRank.clock_until 6 6 - 0) = true)
  /\ BackRank.h2h3 <> BackRank.Rxd7.
Proof.
  split; [vm_compute; reflexivity|].
  split; [repeat split; vm_compute; reflexivity|].
  split; [repeat split; vm_compute; reflexivity | discriminate].
Qed.

Lemma history_is_tried_only_past_a_closed_opening_gate_witness :
  select_move BackRank.still_clock 0 BackRank.black_with_history
              (push BackRank.start BackRank.Rxd7) 10 0
  = Some (Some BackRank.Re1, magnus_played BackRank.black_with_history,
          push BackRank.start BackRank.Rxd7, 0%nat).
Proof.
  exact (history_is_tried_only_past_a_closed_opening_gate BackRank.still_clock 0
           BackRank.black_with_history (push BackRank.start BackRank.Rxd7) 10 0
           (fun gate : false = true => False_ind _ (Bool.diff_false_true gate))
           eq_refl).
Defined.

(** C2, as stated, fails: with the opening list exhausted, or its next entry
    unplayable, and a playable historical move waiting, the selector searches
    (the clock is read eight times) and plays [h3]; the historical index is
    not advanced. *)
Lemma failed_opening_goes_straight_to_search :
  (scripted BackRank.start (test_opening_moves BackRank.white_past_opening)
            (opening_moves_played BackRank.white_past_opening) = None
   /\ scripted BackRank.start (magnus_moves BackRank.white_past_opening)
               (magnus_moves_played BackRank.white_past_opening) = Some BackRank.Rxd7
   /\ select_move (BackRank.clock_until 6) 10 BackRank.white_past_opening BackRank.start 10 0
      = Some (Some BackRank.h2h3, BackRank.white_past_opening, BackRank.start, 8%nat))
  /\ (parse_san BackRank.start "e4" = None
      /\ scripted BackRank.start (magnus_moves BackRank.white_with_unplayable_opening)
                  (magnus_moves_played BackRank.white_with_unplayable_opening)
         = Some BackRank.Rxd7
      /\ select_move (BackRank.clock_until 6) 10 BackRank.white_with_unplayable_opening
                     BackRank.start 10 0
         = Some (Some BackRank.h2h3, BackRank.white_with_unplayable_opening,
                 BackRank.start, 8%nat)).
Proof. repeat split; vm_compute; reflexivity. Qed.

Lemma capture_penalty_is_for_own_captures_witness :
  fst (evaluate BackRank.white (push BackRank.start BackRank.Rxd7) 0)
  == total BackRank.white (push BackRank.start BackRank.Rxd7)
           (all_but NonPositiveCapture)
     + (if Bool.eqb (turn BackRank.start) (color BackRank.white)
        then - 1.0 else 0).
Proof.
  apply (@capture_penalty_is_for_own_captures _ _ BackRank.white BackRank.start
           BackRank.Rxd7);
    [reflexivity | reflexivity | repeat split | reflexivity
     | vm_compute; reflexivity].
Defined.

(** C4, as stated, fails: after 1.Rxd7 Bxd7 the last move is a capture made by
    the opponent, the perspective's material edge is below 1, the position is
    in play, and [evaluate] subtracts nothing. *)
Lemma capture_by_the_opponent_is_not_penalised :
  let before := push BackRank.start BackRank.Rxd7 in
  let after := push before BackRank.Bxd7 in
  turn before = negb (color BackRank.white)
  /\ peek after = Some BackRank.Bxd7
  /\ is_capture after BackRank.Bxd7 = true
  /\ material BackRank.white after < 1
  /\ in_play after
  /\ block BackRank.white after NonPositiveCapture == 0
  /\ fst (evaluate BackRank.white after 0)
     == total BackRank.white after (all_but NonPositiveCapture).
Proof.
  cbv zeta. repeat split; vm_compute; reflexivity.
Qed.

Lemma passed_pawns_by_distance_from_back_rank_witness :
  exists ours theirs,
    Forall2 (pawn_worth BackRank.start (color BackRank.white))
            (pieces BackRank.start PAWN (color BackRank.white)) ours
    /\ Forall2 (pawn_worth BackRank.start (negb (color BackRank.white)))
               (pieces BackRank.start PAWN (negb (color BackRank.white))) theirs
    /\ fst (evaluate BackRank.white BackRank.start 0)
       == total BackRank.white BackRank.start (all_but PassedPawn)
          + sumQ ours - sumQ theirs.
Proof.
  apply (@passed_pawns_by_distance_from_back_rank _ _ BackRank.white
           BackRank.start 0).
  repeat split.
Defined.

(** C7, as stated, fails: Black's pawn on d7 is passed and has not advanced
    a single rank, its road is blocked by the rook on d1, and it costs the
    perspective 0.5, where 0.5 times the ranks advanced is 0. *)
Lemma passed_pawn_on_its_starting_rank_counts :
  passed BackRank.start BackRank.d7 BLACK
  /\ ~ road_open BackRank.start BackRank.d7 BLACK
  /\ ranks_advanced BackRank.d7 BLACK == 0
  /\ enemy_pawn_bonus BackRank.white BackRank.start BackRank.d7 == 0.5
  /\ block BackRank.white BackRank.start PassedPawn == - 0.5.
Proof.
  split; [now apply is_passed_pawn_spec|].
  split; [intro R; apply open_road_spec in R; discriminate|].
  repeat split; vm_compute; reflexivity.
Qed.

(** C3: the code departs from the claim.  At the initial position Black
    owns fifteen pieces besides the king, and the forced-mate block still
    adds 500 for the king's (no) moves and 100 for its edge square; the
    evaluation of the position is 601.2. *)
Theorem forced_mate_block_fires_against_a_full_army :
  length (filter (fun entry => negb (PieceType_eqb (piece_type (snd entry)) KING)
                               && Bool.eqb (piece_color (snd entry)) BLACK)
                 (piece_map Initial.board)) = 15%nat
  /\ length (pieces Initial.board KING BLACK) = 1%nat
  /\ in_play Initial.board
  /\ block Initial.white Initial.board ForcedMate == 600
  /\ fst (evaluate Initial.white Initial.board 0) == 601.2.
Proof.
  repeat split; vm_compute; reflexivity.
Qed.

(** ** The tests of the move book, replayed

    [test_convert_ecocodes_to_dict], [test_get_opening_moves],
    [test_get_opening_moves_nonexistent] and [test_get_magnus_moves] of
    [src/tests.py], with the sampler drawing the first row. *)

Example test_convert_ecocodes_to_dict :
  openings TestData.move_book
  = [("A01"%string, mkOpening ["b3"%string; "Bb2"%string] ["e5"%string]);
     ("B20"%string, mkOpening ["e4"%string] ["c5"%string])].
Proof. reflexivity. Qed.

Example test_get_opening_moves :
  get_opening_moves TestData.move_book "A01" WHITE = ["b3"%string; "Bb2"%string]
  /\ get_opening_moves TestData.move_book "A01" BLACK = ["e5"%string]
  /\ get_opening_moves TestData.move_book "Z99" WHITE = [].
Proof. repeat split. Qed.

Example test_get_magnus_moves :
  get_magnus_moves TestData.move_book WHITE 0
  = ["e4"%string; "Nf3"%string; "Bb5"%string]
  /\ get_magnus_moves TestData.move_book BLACK 0 = ["c5"%string; "d6"%string].
Proof. split; reflexivity. Qed.

(** ** The further properties at the scripted positions *)

Lemma clock_until_forward (n t : nat) :
  BackRank.clock_until n t <= BackRank.clock_until n (S t).
Proof.
  unfold BackRank.clock_until.
  destruct (Nat.ltb_spec t n), (Nat.ltb_spec (S t) n); try lia; discriminate.
Defined.

Lemma select_move_returns_a_legal_move_witness :
  In BackRank.h2h3 (legal_moves BackRank.start).
Proof.
  apply (@select_move_returns_a_legal_move _ _ (BackRank.clock_until 6)
           script_pop_push 10 BackRank.white BackRank.start 10 0
           BackRank.h2h3 BackRank.white BackRank.start 8).
  vm_compute. reflexivity.
Defined.

Lemma select_move_finds_a_move_witness :
  exists fuel0, forall fuel, (fuel0 <= fuel)%nat ->
    exists m self' t',
      select_move (BackRank.clock_until 6) fuel BackRank.white BackRank.start 10 0
      = Some (Some m, self', BackRank.start, t')
      /\ In m (legal_moves BackRank.start).
Proof.
  apply (@select_move_finds_a_move _ _ (BackRank.clock_until 6) script_pop_push
           BackRank.white BackRank.start 10 0).
  - discriminate.
  - exact (clock_until_runs_out 5).
Defined.

Lemma select_move_frame_witness :
  Fixture.after_Rxd7 = Fixture.after_Rxd7
  /\ ((book_move Fixture.black Fixture.after_Rxd7 = None
       /\ magnus_played Fixture.black = Fixture.black /\ (1 < 0)%nat)
      \/ (opening_gate Fixture.black = true /\ Some BackRank.Re1 <> None
          /\ Some BackRank.Re1
             = scripted Fixture.after_Rxd7 (test_opening_moves Fixture.black)
                        (opening_moves_played Fixture.black)
          /\ magnus_played Fixture.black = opening_played Fixture.black
          /\ 0%nat = 0%nat)
      \/ (opening_gate Fixture.black = false /\ Some BackRank.Re1 <> None
          /\ Some BackRank.Re1
             = scripted Fixture.after_Rxd7 (magnus_moves Fixture.black)
                        (magnus_moves_played Fixture.black)
          /\ magnus_played Fixture.black = magnus_played Fixture.black
          /\ 0%nat = 0%nat))
  /\ (indices_in_range Fixture.black
      -> indices_in_range (magnus_played Fixture.black)).
Proof.
  apply (@select_move_frame _ _ BackRank.still_clock script_pop_push 0
           Fixture.black Fixture.after_Rxd7 10 0
           (Some BackRank.Re1) (magnus_played Fixture.black) Fixture.after_Rxd7 0).
  vm_compute. reflexivity.
Defined.

Lemma search_respects_its_window_witness :
  let o := alpha_beta_search BackRank.still_clock BackRank.white BackRank.start 2
                             (Fin 0) (Fin 1000) WHITE 0 10 0 in
  let v := snd (full_minimax BackRank.white BackRank.start 2 WHITE) in
  (score_ltb (Fin 0) (score_of o) = true -> score_ltb (score_of o) (Fin 1000) = true ->
   score_of o = v)
  /\ (score_ltb (Fin 0) (score_of o) = false -> score_ltb (Fin 0) v = false)
  /\ (score_ltb (score_of o) (Fin 1000) = false -> score_ltb v (Fin 1000) = false).
Proof.
  apply (@search_respects_its_window _ _ BackRank.still_clock script_pop_push
           BackRank.white BackRank.start 2 (Fin 0) (Fin 1000) WHITE 0 10 0%nat).
  - reflexivity.
  - intros n _. reflexivity.
Defined.

Lemma search_score_is_an_evaluation_witness :
  exists b',
    reachable BackRank.start 2 b'
    /\ score_of (alpha_beta_search (BackRank.clock_until 6) BackRank.white
                   BackRank.start 2 NegInf PosInf WHITE 0 10 4)
       = Fin (static_eval BackRank.white b').
Proof.
  exact (search_score_is_an_evaluation (BackRank.clock_until 6) script_pop_push
           script_game_over_without_moves BackRank.white 2 BackRank.start
           NegInf PosInf WHITE 0 10 4).
Defined.

Lemma search_enters_no_more_nodes_than_the_full_tree_witness :
  (ticks_of (alpha_beta_search (BackRank.clock_until 6) BackRank.white
               BackRank.start 2 (Fin 0) (Fin 100) WHITE 0 10 0)
   <= 0 + inner_nodes BackRank.start 2)%nat.
Proof.
  exact (search_enters_no_more_nodes_than_the_full_tree (BackRank.clock_until 6)
           script_pop_push BackRank.white 2 BackRank.start (Fin 0) (Fin 100)
           WHITE 0 10 0).
Defined.

Lemma select_move_without_time_witness :
  select_move BackRank.still_clock 1 BackRank.white BackRank.start 0 0
  = Some (fst (fallback_scan BackRank.white (legal_moves BackRank.start) None NegInf
                             BackRank.start),
          BackRank.white, BackRank.start, 2%nat).
Proof.
  apply (@select_move_without_time _ _ BackRank.still_clock script_pop_push 0
           BackRank.white BackRank.start 0 0%nat).
  - reflexivity.
  - apply Qle_refl.
  - apply Qle_refl.
Defined.

Lemma terminal_values_change_sign_witness :
  fst (evaluate (opponent BackRank.white) (board_at BackRank.mated) 0)
  == - fst (evaluate BackRank.white (board_at BackRank.mated) 0).
Proof.
  apply (@terminal_values_change_sign _ _ BackRank.white (board_at BackRank.mated) 0).
  reflexivity.
Defined.

Lemma confinement_is_not_measured_on_own_turn_witness :
  block Initial.white Initial.board ForcedMate
  == 500 + (if on_rim (king Initial.board (negb (color Initial.white)))
            then 100 else 0)
     + (if is_check Initial.board then 20 else 0).
Proof.
  apply (@confinement_is_not_measured_on_own_turn _ _ Initial.white Initial.board).
  - reflexivity.
  - reflexivity.
  - intros move I. vm_compute in I.
    repeat (destruct I as [<- | I];
            [eexists; split; vm_compute; reflexivity|]).
    destruct I.
  - eexists. split; vm_compute; reflexivity.
Defined.

Lemma opening_moves_are_tidy_witness : tidy "Bb2".
Proof.
  apply (opening_moves_are_tidy TestData.test_moves_white TestData.test_moves_black
           TestData.test_openings "A01" WHITE "Bb2").
  vm_compute. right. left. reflexivity.
Defined.

Lemma indices_stay_in_range_witness :
  indices_in_range (magnus_played Fixture.black)
  /\ color (magnus_played Fixture.black) = BLACK
  /\ test_opening_moves (magnus_played Fixture.black)
     = test_opening_moves Fixture.black
  /\ magnus_moves (magnus_played Fixture.black) = magnus_moves Fixture.black
  /\ failed_moves_count (magnus_played Fixture.black) = 0%nat
  /\ (if opening_gate Fixture.black
      then magnus_moves_played (magnus_played Fixture.black) = 0%nat
      else opening_moves_played (magnus_played Fixture.black) = 0%nat).
Proof.
  apply (@indices_stay_in_range _ _ BackRank.still_clock BLACK Fixture.book None 0
           Fixture.black (magnus_played Fixture.black)).
  - reflexivity.
  - apply (@later_call _ _ BackRank.still_clock Fixture.black Fixture.black
             (magnus_played Fixture.black) 0 Fixture.after_Rxd7 Fixture.after_Rxd7
             10 0 0 (Some BackRank.Re1)).
    + apply later_now.
    + vm_compute. reflexivity.
Defined.

(** Taken up after 1.Rxd7, the match is over after Black's reply from its
    book: Black has won and nobody was flagged. *)
Example a_match_played_out :
  exists self' t',
    play BackRank.still_clock Fixture.result 0 2 Fixture.mating_match 0
    = Some (Returned "0-1" false, self', t').
Proof. eexists. eexists. vm_compute. reflexivity. Qed.

Lemma a_searched_move_uses_up_the_clock_witness :
  white_clock Fixture.after_search == 0.1
  /\ black_clock Fixture.after_search = black_clock Fixture.searching_match.
Proof.
  apply (@a_searched_move_uses_up_the_clock _ _ (BackRank.clock_until 6)
           script_pop_push 10 Fixture.searching_match 0 Fixture.after_search 10).
  - apply clock_until_forward.
  - reflexivity.
  - vm_compute. reflexivity.
Defined.

Lemma a_move_costs_its_time_witness :
  (0.1 <= black_clock Fixture.after_reply
          <= black_clock Fixture.mating_match + 0.1)
  /\ white_clock Fixture.after_reply = white_clock Fixture.mating_match.
Proof.
  apply (@a_move_costs_its_time _ _ (BackRank.clock_until 1)
           script_pop_push 0 Fixture.mating_match 0 Fixture.after_reply 2).
  - apply clock_until_forward.
  - vm_compute. reflexivity.
Defined.

Lemma the_match_plays_legal_moves_witness :
  (is_game_over (board Fixture.searching_match) = false ->
   (exists horizon : nat, forall n, (horizon <= n)%nat ->
      Qltb (BackRank.clock_until 6 n - BackRank.clock_until 6 1)
           (time_to_move Fixture.searching_match) = false) ->
   exists think0, forall think, (think0 <= think)%nat ->
     exists moved,
       play_turn (BackRank.clock_until 6) think Fixture.searching_match 0 = Some moved
       /\ match moved with
          | Played self' _ =>
              exists move, In move (legal_moves (board Fixture.searching_match))
                           /\ board self' = push (board Fixture.searching_match) move
          | Flagged self' _ => self' = Fixture.searching_match
          | Raised _ _ => False
          end)
  /\ (forall think ending self' t',
        play (BackRank.clock_until 6) Fixture.result think 3
             Fixture.searching_match 0 = Some (ending, self', t') ->
        ending <> Failed).
Proof.
  exact (the_match_plays_legal_moves (BackRank.clock_until 6) Fixture.result
           script_pop_push script_game_over_without_moves 3
           Fixture.searching_match 0).
Defined.
